(** * Google Maps Timeline converter: the normalisation, merge and export pipeline

    A shallow embedding of [src/src/App.tsx] (first component copy): the
    coordinate parser, the dialect normaliser [convertNewToOld], the
    merge/clean engine [cleanData], the serialisers [convertToCSV] and
    [convertToKML], the chunker [splitIntoChunks], the batch driver
    [processFiles] and the downloads of [downloadZip] and of the buttons,
    followed by the properties established about them.

    Conventions of the embedding.
    - JavaScript strings are modelled by [string], read as the UTF-8 bytes of
      the text.  Every string operation the program uses (concatenation,
      equality, [trim], [startsWith], [replace] of a literal, [split] on a
      literal, the character-class replacements of the serialisers) commutes
      with that encoding.
    - The scaled coordinates and the confidence are results of [Math.round];
      they are modelled by [jsint]: an integer, NaN or an infinity.
    - Other numbers are IEEE-754 binary64 values, modelled by the primitive
      [float]s of the kernel.
    - [Math.random] is an argument of the functions that draw from it;
      [JSON.parse], [JSON.stringify], the clock and the rendering of a
      quotient by [1e7] are fields of the record [Host] or variables of the
      sections that use them. *)

From Stdlib Require Import List String Ascii Bool Arith ZArith Lia.
From Stdlib Require Import DecimalString DecimalZ DecimalNat DecimalPos.
From Stdlib Require Import Permutation.
From Stdlib Require Import Floats Uint63.
Import ListNotations.

Set Warnings "-inexact-float,-register-all".

Local Open Scope string_scope.
Local Open Scope list_scope.

(* ================================================================= *)
(** ** Strings *)

Module Str.

Definition chr (n : nat) : string := String (ascii_of_nat n) EmptyString.

Fixpoint rev_onto (s acc : string) : string :=
  match s with
  | EmptyString => acc
  | String c r => rev_onto r (String c acc)
  end.

Definition rev (s : string) : string := rev_onto s EmptyString.

(** [stripPrefix p s] is [Some r] when [s = p ++ r]. *)
Fixpoint stripPrefix (p s : string) : option string :=
  match p with
  | EmptyString => Some s
  | String a p' =>
      match s with
      | EmptyString => None
      | String b s' => if Ascii.eqb a b then stripPrefix p' s' else None
      end
  end.

Definition startsWith (s p : string) : bool :=
  match stripPrefix p s with Some _ => true | None => false end.

(** The WhiteSpace and LineTerminator code points of ECMAScript, in UTF-8:
    U+0009..U+000D, U+0020, U+00A0, U+1680, U+2000..U+200A, U+2028, U+2029,
    U+202F, U+205F, U+3000 and U+FEFF. *)
Definition utf8 (bytes : list nat) : string :=
  fold_right (fun n s => String (ascii_of_nat n) s) EmptyString bytes.

Definition whiteSpace : list string :=
  map utf8
    [ [9]; [10]; [11]; [12]; [13]; [32]; [194; 160]; [225; 154; 128];
      [226; 128; 128]; [226; 128; 129]; [226; 128; 130]; [226; 128; 131];
      [226; 128; 132]; [226; 128; 133]; [226; 128; 134]; [226; 128; 135];
      [226; 128; 136]; [226; 128; 137]; [226; 128; 138]; [226; 128; 168];
      [226; 128; 169]; [226; 128; 175]; [226; 129; 159]; [227; 128; 128];
      [239; 187; 191] ].

Fixpoint stripAny (ps : list string) (s : string) : option string :=
  match ps with
  | [] => None
  | p :: ps' =>
      match stripPrefix p s with
      | Some r => Some r
      | None => stripAny ps' s
      end
  end.

Fixpoint dropWhile_fuel (ps : list string) (fuel : nat) (s : string) : string :=
  match fuel with
  | O => s
  | S fuel' =>
      match stripAny ps s with
      | Some r => dropWhile_fuel ps fuel' r
      | None => s
      end
  end.

Definition trimStart (s : string) : string :=
  dropWhile_fuel whiteSpace (String.length s) s.

Definition trimEnd (s : string) : string :=
  rev (dropWhile_fuel (map rev whiteSpace) (String.length s) (rev s)).

(** [String.prototype.trim] *)
Definition trim (s : string) : string := trimEnd (trimStart s).

Definition isEmpty (s : string) : bool :=
  match s with EmptyString => true | _ => false end.

(** [s.replace(p, '')] with a string pattern: the first occurrence only. *)
Fixpoint removeFirst (p s : string) : string :=
  match stripPrefix p s with
  | Some r => r
  | None =>
      match s with
      | EmptyString => EmptyString
      | String c s' => String c (removeFirst p s')
      end
  end.

(** [s.split(sep)] for a non-empty separator.  [skip] counts the bytes of
    a separator just matched that are still to be passed over. *)
Fixpoint split_go (sep cur : string) (skip : nat) (s : string) : list string :=
  match s with
  | EmptyString => [rev cur]
  | String c s' =>
      match skip with
      | S k => split_go sep cur k s'
      | O =>
          match stripPrefix sep s with
          | Some _ => rev cur :: split_go sep EmptyString (String.length sep - 1) s'
          | None => split_go sep (String c cur) 0 s'
          end
      end
  end.

Definition split (s sep : string) : list string := split_go sep EmptyString 0 s.

Fixpoint join (sep : string) (l : list string) : string :=
  match l with
  | [] => EmptyString
  | [x] => x
  | x :: r => x ++ sep ++ join sep r
  end.

End Str.

(* ================================================================= *)
(** ** Numbers *)

(** The value of [Math.round]: an integer, NaN, or an infinity.  The sign of
    a zero is not kept: [String], division by [1e7] followed by [String], and
    [JSON.stringify] all print [-0] as [0]. *)
Inductive jsint : Type :=
| Int (z : Z)
| NaN
| Infinity (negative : bool).

(** [String(n)].  Integers print in decimal; that is what ECMAScript does
    below [1e21], and above it the printing remains injective, which is all
    the map keys rely on. *)
Definition toString (n : jsint) : string :=
  match n with
  | Int z => NilZero.string_of_int (Z.to_int z)
  | NaN => "NaN"
  | Infinity false => "Infinity"
  | Infinity true => "-Infinity"
  end.

Definition natToString (n : nat) : string :=
  NilZero.string_of_uint (Nat.to_uint n).

(* ================================================================= *)
(** ** The canonical record model (the interfaces of App.tsx) *)

Record Location : Type := {
  latitudeE7 : jsint;
  longitudeE7 : jsint;
  placeId : option string;
  name : option string;
  address : option string;
  semanticType : option string
}.

(** [Partial<Location>] *)
Record PartialLocation : Type := {
  p_latitudeE7 : option jsint;
  p_longitudeE7 : option jsint;
  p_placeId : option string;
  p_name : option string;
  p_address : option string;
  p_semanticType : option string
}.

(** The interface declares both stamps as strings; [convertNewToOld] leaves
    one [undefined] when the segment carries neither spelling of it. *)
Record Duration : Type := {
  startTimestamp : option string;
  endTimestamp : option string
}.

Record PlaceVisit : Type := {
  location : Location;
  duration : Duration;
  centerLatE7 : jsint;
  centerLngE7 : jsint;
  visitConfidence : jsint
}.

Record Activity : Type := {
  activityType : string;
  probability : float
}.

Record ActivitySegment : Type := {
  startLocation : PartialLocation;
  endLocation : PartialLocation;
  as_duration : Duration;
  distance : option float;
  activities : option (list Activity)
}.

Record TimelineObject : Type := {
  placeVisit : option PlaceVisit;
  activitySegment : option ActivitySegment
}.

(* ================================================================= *)
(** ** [Map<string, V>]: insertion-ordered, [set] on a present key keeps the
    key's position and replaces its value *)

Module JsMap.

Definition t (V : Type) : Type := list (string * V).

Definition empty {V : Type} : t V := [].

Fixpoint get {V : Type} (k : string) (m : t V) : option V :=
  match m with
  | [] => None
  | (k', v) :: r => if String.eqb k' k then Some v else get k r
  end.

Definition has {V : Type} (k : string) (m : t V) : bool :=
  match get k m with Some _ => true | None => false end.

Fixpoint set {V : Type} (k : string) (v : V) (m : t V) : t V :=
  match m with
  | [] => [(k, v)]
  | (k', v') :: r =>
      if String.eqb k' k then (k', v) :: r else (k', v') :: set k v r
  end.

(** [m.forEach(f)] visits the values in insertion order. *)
Definition values {V : Type} (m : t V) : list V := map snd m.

Definition keys {V : Type} (m : t V) : list string := map fst m.

(** [m.get(k)!.push(x)]: the array stored under [k] is extended in place. *)
Definition push {A : Type} (k : string) (x : A) (m : t (list A)) : t (list A) :=
  match get k m with
  | Some g => set k (g ++ [x]) m
  | None => m
  end.

End JsMap.

(* ================================================================= *)
(** ** The merge/clean engine: [cleanData] *)

Definition isPlaceVisit (obj : TimelineObject) : bool :=
  match placeVisit obj with Some _ => true | None => false end.

(** [loc.placeId && loc.placeId.trim() !== '' ? loc.placeId.trim() : null] *)
Definition usablePlaceId (loc : Location) : option string :=
  match placeId loc with
  | Some s =>
      if Str.isEmpty s then None
      else if Str.isEmpty (Str.trim s) then None
      else Some (Str.trim s)
  | None => None
  end.

(** The key of pass 1, for a record that takes part in it. *)
Definition placeIdKey (obj : TimelineObject) : option string :=
  match placeVisit obj with
  | Some pv => usablePlaceId (location pv)
  | None => None
  end.

(** [`${loc.latitudeE7},${loc.longitudeE7}`] *)
Definition latLngKey (loc : Location) : string :=
  toString (latitudeE7 loc) ++ "," ++ toString (longitudeE7 loc).

(** [loc?.address && loc.address.trim() !== ''] with
    [loc = obj.placeVisit?.location] *)
Definition hasAddress (obj : TimelineObject) : bool :=
  match placeVisit obj with
  | Some pv =>
      match address (location pv) with
      | Some a => negb (Str.isEmpty a) && negb (Str.isEmpty (Str.trim a))
      | None => false
      end
  | None => false
  end.

(** The body of both [forEach((group) => ...)] loops: the record a group
    contributes.  Groups are never empty (a group is created by the [push]
    of its first member); [None] stands for the [undefined] of [group[0]]
    on an empty array. *)
Definition survivor (group : list TimelineObject) : option TimelineObject :=
  match group with
  | [x] => Some x
  | _ =>
      match filter hasAddress group with
      | w :: _ => Some w
      | [] => hd_error group
      end
  end.

Definition survivors (m : JsMap.t (list TimelineObject)) : list TimelineObject :=
  flat_map (fun g => match survivor g with Some x => [x] | None => [] end)
           (JsMap.values m).

(** [if (!m.has(k)) m.set(k, []); m.get(k)!.push(obj)] *)
Definition addToGroup (k : string) (obj : TimelineObject)
  (m : JsMap.t (list TimelineObject)) : JsMap.t (list TimelineObject) :=
  JsMap.push k obj (if JsMap.has k m then m else JsMap.set k [] m).

(** Pass 1, lines 229-249: the state is [(placeIdMap, noPlaceIdRecords)]. *)
Definition pass1_step (st : JsMap.t (list TimelineObject) * list TimelineObject)
  (obj : TimelineObject) : JsMap.t (list TimelineObject) * list TimelineObject :=
  let (placeIdMap, noPlaceIdRecords) := st in
  match placeVisit obj with
  | None => (placeIdMap, noPlaceIdRecords ++ [obj])
  | Some pv =>
      match usablePlaceId (location pv) with
      | Some pid => (addToGroup pid obj placeIdMap, noPlaceIdRecords)
      | None => (placeIdMap, noPlaceIdRecords ++ [obj])
      end
  end.

Definition pass1 (cleaned : list TimelineObject)
  : JsMap.t (list TimelineObject) * list TimelineObject :=
  fold_left pass1_step cleaned (JsMap.empty, []).

(** Line 270 *)
Definition allRecordsAfterPlaceIdDedup (cleaned : list TimelineObject)
  : list TimelineObject :=
  let (placeIdMap, noPlaceIdRecords) := pass1 cleaned in
  survivors placeIdMap ++ noPlaceIdRecords.

(** Pass 2, lines 271-286.  [random i] is the text that the template literal
    makes of the [i]-th call of [Math.random] in this run of [cleanData]; the
    state is [(latLngMap, number of calls made so far)]. *)
Definition pass2_step (random : nat -> string)
  (st : JsMap.t (list TimelineObject) * nat) (obj : TimelineObject)
  : JsMap.t (list TimelineObject) * nat :=
  let (latLngMap, calls) := st in
  match placeVisit obj with
  | None => (JsMap.set ("activity-" ++ random calls) [obj] latLngMap, S calls)
  | Some pv => (addToGroup (latLngKey (location pv)) obj latLngMap, calls)
  end.

Definition pass2 (random : nat -> string) (records : list TimelineObject)
  : JsMap.t (list TimelineObject) :=
  fst (fold_left (pass2_step random) records (JsMap.empty, 0)).

(** The [if (removeDuplicates)] block, lines 226-309, as a function of the
    records it starts from. *)
Definition dedup (random : nat -> string) (cleaned : list TimelineObject)
  : list TimelineObject :=
  survivors (pass2 random (allRecordsAfterPlaceIdDedup cleaned)).

Record CleaningStats : Type := {
  removedActivities : nat;
  removedDuplicates : nat;
  totalRemoved : nat
}.

(** [cleanData]; the two options are the component state it closes over. *)
Definition cleanData (removeActivitiesOpt removeDuplicatesOpt : bool)
  (random : nat -> string) (timelineObjects : list TimelineObject)
  : list TimelineObject * CleaningStats :=
  let cleaned0 := timelineObjects in
  let cleaned1 := if removeActivitiesOpt then filter isPlaceVisit cleaned0 else cleaned0 in
  let removedA := if removeActivitiesOpt then List.length cleaned0 - List.length cleaned1 else 0 in
  let cleaned2 := if removeDuplicatesOpt then dedup random cleaned1 else cleaned1 in
  let removedD := if removeDuplicatesOpt then List.length cleaned1 - List.length cleaned2 else 0 in
  (cleaned2,
   {| removedActivities := removedA;
      removedDuplicates := removedD;
      totalRemoved := removedA + removedD |}).

(* ================================================================= *)
(** ** The serialisers *)

(** The double quote, kept out of string literals. *)
Definition dq : string := Str.chr 34.

(** The line feed of the template literals and of [join('\n')]. *)
Definition nl : string := Str.chr 10.

(** [a || b] on an optional string: the empty string is falsy. *)
Definition orString (a : option string) (b : string) : string :=
  match a with
  | Some s => if Str.isEmpty s then b else s
  | None => b
  end.

(** The text a template literal or [String] makes of an optional string. *)
Definition stringOf (a : option string) : string :=
  match a with Some s => s | None => "undefined" end.

(** A cell of the CSV table: [(string | number)], the numbers being
    quotients by [1e7]; a stamp may be [undefined]. *)
Inductive cell : Type :=
| CString (s : string)
| CQuotient (n : jsint)
| CStamp (s : option string).

Definition headerRow : list cell :=
  map CString
    ["Type"; "Name"; "Address"; "Latitude"; "Longitude"; "Start Time";
     "End Time"; "PlaceId"].

(** [as.activities?.[0]?.activityType || 'UNKNOWN'] *)
Definition actType (seg : ActivitySegment) : string :=
  match activities seg with
  | Some (a :: _) => if Str.isEmpty (activityType a) then "UNKNOWN" else activityType a
  | _ => "UNKNOWN"
  end.

(** [x ?? 0] *)
Definition orZero (x : option jsint) : jsint :=
  match x with Some n => n | None => Int 0 end.

(** The rows one record pushes (lines 326-352): one for a visit, else one
    for an activity segment, else none. *)
Definition recordRows (obj : TimelineObject) : list (list cell) :=
  match placeVisit obj with
  | Some pv =>
      let loc := location pv in
      [[ CString "Visit";
         CString (orString (name loc) "");
         CString (orString (address loc) "");
         CQuotient (latitudeE7 loc);
         CQuotient (longitudeE7 loc);
         CStamp (startTimestamp (duration pv));
         CStamp (endTimestamp (duration pv));
         CString (orString (placeId loc) "") ]]
  | None =>
      match activitySegment obj with
      | Some seg =>
          [[ CString "Activity";
             CString (actType seg);
             CString "";
             CQuotient (orZero (p_latitudeE7 (startLocation seg)));
             CQuotient (orZero (p_longitudeE7 (startLocation seg)));
             CStamp (startTimestamp (as_duration seg));
             CStamp (endTimestamp (as_duration seg));
             CString "" ]]
      | None => []
      end
  end.

Definition csvRows (data : list TimelineObject) : list (list cell) :=
  headerRow :: flat_map recordRows data.

(** The [replace] of line 355: every double quote becomes two. *)
Fixpoint doubleQuotes (s : string) : string :=
  match s with
  | EmptyString => EmptyString
  | String c r =>
      if Ascii.eqb c (ascii_of_nat 34)
      then String c (String c (doubleQuotes r))
      else String c (doubleQuotes r)
  end.

(** The replacement [escapeXml] makes of one character: the five characters
    of its class map to their entities, every other one to itself. *)
Definition escapeChar (c : ascii) : string :=
  if Ascii.eqb c "<" then "&lt;"
  else if Ascii.eqb c ">" then "&gt;"
  else if Ascii.eqb c "&" then "&amp;"
  else if Ascii.eqb c (ascii_of_nat 34) then "&quot;"
  else if Ascii.eqb c "'" then "&apos;"
  else String c EmptyString.

Fixpoint escapeXml (unsafe : string) : string :=
  match unsafe with
  | EmptyString => EmptyString
  | String c r => escapeChar c ++ escapeXml r
  end.

Section Serialisers.

(** [String(n / 1e7)], the decimal degrees as JavaScript prints them. *)
Variable quotientToString : jsint -> string.

(** [String(cell)] *)
Definition cellText (c : cell) : string :=
  match c with
  | CString s => s
  | CQuotient n => quotientToString n
  | CStamp s => stringOf s
  end.

Definition quoteCell (c : cell) : string :=
  dq ++ doubleQuotes (cellText c) ++ dq.

Definition convertToCSV (data : list TimelineObject) : string :=
  Str.join nl (map (fun row => Str.join "," (map quoteCell row)) (csvRows data)).

Definition kmlHeader : string :=
  "<?xml version=" ++ dq ++ "1.0" ++ dq ++ " encoding=" ++ dq ++ "UTF-8" ++ dq ++ "?>" ++ nl ++
  "<kml xmlns=" ++ dq ++ "http://www.opengis.net/kml/2.2" ++ dq ++ ">" ++ nl ++
  "  <Document>" ++ nl ++
  "    <name>Timeline Data</name>" ++ nl ++
  "    <Style id=" ++ dq ++ "visit" ++ dq ++ ">" ++ nl ++
  "      <IconStyle>" ++ nl ++
  "        <color>ff0000ff</color>" ++ nl ++
  "        <Icon>" ++ nl ++
  "          <href>http://maps.google.com/mapfiles/kml/pushpin/red-pushpin.png</href>" ++ nl ++
  "        </Icon>" ++ nl ++
  "      </IconStyle>" ++ nl ++
  "    </Style>" ++ nl.

Definition kmlFooter : string :=
  "  </Document>" ++ nl ++ "</kml>".

(** The text between [<name>] and [</name>]. *)
Definition placemarkName (pv : PlaceVisit) : string :=
  escapeXml (orString (name (location pv)) "Unknown Location").

(** The text between [<description>] and [</description>]. *)
Definition placemarkDescription (pv : PlaceVisit) : string :=
  "<![CDATA[" ++ orString (address (location pv)) "" ++ nl ++
  "Start: " ++ stringOf (startTimestamp (duration pv)) ++ nl ++
  "End: " ++ stringOf (endTimestamp (duration pv)) ++ "]]>".

Definition placemark (pv : PlaceVisit) : string :=
  "    <Placemark>" ++ nl ++
  "      <name>" ++ placemarkName pv ++ "</name>" ++ nl ++
  "      <description>" ++ placemarkDescription pv ++ "</description>" ++ nl ++
  "      <styleUrl>#visit</styleUrl>" ++ nl ++
  "      <Point>" ++ nl ++
  "        <coordinates>" ++ quotientToString (longitudeE7 (location pv)) ++ "," ++
                             quotientToString (latitudeE7 (location pv)) ++ ",0</coordinates>" ++ nl ++
  "      </Point>" ++ nl ++
  "    </Placemark>" ++ nl.

Definition convertToKML (data : list TimelineObject) : string :=
  (fold_left
    (fun kml obj =>
       match placeVisit obj with
       | Some pv => (kml ++ placemark pv)%string
       | None => kml
       end)
    data kmlHeader
  ++ kmlFooter)%string.

End Serialisers.

(** [splitIntoChunks]: the loop [for (i = 0; i < data.length; i += chunkSize)]
    run for at most [fuel] rounds.  With [chunkSize = 0] the loop of the
    source does not end; the program only calls it with 2000. *)
Definition slice {A : Type} (data : list A) (from to : nat) : list A :=
  firstn (to - from) (skipn from data).

Fixpoint chunkLoop {A : Type} (fuel : nat) (data : list A) (chunkSize i : nat)
  : list (list A) :=
  match fuel with
  | O => []
  | S fuel' =>
      if (i <? List.length data)%nat
      then slice data i (i + chunkSize) :: chunkLoop fuel' data chunkSize (i + chunkSize)
      else []
  end.

Definition splitIntoChunks {A : Type} (data : list A) (chunkSize : nat)
  : list (list A) :=
  chunkLoop (List.length data) data chunkSize 0.

(* ================================================================= *)
(** ** Parsed JSON documents and the operations JavaScript applies to them *)

Inductive value : Type :=
| VUndefined
| VNull
| VBool (b : bool)
| VNumber (f : float)
| VString (s : string)
| VArray (items : list value)
| VObject (fields : list (string * value)).

(** The places where the program can raise a [TypeError]; the text of the
    message belongs to the engine. *)
Inductive typeError : Type :=
| ReadOfNullish (property : string)
| NotAFunction (callee : string)
| NotIterable
| KeysOfNullish.

Inductive exn : Type :=
| TypeError (e : typeError)
| Error (message : string).

Inductive result (A : Type) : Type :=
| Ok (a : A)
| Throw (e : exn).

Arguments Ok {A} a.
Arguments Throw {A} e.

Definition bind {A B : Type} (r : result A) (k : A -> result B) : result B :=
  match r with
  | Ok a => k a
  | Throw e => Throw e
  end.

Notation "x <- e ;; k" := (bind e (fun x => k))
  (at level 61, e at next level, right associativity).

Definition isNaN (f : float) : bool := negb (PrimFloat.eqb f f).

Definition truthy (v : value) : bool :=
  match v with
  | VUndefined | VNull => false
  | VBool b => b
  | VNumber f => negb (isNaN f) && negb (PrimFloat.eqb f 0)
  | VString s => negb (Str.isEmpty s)
  | VArray _ | VObject _ => true
  end.

(** [a || b] *)
Definition orValue (a b : value) : value := if truthy a then a else b.

Fixpoint lookup (k : string) (fields : list (string * value)) : value :=
  match fields with
  | [] => VUndefined
  | (k', v) :: r => if String.eqb k' k then v else lookup k r
  end.

Definition isContinuation (c : ascii) : bool :=
  let n := nat_of_ascii c in (128 <=? n)%nat && (n <? 192)%nat.

(** The length of a string in UTF-16 code units, from its UTF-8 bytes. *)
Fixpoint utf16Length (s : string) : nat :=
  match s with
  | EmptyString => 0
  | String c r =>
      (if isContinuation c then 0
       else if (240 <=? nat_of_ascii c)%nat then 2 else 1) + utf16Length r
  end.

(** The strings a spread of a string yields: one per code point. *)
Fixpoint codePoints_go (cur : string) (s : string) : list string :=
  match s with
  | EmptyString => if Str.isEmpty cur then [] else [Str.rev cur]
  | String c r =>
      if isContinuation c || Str.isEmpty cur
      then codePoints_go (String c cur) r
      else Str.rev cur :: codePoints_go (String c EmptyString) r
  end.

Definition codePoints (s : string) : list string := codePoints_go EmptyString s.

(** The conversion of an integer to [float], correctly rounded. *)
Definition ofZ (z : Z) : float := SF2Prim (binary_normalize prec emax z 0 false).

Definition ofNat (n : nat) : float := ofZ (Z.of_nat n).

(** [v.k] for a property name [k] other than an array index.  The names the
    program reads are own properties of parsed objects or [length]; none is
    found on a prototype. *)
Definition get (v : value) (k : string) : result value :=
  match v with
  | VUndefined | VNull => Throw (TypeError (ReadOfNullish k))
  | VObject fields => Ok (lookup k fields)
  | VArray items =>
      Ok (if String.eqb k "length" then VNumber (ofNat (List.length items)) else VUndefined)
  | VString s =>
      Ok (if String.eqb k "length" then VNumber (ofNat (utf16Length s)) else VUndefined)
  | VBool _ | VNumber _ => Ok VUndefined
  end.

(** [v?.k] *)
Definition getOpt (v : value) (k : string) : result value :=
  match v with
  | VUndefined | VNull => Ok VUndefined
  | _ => get v k
  end.

Definition isArray (v : value) : bool :=
  match v with VArray _ => true | _ => false end.

(** [typeof v === 'object'] *)
Definition typeofObject (v : value) : bool :=
  match v with VNull | VArray _ | VObject _ => true | _ => false end.

(** [Object.keys(v)] *)
Definition objectKeys (v : value) : result (list string) :=
  match v with
  | VUndefined | VNull => Throw (TypeError KeysOfNullish)
  | VObject fields => Ok (map fst fields)
  | VArray items => Ok (map natToString (seq 0 (List.length items)))
  | VString s => Ok (map natToString (seq 0 (utf16Length s)))
  | VBool _ | VNumber _ => Ok []
  end.

(** The reading of a value at a field of declared type [string]; a value of
    another type lies outside the interface and is dropped. *)
Definition asString (v : value) : option string :=
  match v with VString s => Some s | _ => None end.

(** *** [parseFloat] *)

Definition isDigit (c : ascii) : bool :=
  let n := nat_of_ascii c in (48 <=? n)%nat && (n <=? 57)%nat.

Definition digitVal (c : ascii) : Z := Z.of_nat (nat_of_ascii c - 48).

(** Reads the digits at the head of [s] into [acc]; returns the number read,
    how many digits it took, and the rest. *)
Fixpoint scanDigits (acc : Z) (count : nat) (s : string) : Z * nat * string :=
  match s with
  | EmptyString => (acc, count, s)
  | String c r =>
      if isDigit c then scanDigits (10 * acc + digitVal c) (S count) r
      else (acc, count, s)
  end.

Definition scanSign (s : string) : bool * string :=
  match s with
  | String c r =>
      if Ascii.eqb c "-" then (true, r)
      else if Ascii.eqb c "+" then (false, r)
      else (false, s)
  | EmptyString => (false, s)
  end.

(** The value of an optional exponent part; an [e] that no digit follows is
    not part of the numeral. *)
Definition scanExponent (s : string) : Z :=
  match s with
  | String c r =>
      if Ascii.eqb c "e" || Ascii.eqb c "E" then
        let (neg, r') := scanSign r in
        let '(x, n, _) := scanDigits 0 0 r' in
        if (n =? 0)%nat then 0%Z else if neg then (- x)%Z else x
      else 0%Z
  | EmptyString => 0%Z
  end.

(** The number [num / den], for [0 <= num] and [0 < den], rounded once to
    binary64, a tie going to the even mantissa.  The result is the pair of a
    mantissa [m] and an exponent [k] over [2^-1074]: the value
    [m * 2^(k - 1074)].  Everything is computed on integers, so that no
    intermediate rounding takes place. *)
Definition roundToBinary64 (num den : Z) : Z * Z :=
  let a := (num * 2 ^ 1074)%Z in
  let k := Z.max 0 (Z.log2 (a / den) - 52) in
  let d := (den * 2 ^ k)%Z in
  let q := (a / d)%Z in
  let r := (a mod d)%Z in
  let m := if (d <? 2 * r)%Z || ((d =? 2 * r)%Z && Z.odd q) then (q + 1)%Z else q in
  if (m =? 2 ^ 53)%Z then (2 ^ 52, k + 1)%Z else (m, k).

(** The float of sign [negative], mantissa [m] and exponent [k] over
    [2^-1074]; past the largest finite float it is an infinity. *)
Definition binary64 (negative : bool) (m k : Z) : float :=
  match m with
  | Zpos p =>
      if (2045 <? k)%Z then (if negative then neg_infinity else infinity)
      else SF2Prim (S754_finite negative p (k - 1074))
  | _ => SF2Prim (S754_zero negative)
  end.

(** The float nearest to [m * 10^e], as the host reads a decimal literal:
    the decimal number is rounded once. *)
Definition decimalToFloat (negative : bool) (m e : Z) : float :=
  let (mant, k) := if (0 <=? e)%Z then roundToBinary64 (m * 10 ^ e) 1
                   else roundToBinary64 m (10 ^ (- e)) in
  binary64 negative mant k.

(** [parseFloat(s)] for a string: leading white space is skipped, the longest
    prefix that is a decimal literal is read, what follows is ignored. *)
Definition parseFloatString (s : string) : float :=
  let (negative, s2) := scanSign (Str.trimStart s) in
  if Str.startsWith s2 "Infinity"
  then (if negative then neg_infinity else infinity)
  else
    let '(ip, ni, s3) := scanDigits 0 0 s2 in
    let '(m, nf, s4) :=
      match s3 with
      | String c r => if Ascii.eqb c "." then scanDigits ip 0 r else (ip, 0%nat, s3)
      | EmptyString => (ip, 0%nat, s3)
      end in
    if (ni + nf =? 0)%nat then nan
    else decimalToFloat negative m (scanExponent s4 - Z.of_nat nf).

(** [parseFloat(v)]: the argument is first turned into a string.  A number
    prints to a numeral that reads back as itself, the sign of zero apart; an
    array prints its elements separated by commas, so that only its first
    element is read. *)
Fixpoint parseFloat (v : value) : float :=
  match v with
  | VNumber f => if PrimFloat.eqb f 0 then 0%float else f
  | VString s => parseFloatString s
  | VArray (x :: _) => parseFloat x
  | _ => nan
  end.

(** [Math.round]: the nearest integer, a tie going up. *)
Definition Math_round (f : float) : jsint :=
  match Prim2SF f with
  | S754_zero _ => Int 0
  | S754_infinity s => Infinity s
  | S754_nan => NaN
  | S754_finite s m e =>
      let num := if s then Z.neg m else Z.pos m in
      Int (if (0 <=? e)%Z then num * 2 ^ e
           else (2 * num + 2 ^ (- e)) / (2 * 2 ^ (- e)))%Z
  end.

(** [Math.round(x * 1e7)] *)
Definition scaleE7 (x : float) : jsint := Math_round (PrimFloat.mul x 1e7).

(** [x || 0] on a number *)
Definition orZeroFloat (x : float) : float :=
  if isNaN x || PrimFloat.eqb x 0 then 0%float else x.

(** *** [parseLatLng] (lines 72-82) *)

Definition degreeSign : string := Str.utf8 [194; 176].

Definition parseFloatAt (parts : list string) (i : nat) : float :=
  match nth_error parts i with
  | Some s => parseFloatString s
  | None => nan
  end.

(** The parameter is declared a string; a truthy value of another type has
    no [startsWith] to call. *)
Definition parseLatLng (latLngStr : value) : result (float * float) :=
  if negb (truthy latLngStr) then Ok (0%float, 0%float)
  else
    match latLngStr with
    | VString s =>
        if Str.startsWith s "geo:" then
          let coords := Str.split (Str.removeFirst "geo:" s) "," in
          Ok (parseFloatAt coords 0, parseFloatAt coords 1)
        else
          let parts := Str.split (Str.removeFirst degreeSign s) ", " in
          Ok (parseFloatAt parts 0, parseFloatAt parts 1)
    | _ => Throw (TypeError (NotAFunction "latLngStr.startsWith"))
    end.

(* ================================================================= *)
(** ** The dialect normaliser: [convertNewToOld] (lines 84-213) *)

(** [`[${filename}] ${text}`] *)
Definition tagged (filename text : string) : string :=
  "[" ++ filename ++ "] " ++ text.

Section Normaliser.

(** [err.message] of a [TypeError] *)
Variable typeErrorMessage : typeError -> string.

Definition message (e : exn) : string :=
  match e with
  | TypeError t => typeErrorMessage t
  | Error m => m
  end.

(** [segment.startTime || segment.startTimestamp], and the same for the end *)
Definition segmentDuration (segment : value) : result Duration :=
  st <- get segment "startTime" ;;
  st' <- get segment "startTimestamp" ;;
  en <- get segment "endTime" ;;
  en' <- get segment "endTimestamp" ;;
  Ok {| startTimestamp := asString (orValue st st');
        endTimestamp := asString (orValue en en') |}.

(** The coordinates of a place given as a string or as an object with a
    [latLng] string (lines 109-118, 142-155); [(0, 0)] when it is neither. *)
Definition locationCoords (x : value) : result (float * float) :=
  match x with
  | VString _ => parseLatLng x
  | _ =>
      ll <- getOpt x "latLng" ;;
      if truthy ll then parseLatLng ll else Ok (0%float, 0%float)
  end.

Definition coordsOnly (c : float * float) : PartialLocation :=
  {| p_latitudeE7 := Some (scaleE7 (fst c));
     p_longitudeE7 := Some (scaleE7 (snd c));
     p_placeId := None; p_name := None; p_address := None;
     p_semanticType := None |}.

(** Lines 105-138 *)
Definition convertVisit (segment visit : value) : result TimelineObject :=
  tc <- get visit "topCandidate" ;;
  let topCandidate := orValue tc (VObject []) in
  placeLocation <- get topCandidate "placeLocation" ;;
  coords <- locationCoords placeLocation ;;
  pid <- get topCandidate "placeId" ;;
  nm <- getOpt placeLocation "name" ;;
  addr <- getOpt placeLocation "address" ;;
  sem <- get topCandidate "semanticType" ;;
  dur <- segmentDuration segment ;;
  prob <- get visit "probability" ;;
  Ok {| placeVisit := Some
          {| location :=
               {| latitudeE7 := scaleE7 (fst coords);
                  longitudeE7 := scaleE7 (snd coords);
                  placeId := asString (orValue pid (VString ""));
                  name := asString (orValue nm (VString ""));
                  address := asString (orValue addr (VString ""));
                  semanticType := asString (orValue sem (VString "TYPE_UNKNOWN")) |};
             duration := dur;
             centerLatE7 := scaleE7 (fst coords);
             centerLngE7 := scaleE7 (snd coords);
             visitConfidence :=
               Math_round (PrimFloat.mul (orZeroFloat (parseFloat prob)) 100) |};
        activitySegment := None |}.

(** Lines 139-181 *)
Definition convertActivity (segment activity : value) : result TimelineObject :=
  start <- get activity "start" ;;
  startCoords <- locationCoords start ;;
  end_ <- get activity "end" ;;
  endCoords <- locationCoords end_ ;;
  tc <- get activity "topCandidate" ;;
  let topCandidate := orValue tc (VObject []) in
  type <- get topCandidate "type" ;;
  prob <- get topCandidate "probability" ;;
  dur <- segmentDuration segment ;;
  dist <- get activity "distanceMeters" ;;
  Ok {| placeVisit := None;
        activitySegment := Some
          {| startLocation := coordsOnly startCoords;
             endLocation := coordsOnly endCoords;
             as_duration := dur;
             distance := Some (orZeroFloat (parseFloat dist));
             activities := Some
               (if truthy type
                then [ {| activityType :=
                            match asString type with Some s => s | None => "" end;
                          probability := orZeroFloat (parseFloat prob) |} ]
                else []) |} |}.

Definition pathRecord (firstPoint lastPoint : float * float) (dur : Duration)
  : TimelineObject :=
  {| placeVisit := None;
     activitySegment := Some
       {| startLocation := coordsOnly firstPoint;
          endLocation := coordsOnly lastPoint;
          as_duration := dur;
          distance := None;
          activities := None |} |}.

(** [path[i]] of an array *)
Definition itemAt (items : list value) (i : nat) : value :=
  nth i items VUndefined.

(** Lines 182-205.  A string in the place of the array has characters for
    elements, whose [point] is undefined.  An object in its place is read
    through its [length] and index fields when the length is a whole number;
    a length of another kind is taken as not positive. *)
Definition convertPath (segment path : value) : result (list TimelineObject) :=
  let fromPoints (p0 pl : value) :=
    point0 <- get p0 "point" ;;
    firstPoint <- parseLatLng point0 ;;
    pointl <- get pl "point" ;;
    lastPoint <- parseLatLng pointl ;;
    dur <- segmentDuration segment ;;
    Ok [pathRecord firstPoint lastPoint dur] in
  match path with
  | VArray items =>
      if (0 <? List.length items)%nat
      then fromPoints (itemAt items 0) (itemAt items (List.length items - 1))
      else Ok []
  | VString s => fromPoints (VString s) (VString s)
  | VObject fields =>
      match lookup "length" fields with
      | VNumber len =>
          if PrimFloat.ltb 0 len then
            match Math_round (PrimFloat.sub len 1) with
            | Int z =>
                if PrimFloat.eqb (ofZ z) (PrimFloat.sub len 1)
                then fromPoints (lookup "0" fields) (lookup (toString (Int z)) fields)
                else fromPoints (lookup "0" fields) VUndefined
            | _ => fromPoints (lookup "0" fields) VUndefined
            end
          else Ok []
      | _ => Ok []
      end
  | _ => Ok []
  end.

(** The body of the [try] block for one segment: the records it pushes. *)
Definition convertSegment (segment : value) : result (list TimelineObject) :=
  visit <- get segment "visit" ;;
  if truthy visit then
    r <- convertVisit segment visit ;; Ok [r]
  else
    activity <- get segment "activity" ;;
    if truthy activity then
      r <- convertActivity segment activity ;; Ok [r]
    else
      path <- get segment "timelinePath" ;;
      if truthy path then convertPath segment path else Ok [].

(** [segments.forEach((segment, index) => { try ... catch ... })] *)
Fixpoint convertSegments (filename : string) (segments : list value) (index : nat)
  (acc : list TimelineObject * list string) : list TimelineObject * list string :=
  match segments with
  | [] => acc
  | segment :: rest =>
      convertSegments filename rest (S index)
        (match convertSegment segment with
         | Ok new => (fst acc ++ new, snd acc)
         | Throw err =>
             (fst acc,
              snd acc ++ [tagged filename ("ERROR processing segment "
                                           ++ natToString index ++ ": " ++ message err)])
         end)
  end.

Definition convertNewToOld (newData : value) (filename : string)
  : result (list TimelineObject * list string) :=
  found <-
    (if isArray newData then
       Ok (Some (newData,
                 tagged filename "Detected iOS/Apple format (array of segments)"))
     else
       ss <- get newData "semanticSegments" ;;
       if truthy ss then
         Ok (Some (ss, tagged filename "Detected Android format (semanticSegments)"))
       else Ok None) ;;
  match found with
  | None =>
      Ok ([], [tagged filename
                 "ERROR: Unknown format - no array or semanticSegments found"])
  | Some (VArray segments, detected) =>
      let (timelineObjects, logs) :=
        convertSegments filename segments 0
          ([], [detected;
                tagged filename ("Processing "
                  ++ natToString (List.length segments) ++ " segments")]) in
      Ok (timelineObjects,
          logs ++ [tagged filename ("Successfully converted "
                     ++ natToString (List.length timelineObjects) ++ " objects")])
  | Some (_, _) => Throw (TypeError (NotAFunction "segments.forEach"))
  end.

End Normaliser.

(* ================================================================= *)
(** ** The batch driver: [processFiles] (lines 439-544) *)

Record Results : Type := {
  oldFormatJson : string;
  csv : list string;
  kml : list string;
  visitCount : nat;
  activityCount : nat;
  totalCount : nat;
  originalCount : nat;
  cleaningStats : CleaningStats;
  processingLogs : list string
}.

(** What the program takes from its surroundings. *)
Record Host : Type := {
  (** [JSON.parse]: the document, or the message of the [SyntaxError] *)
  JSON_parse : string -> value + string;
  (** [JSON.stringify({ timelineObjects: cleaned }, null, 2)] *)
  JSON_stringify : list TimelineObject -> string;
  (** the elements of [data.timelineObjects] at their declared type *)
  asTimelineObject : value -> TimelineObject;
  typeErrorText : typeError -> string;
  (** [new Date().toISOString()], by the number of earlier readings *)
  now : nat -> string;
  (** the text of the [i]-th [Math.random()] of a run of [cleanData] *)
  random : nat -> string;
  (** [String(n / 1e7)] *)
  divE7 : jsint -> string
}.

(** The component state [processFiles] closes over. *)
Record Options : Type := {
  removeActivities : bool;
  removeDuplicates : bool;
  splitFiles : bool
}.

Record File : Type := {
  fileName : string;
  fileText : string
}.

(** The component state [processFiles] writes. *)
Record AppState : Type := {
  error : option string;
  results : option Results;
  processing : bool
}.

Definition unrecognizedFormat (fileName : string) (keys : list string) : string :=
  "File " ++ fileName
  ++ " has unrecognized format. Expected: array (iOS), semanticSegments (Android), or timelineObjects (old format). Found keys: "
  ++ Str.join ", " keys.

(** [[...data.timelineObjects]]: the text logged as its length, and the
    elements the spread yields. *)
Definition spreadLegacy (host : Host) (timelineObjects : value)
  : result (list TimelineObject) :=
  match timelineObjects with
  | VArray items => Ok (map (asTimelineObject host) items)
  | VString s => Ok (map (fun c => asTimelineObject host (VString c)) (codePoints s))
  | _ => Throw (TypeError NotIterable)
  end.

Definition legacyLength (timelineObjects : value) : string :=
  match timelineObjects with
  | VArray items => natToString (List.length items)
  | VString s => natToString (utf16Length s)
  | _ => "undefined"
  end.

(** One round of the [for (const file of files)] loop (lines 455-486) on the
    pair [(combinedTimelineObjects, allLogs)]. *)
Definition processFile (host : Host) (file : File)
  (st : list TimelineObject * list string)
  : result (list TimelineObject * list string) :=
  let fname := fileName file in
  let combined := fst st in
  let logs0 := snd st ++ [(nl ++ "--- Processing file: " ++ fname ++ " ---")%string] in
  match JSON_parse host (fileText file) with
  | inr parseMessage =>
      Throw (Error ("Failed to parse " ++ fname ++ ": " ++ parseMessage)%string)
  | inl data =>
      let logs1 := logs0 ++ [tagged fname "Successfully parsed JSON"] in
      logs2 <-
        (match data with
         | VArray items =>
             Ok (logs1 ++ [tagged fname ("Data is an array with "
                             ++ natToString (List.length items) ++ " elements")])
         | _ =>
             if typeofObject data then
               keys <- objectKeys data ;;
               Ok (logs1 ++ [tagged fname ("Data is an object with keys: "
                               ++ Str.join ", " keys)])
             else Ok logs1
         end) ;;
      ss <- (if isArray data then Ok VUndefined else get data "semanticSegments") ;;
      if isArray data || truthy ss then
        converted <- convertNewToOld (typeErrorText host) data fname ;;
        Ok (combined ++ fst converted, logs2 ++ snd converted)
      else
        tl <- get data "timelineObjects" ;;
        if truthy tl then
          items <- spreadLegacy host tl ;;
          Ok (combined ++ items,
              logs2 ++ [tagged fname "Detected old format (timelineObjects)";
                        tagged fname ("Found " ++ legacyLength tl
                                      ++ " timeline objects")])
        else
          keys <- objectKeys data ;;
          Throw (Error (unrecognizedFormat fname keys))
  end.

(** The loop: files are read one after the other, and the first exception
    leaves it.  The first component lists the files whose text was read. *)
Fixpoint processAll (host : Host) (files : list File) (reads : list string)
  (st : list TimelineObject * list string)
  : list string * result (list TimelineObject * list string) :=
  match files with
  | [] => (reads, Ok st)
  | file :: rest =>
      match processFile host file st with
      | Ok st' => processAll host rest (reads ++ [fileName file]) st'
      | Throw e => (reads ++ [fileName file], Throw e)
      end
  end.

(** Lines 503-519: the CSV and KML texts. *)
Definition renderFiles (host : Host) (splitFilesOpt : bool)
  (cleaned : list TimelineObject) : list string * list string :=
  if splitFilesOpt && (2000 <? List.length cleaned)%nat then
    let chunks := splitIntoChunks cleaned 2000 in
    (map (convertToCSV (divE7 host)) chunks, map (convertToKML (divE7 host)) chunks)
  else
    ([convertToCSV (divE7 host) cleaned], [convertToKML (divE7 host) cleaned]).

Definition chunkLogs (splitFilesOpt : bool) (cleaned : list TimelineObject)
  : list string :=
  if splitFilesOpt && (2000 <? List.length cleaned)%nat then
    let chunks := splitIntoChunks cleaned 2000 in
    [(nl ++ "=== Splitting Files (" ++ natToString (List.length cleaned)
         ++ " records > 2000) ===")%string;
     ("Created " ++ natToString (List.length chunks) ++ " file chunks")%string]
    ++ map (fun ic => ("Chunk " ++ natToString (fst ic + 1) ++ ": "
                       ++ natToString (List.length (snd ic)) ++ " records")%string)
           (combine (seq 0 (List.length chunks)) chunks)
  else [].

(** Lines 493-536: what a run that read every file hands to [setResults]. *)
Definition buildResults (host : Host) (opts : Options)
  (combined : list TimelineObject) (allLogs : list string) : Results :=
  let (cleaned, stats) :=
    cleanData (removeActivities opts) (removeDuplicates opts) (random host) combined in
  let (csvFiles, kmlFiles) := renderFiles host (splitFiles opts) cleaned in
  {| oldFormatJson := JSON_stringify host cleaned;
     csv := csvFiles;
     kml := kmlFiles;
     visitCount := List.length (filter isPlaceVisit cleaned);
     activityCount :=
       List.length
         (filter (fun o => match activitySegment o with Some _ => true | None => false end)
                 cleaned);
     totalCount := List.length cleaned;
     originalCount := List.length combined;
     cleaningStats := stats;
     processingLogs :=
       allLogs
       ++ [(nl ++ "=== Combined " ++ natToString (List.length combined)
               ++ " total timeline objects ===")%string;
           (nl ++ "=== Data Cleaning Complete ===")%string;
           ("Removed " ++ natToString (removedActivities stats)
            ++ " activity segments")%string;
           ("Removed " ++ natToString (removedDuplicates stats)
            ++ " duplicate visits")%string;
           ("Final record count: " ++ natToString (List.length cleaned))%string]
       ++ chunkLogs (splitFiles opts) cleaned
       ++ [(nl ++ "=== Conversion Complete ===")%string;
           ("Generated " ++ natToString (List.length csvFiles) ++ " CSV file(s)")%string;
           ("Generated " ++ natToString (List.length kmlFiles) ++ " KML file(s)")%string;
           ("Processing completed at " ++ now host 1)%string] |}.

(** [processFiles]: the files read, in order, and the component state the
    run leaves. *)
Definition processFiles (host : Host) (opts : Options) (files : list File)
  (state : AppState) : list string * AppState :=
  match files with
  | [] =>
      ([], {| error := Some "Please upload at least one file";
              results := results state;
              processing := processing state |})
  | _ =>
      let start :=
        (@nil TimelineObject,
         [("=== Processing Started at " ++ now host 0 ++ " ===")%string;
          ("Total files to process: " ++ natToString (List.length files))%string]) in
      match processAll host files [] start with
      | (reads, Ok (combined, allLogs)) =>
          (reads, {| error := None;
                     results := Some (buildResults host opts combined allLogs);
                     processing := false |})
      | (reads, Throw err) =>
          (reads, {| error := Some ("Error processing files: "
                                    ++ message (typeErrorText host) err)%string;
                     results := results state;
                     processing := false |})
      end
  end.

(* ================================================================= *)
(** ** Vocabulary of the statements *)

(** *** Group maps in closed form *)

(** The operations both passes issue on their map: [Push k x] is
    [if (!m.has(k)) m.set(k, []); m.get(k).push(x)], [Reset k x] is
    [m.set(k, [x])]. *)
Inductive op : Type :=
| Push (k : string) (x : TimelineObject)
| Reset (k : string) (x : TimelineObject).

Definition opKey (o : op) : string :=
  match o with Push k _ | Reset k _ => k end.

Definition opObj (o : op) : TimelineObject :=
  match o with Push _ x | Reset _ x => x end.

Definition apply (m : JsMap.t (list TimelineObject)) (o : op)
  : JsMap.t (list TimelineObject) :=
  match o with
  | Push k x => addToGroup k x m
  | Reset k x => JsMap.set k [x] m
  end.

Definition run (ops : list op) : JsMap.t (list TimelineObject) :=
  fold_left apply ops JsMap.empty.

Definition firstKeys_step (acc : list string) (k : string) : list string :=
  if existsb (String.eqb k) acc then acc else acc ++ [k].

(** The distinct elements of [ks], each at the place of its first
    occurrence. *)
Definition firstKeys (ks : list string) : list string :=
  fold_left firstKeys_step ks [].

Definition grp_step (k : string) (g : list TimelineObject) (o : op)
  : list TimelineObject :=
  if String.eqb (opKey o) k
  then match o with Push _ x => g ++ [x] | Reset _ x => [x] end
  else g.

(** The group that a run of [ops] leaves under the key [k]. *)
Definition grp (k : string) (ops : list op) : list TimelineObject :=
  fold_left (grp_step k) ops [].

Definition tabulate {V : Type} (f : string -> V) (ks : list string) : JsMap.t V :=
  map (fun k => (k, f k)) ks.

Definition pass1_ops (cleaned : list TimelineObject) : list op :=
  flat_map (fun obj => match placeIdKey obj with
                       | Some k => [Push k obj]
                       | None => []
                       end) cleaned.

Fixpoint pass2_ops (random : nat -> string) (calls : nat)
  (records : list TimelineObject) : list op :=
  match records with
  | [] => []
  | obj :: rest =>
      match placeVisit obj with
      | None => Reset ("activity-" ++ random calls) obj :: pass2_ops random (S calls) rest
      | Some pv => Push (latLngKey (location pv)) obj :: pass2_ops random calls rest
      end
  end.

(** The keys of pass 1 and of pass 2 that the records of a list carry, in
    the order of the list. *)
Definition placeIdKeys (records : list TimelineObject) : list string :=
  flat_map (fun obj => match placeIdKey obj with
                       | Some k => [k]
                       | None => []
                       end) records.

Definition visitKeys (records : list TimelineObject) : list string :=
  flat_map (fun obj => match placeVisit obj with
                       | Some pv => [latLngKey (location pv)]
                       | None => []
                       end) records.

(** The key pass 2 gives a visit at the scaled coordinates [(lat, lng)]. *)
Definition coordKey (lat lng : jsint) : string :=
  toString lat ++ "," ++ toString lng.

(** *** The rule of preference, in the words of the specification *)

(** The first record of the group with a present, non-blank address; when
    there is none, the first record of the group. *)
Definition preferred (group : list TimelineObject) : option TimelineObject :=
  match find hasAddress group with
  | Some w => Some w
  | None => hd_error group
  end.

Definition optionList {A : Type} (x : option A) : list A :=
  match x with Some a => [a] | None => [] end.

Definition hasPlaceIdKey (k : string) (obj : TimelineObject) : bool :=
  match placeIdKey obj with
  | Some k' => String.eqb k' k
  | None => false
  end.

Definition noPlaceIdKey (obj : TimelineObject) : bool :=
  match placeIdKey obj with Some _ => false | None => true end.

Definition jsint_eqb (a b : jsint) : bool :=
  match a, b with
  | Int x, Int y => Z.eqb x y
  | NaN, NaN => true
  | Infinity s, Infinity s' => Bool.eqb s s'
  | _, _ => false
  end.

(** A visit at the scaled coordinates [(lat, lng)]. *)
Definition atCoords (lat lng : jsint) (obj : TimelineObject) : bool :=
  match placeVisit obj with
  | Some pv =>
      jsint_eqb (latitudeE7 (location pv)) lat
      && jsint_eqb (longitudeE7 (location pv)) lng
  | None => false
  end.

(** The first [n] keys pass 2 makes for records that are no visits. *)
Definition activityKeys (random : nat -> string) (n : nat) : list string :=
  map random (seq 0 n).

Definition nonVisits (records : list TimelineObject) : list TimelineObject :=
  filter (fun obj => negb (isPlaceVisit obj)) records.

(** *** The canonical record of the specification: exactly one branch *)

Definition canonical (obj : TimelineObject) : Prop :=
  match placeVisit obj, activitySegment obj with
  | Some _, None | None, Some _ => True
  | _, _ => False
  end.

(** *** A reader of CSV text whose fields are all quoted (RFC 4180) *)

Inductive csvState : Type := FieldStart | InQuoted | AfterQuote.

(** [field] and [row] are kept reversed while they grow. *)
Fixpoint readCSV_go (st : csvState) (field : string) (row : list string)
  (rows : list (list string)) (s : string) : option (list (list string)) :=
  match s with
  | EmptyString =>
      match st with
      | AfterQuote => Some (rev (rev (Str.rev field :: row) :: rows))
      | _ => None
      end
  | String c r =>
      match st with
      | FieldStart =>
          if Ascii.eqb c (ascii_of_nat 34)
          then readCSV_go InQuoted EmptyString row rows r
          else None
      | InQuoted =>
          if Ascii.eqb c (ascii_of_nat 34)
          then readCSV_go AfterQuote field row rows r
          else readCSV_go InQuoted (String c field) row rows r
      | AfterQuote =>
          if Ascii.eqb c (ascii_of_nat 34)
          then readCSV_go InQuoted (String c field) row rows r
          else if Ascii.eqb c ","
          then readCSV_go FieldStart EmptyString (Str.rev field :: row) rows r
          else if Ascii.eqb c (ascii_of_nat 10)
          then readCSV_go FieldStart EmptyString []
                 (rev (Str.rev field :: row) :: rows) r
          else None
      end
  end.

Definition readCSV (s : string) : option (list (list string)) :=
  readCSV_go FieldStart EmptyString [] [] s.

(** *** XML text *)

(** The reading of the five entities [escapeXml] writes; [skip] counts the
    bytes of an entity just read that are still to be passed over. *)
Fixpoint unescapeXml_go (skip : nat) (s : string) : string :=
  match s with
  | EmptyString => EmptyString
  | String c r =>
      match skip with
      | S k => unescapeXml_go k r
      | O =>
          if Ascii.eqb c "&" then
            if Str.startsWith r "lt;" then String "<" (unescapeXml_go 3 r)
            else if Str.startsWith r "gt;" then String ">" (unescapeXml_go 3 r)
            else if Str.startsWith r "amp;" then String "&" (unescapeXml_go 4 r)
            else if Str.startsWith r "quot;"
            then String (ascii_of_nat 34) (unescapeXml_go 5 r)
            else if Str.startsWith r "apos;" then String "'" (unescapeXml_go 5 r)
            else String c (unescapeXml_go 0 r)
          else String c (unescapeXml_go 0 r)
      end
  end.

Definition unescapeXml (s : string) : string := unescapeXml_go 0 s.

(** The characters of a text that would open or close markup or an
    attribute value. *)
Definition isMarkup (c : ascii) : bool :=
  Ascii.eqb c "<" || Ascii.eqb c ">" || Ascii.eqb c (ascii_of_nat 34)
  || Ascii.eqb c "'".

Fixpoint allChars (p : ascii -> bool) (s : string) : bool :=
  match s with
  | EmptyString => true
  | String c r => p c && allChars p r
  end.

(** [hay.includes(needle)] *)
Fixpoint contains (needle hay : string) : bool :=
  match Str.stripPrefix needle hay with
  | Some _ => true
  | None =>
      match hay with
      | EmptyString => false
      | String _ r => contains needle r
      end
  end.

(** *** The order claimed for the output of the engine *)

(** Read on positions: once a record without a usable placeId has come, no
    record with one follows, and the records without one follow each other
    as they did in the input. *)
Definition placeIdGroupsFirst (cleaned out : list TimelineObject) : Prop :=
  forall i j x y,
    (i < j)%nat ->
    nth_error out i = Some x -> nth_error out j = Some y ->
    noPlaceIdKey x = true ->
    noPlaceIdKey y = true
    /\ exists i' j', (i' < j')%nat
                     /\ nth_error cleaned i' = Some x
                     /\ nth_error cleaned j' = Some y.

(* ================================================================= *)
(** ** Sample data *)

Definition sampleDuration : Duration :=
  {| startTimestamp := Some "2024-01-01T10:00:00Z";
     endTimestamp := Some "2024-01-01T11:00:00Z" |}.

Definition sampleVisit (lat lng : Z) (pid nm addr : option string) : TimelineObject :=
  {| placeVisit := Some
       {| location :=
            {| latitudeE7 := Int lat; longitudeE7 := Int lng;
               placeId := pid; name := nm; address := addr;
               semanticType := Some "TYPE_UNKNOWN" |};
          duration := sampleDuration;
          centerLatE7 := Int lat; centerLngE7 := Int lng;
          visitConfidence := Int 90 |};
     activitySegment := None |}.

Definition sampleActivity (label : string) (lat lng : Z) : TimelineObject :=
  {| placeVisit := None;
     activitySegment := Some
       {| startLocation :=
            {| p_latitudeE7 := Some (Int lat); p_longitudeE7 := Some (Int lng);
               p_placeId := None; p_name := None; p_address := None;
               p_semanticType := None |};
          endLocation :=
            {| p_latitudeE7 := Some (Int (lat + 1000)); p_longitudeE7 := Some (Int lng);
               p_placeId := None; p_name := None; p_address := None;
               p_semanticType := None |};
          as_duration := sampleDuration;
          distance := Some 1200%float;
          activities := Some [ {| activityType := label; probability := 0.5%float |} ] |} |}.

Definition walk : TimelineObject := sampleActivity "WALKING" 400000000 (-750000000).
Definition drive : TimelineObject := sampleActivity "IN_VEHICLE" 400100000 (-750000000).

(** A visit without placeId or address, a visit with a placeId elsewhere,
    and a visit at the coordinates of the second with an address and no
    placeId. *)
Definition cornerShop : TimelineObject :=
  sampleVisit 2 2 None (Some "Corner shop") None.
Definition cafeById : TimelineObject :=
  sampleVisit 1 1 (Some "P1") None None.
Definition cafeByAddress : TimelineObject :=
  sampleVisit 1 1 None (Some "Cafe") (Some "123 Main St").

(** A source of keys that never repeats, and one that always does. *)
Definition freshKeys (i : nat) : string := "0." ++ natToString (S i).
Definition sameKey (i : nat) : string := "0.5".

Definition fishAndChips : TimelineObject :=
  sampleVisit 514000000 (-1000000) None (Some "Fish & Chips") (Some "Pier <7> & Co").

(** Decimal degrees as JavaScript prints the quotient of a scaled coordinate
    of magnitude [1e-6] and more by [1e7]: at most seven decimals, no
    trailing zero. *)
Fixpoint dropZeros (s : string) : string :=
  match s with
  | String c r => if Ascii.eqb c "0" then dropZeros r else s
  | EmptyString => s
  end.

Definition sampleDegrees (n : jsint) : string :=
  match n with
  | Int z =>
      let a := Z.abs z in
      let whole := toString (Int (a / 10000000)) in
      let decimals :=
        match toString (Int (10000000 + a mod 10000000)) with
        | String _ r => Str.rev (dropZeros (Str.rev r))
        | EmptyString => EmptyString
        end in
      (if (z <? 0)%Z then "-" else "") ++ whole
      ++ (if Str.isEmpty decimals then "" else "." ++ decimals)
  | _ => toString n
  end.

(** *** Records a file contributes *)

(** The records [convertNewToOld] makes of a list of segments. *)
Definition segmentRecords (typeErrorMessage : typeError -> string)
  (filename : string) (segments : list value) : list TimelineObject :=
  fst (convertSegments typeErrorMessage filename segments 0 ([], [])).

(** A mapping that contains the key [k], whatever the value under it. *)
Definition hasKey (k : string) (data : value) : bool :=
  match data with
  | VObject fields => existsb (fun f => String.eqb (fst f) k) fields
  | _ => false
  end.

(** A file that [processFile] takes without an exception. *)
Definition accepted (host : Host) (file : File) : Prop :=
  forall st, exists st', processFile host file st = Ok st'.

(** *** Decimal numerals *)








(** *** A sample host *)

Definition quote (s : string) : string := dq ++ s ++ dq.

(** The dialect-B file of the specification's first scenario. *)
Definition cafeSegment : value :=
  VObject
    [ ("visit",
       VObject
         [ ("topCandidate",
            VObject
              [ ("placeId", VString "P1");
                ("placeLocation",
                 VObject [ ("latLng", VString ("40.0" ++ degreeSign ++ ", -75.0" ++ degreeSign));
                           ("name", VString "Cafe") ]) ]);
           ("probability", VNumber 0.9%float) ]);
      ("startTime", VString "t0");
      ("endTime", VString "t1") ].

Definition cafeDocument : value :=
  VObject [ ("semanticSegments", VArray [cafeSegment]) ].

Definition cafeText : string :=
  "{" ++ quote "semanticSegments" ++ ":[{" ++ quote "visit" ++ ":{"
  ++ quote "topCandidate" ++ ":{" ++ quote "placeId" ++ ":" ++ quote "P1" ++ ","
  ++ quote "placeLocation" ++ ":{" ++ quote "latLng" ++ ":"
  ++ quote ("40.0" ++ degreeSign ++ ", -75.0" ++ degreeSign) ++ ","
  ++ quote "name" ++ ":" ++ quote "Cafe" ++ "}}," ++ quote "probability" ++ ":0.9},"
  ++ quote "startTime" ++ ":" ++ quote "t0" ++ "," ++ quote "endTime" ++ ":" ++ quote "t1"
  ++ "}]}".

Definition legacyText : string := "{" ++ quote "timelineObjects" ++ ":[{}]}".
Definition legacyDocument : value := VObject [ ("timelineObjects", VArray [VObject []]) ].

Definition foreignText : string := "{" ++ quote "locations" ++ ":[]}".
Definition foreignDocument : value := VObject [ ("locations", VArray []) ].

(** A mapping with a [semanticSegments] key that holds [null]. *)
Definition nullSegmentsText : string :=
  "{" ++ quote "semanticSegments" ++ ":null," ++ quote "timelineObjects" ++ ":[{}]}".
Definition nullSegmentsDocument : value :=
  VObject [ ("semanticSegments", VNull); ("timelineObjects", VArray [VObject []]) ].

Definition brokenText : string := "{ not json".

Definition sampleParse (text : string) : value + string :=
  if String.eqb text cafeText then inl cafeDocument
  else if String.eqb text legacyText then inl legacyDocument
  else if String.eqb text foreignText then inl foreignDocument
  else if String.eqb text nullSegmentsText then inl nullSegmentsDocument
  else if String.eqb text "[]" then inl (VArray [])
  else if String.eqb text "null" then inl VNull
  else inr "Unexpected token n in JSON at position 2".

Definition sampleTypeErrorText (e : typeError) : string :=
  match e with
  | ReadOfNullish p => "Cannot read properties of undefined (reading '" ++ p ++ "')"
  | NotAFunction callee => callee ++ " is not a function"
  | NotIterable => "data.timelineObjects is not iterable"
  | KeysOfNullish => "Cannot convert undefined or null to object"
  end.

(** The sample host reads every legacy element as a record with neither
    branch, and prints only the number of records for the JSON text. *)
Definition sampleHost : Host :=
  {| JSON_parse := sampleParse;
     JSON_stringify := fun cleaned =>
       ("{ timelineObjects: " ++ natToString (List.length cleaned) ++ " }")%string;
     asTimelineObject := fun _ => {| placeVisit := None; activitySegment := None |};
     typeErrorText := sampleTypeErrorText;
     now := fun n => ("2024-01-01T00:00:0" ++ natToString n ++ ".000Z")%string;
     random := freshKeys;
     divE7 := sampleDegrees |}.

Definition sampleOptions : Options :=
  {| removeActivities := true; removeDuplicates := true; splitFiles := true |}.

Definition idle : AppState :=
  {| error := None; results := None; processing := false |}.

Definition file (name text : string) : File :=
  {| fileName := name; fileText := text |}.

(** *** Texts of keys, tables and placemarks *)

(** A character of the decimal printing of an integer. *)
Definition keyChar (c : ascii) : bool := isDigit c || Ascii.eqb c "-".

(** A text without a comma. *)
Definition noComma (s : string) : bool :=
  allChars (fun c => negb (Ascii.eqb c ",")) s.

(** A cell, a row and a table as [convertToCSV] writes them. *)
Definition quoted (text : string) : string := (dq ++ doubleQuotes text ++ dq)%string.

Definition rowText (row : list string) : string := Str.join "," (map quoted row).

Definition tableText (table : list (list string)) : string :=
  Str.join nl (map rowText table).

(** The visits among the records, in their order. *)
Definition visitsOf (data : list TimelineObject) : list PlaceVisit :=
  flat_map (fun obj => optionList (placeVisit obj)) data.

(* ================================================================= *)
(** ** The downloads (lines 546-599 and the buttons of lines 956-990) *)

(** The name [downloadZip] gives the entry of index [index] among [count]
    files (lines 580-582). *)
Definition zipFileName (count : nat) (baseName extension : string) (index : nat)
  : string :=
  if (count =? 1)%nat
  then baseName ++ "." ++ extension
  else baseName ++ "_part" ++ natToString (index + 1) ++ "." ++ extension.

(** [files.forEach((content, index) => zip.file(filename, content))] on a new
    archive.  An archive is read as the map from the names of its entries to
    their contents: [zip.file(name, content)] adds the entry, or replaces the
    content of the entry of that name. *)
Definition zipFiles (files : list string) (baseName extension : string)
  : JsMap.t string :=
  fold_left
    (fun zip entry =>
       JsMap.set (zipFileName (List.length files) baseName extension (fst entry))
                 (snd entry) zip)
    (combine (seq 0 (List.length files)) files)
    JsMap.empty.

(** What a click on a download button comes to: one file handed to the
    browser; an archive handed over under the name [`${baseName}.zip`]; or
    nothing handed over and the error that the [catch] of [downloadZip] sets
    (lines 595-597). *)
Inductive download : Type :=
| OneFile (content filename type : string)
| Archive (entries : JsMap.t string) (filename : string)
| NoDownload (error : string).

(** [downloadZip] (lines 572-601).  [zipWorks] tells whether every step of
    its [try] block succeeds: the loading of the JSZip script, the calls of
    the library and [generateAsync]. *)
Definition downloadZip (zipWorks : bool) (files : list string)
  (baseName extension : string) : download :=
  if zipWorks
  then Archive (zipFiles files baseName extension) (baseName ++ ".zip")
  else NoDownload "Failed to create zip file. Please try downloading files individually.".

(** Lines 959-961 and 974-976 *)
Definition downloadCsv (zipWorks : bool) (r : Results) : download :=
  match csv r with
  | [only] => OneFile only "timeline_converted.csv" "text/csv"
  | files => downloadZip zipWorks files "timeline_converted" "csv"
  end.

Definition downloadKml (zipWorks : bool) (r : Results) : download :=
  match kml r with
  | [only] =>
      OneFile only "timeline_converted.kml" "application/vnd.google-earth.kml+xml"
  | files => downloadZip zipWorks files "timeline_converted" "kml"
  end.

(* ================================================================= *)
(** ** Vocabulary of the further statements *)

(** *** XML escaping, in the words of the claim *)

(** The five characters and the entities that stand for them. *)
Definition xmlEntities : list (ascii * string) :=
  [ ("<"%char, "&lt;"); (">"%char, "&gt;"); ("&"%char, "&amp;");
    (ascii_of_nat 34, "&quot;"); ("'"%char, "&apos;") ].

Definition xmlEscapedChar (c : ascii) : string :=
  match find (fun e => Ascii.eqb (fst e) c) xmlEntities with
  | Some e => snd e
  | None => String c EmptyString
  end.

(** A text with every one of the five characters replaced by its entity. *)
Fixpoint xmlEscaped (s : string) : string :=
  match s with
  | EmptyString => EmptyString
  | String c r => xmlEscapedChar c ++ xmlEscaped r
  end.

(** The records of a list with a placeId first, those without one after. *)
Definition placeIdsFirst (records : list TimelineObject) : list TimelineObject :=
  filter (fun obj => negb (noPlaceIdKey obj)) records ++ filter noPlaceIdKey records.

(** A record that [convertToCSV] gives a row. *)
Definition hasBranch (obj : TimelineObject) : bool :=
  match placeVisit obj, activitySegment obj with
  | None, None => false
  | _, _ => true
  end.

Definition hasActivitySegment (obj : TimelineObject) : bool :=
  match activitySegment obj with Some _ => true | None => false end.

(** The records one segment contributes: none when its conversion throws. *)
Definition segmentYield (segment : value) : list TimelineObject :=
  match convertSegment segment with
  | Ok new => new
  | Throw _ => []
  end.

(** The log lines of the segments whose conversion throws, the first segment
    having the index [index]. *)
Fixpoint segmentErrors (typeErrorMessage : typeError -> string) (filename : string)
  (index : nat) (segments : list value) : list string :=
  match segments with
  | [] => []
  | segment :: rest =>
      match convertSegment segment with
      | Ok _ => []
      | Throw err =>
          [tagged filename ("ERROR processing segment " ++ natToString index ++ ": "
                            ++ message typeErrorMessage err)]
      end ++ segmentErrors typeErrorMessage filename (S index) rest
  end.

(** What a file contributes when it is processed on its own. *)
Definition recordsOf (host : Host) (f : File) : list TimelineObject :=
  match processFile host f ([], []) with
  | Ok st => fst st
  | Throw _ => []
  end.

Definition logsOf (host : Host) (f : File) : list string :=
  match processFile host f ([], []) with
  | Ok st => snd st
  | Throw _ => []
  end.

(** The documents on which a file ends with a [TypeError] of the engine
    rather than with one of the two errors the program raises itself: the
    document [null] (line 471), a truthy [semanticSegments] that is no array
    (line 102), a truthy [timelineObjects] that cannot be spread
    (line 480). *)
Inductive malformed (host : Host) (f : File) : typeError -> Prop :=
| NullDocument :
    JSON_parse host (fileText f) = inl VNull ->
    malformed host f KeysOfNullish
| SegmentsNoArray data ss :
    JSON_parse host (fileText f) = inl data ->
    isArray data = false ->
    get data "semanticSegments" = Ok ss -> truthy ss = true -> isArray ss = false ->
    malformed host f (NotAFunction "segments.forEach")
| LegacyNotIterable data ss tl :
    JSON_parse host (fileText f) = inl data ->
    isArray data = false ->
    get data "semanticSegments" = Ok ss -> truthy ss = false ->
    get data "timelineObjects" = Ok tl -> truthy tl = true ->
    spreadLegacy host tl = Throw (TypeError NotIterable) ->
    malformed host f NotIterable.

(** A character [escapeXml] leaves as it is. *)
Definition isPlain (c : ascii) : bool :=
  negb (Ascii.eqb c "<" || Ascii.eqb c ">" || Ascii.eqb c "&"
        || Ascii.eqb c (ascii_of_nat 34) || Ascii.eqb c "'").

(** Three visits: two placeIds, and a record without one at the coordinates
    of the first. *)
Definition museumById : TimelineObject :=
  sampleVisit 3 3 (Some "P2") None None.

(** The visit of the segment of the first scenario, and the record the
    normaliser makes of it. *)
Definition cafeVisit : value :=
  VObject
    [ ("topCandidate",
       VObject
         [ ("placeId", VString "P1");
           ("placeLocation",
            VObject [ ("latLng", VString ("40.0" ++ degreeSign ++ ", -75.0" ++ degreeSign));
                      ("name", VString "Cafe") ]) ]);
      ("probability", VNumber 0.9%float) ].

Definition cafeRecord : TimelineObject :=
  {| placeVisit := Some
       {| location :=
            {| latitudeE7 := Int 400000000;
               longitudeE7 := Int (-750000000);
               placeId := Some "P1";
               name := Some "Cafe";
               address := Some "";
               semanticType := Some "TYPE_UNKNOWN" |};
          duration := {| startTimestamp := Some "t0"; endTimestamp := Some "t1" |};
          centerLatE7 := Int 400000000;
          centerLngE7 := Int (-750000000);
          visitConfidence := Int 90 |};
     activitySegment := None |}.

(** A legacy record that carries both branches. *)
Definition visitAndActivity : TimelineObject :=
  {| placeVisit := placeVisit cafeByAddress; activitySegment := activitySegment walk |}.

Definition neitherBranch : TimelineObject :=
  {| placeVisit := None; activitySegment := None |}.

(** A visit whose [latLng] is a number: [parseLatLng] has no [startsWith]
    to call on it. *)
Definition brokenSegment : value :=
  VObject
    [ ("visit",
       VObject
         [ ("topCandidate",
            VObject [ ("placeLocation", VObject [ ("latLng", VNumber 5%float) ]) ]) ]) ].

(** A visit of which nothing is known but the time. *)
Definition bareSegment : value :=
  VObject [ ("visit", VObject [ ("probability", VNumber 0.5%float) ]);
            ("startTime", VString "t0"); ("endTime", VString "t1") ].

(** *** Sample documents that end a file with a [TypeError] *)

Definition textSegmentsText : string :=
  "{" ++ quote "semanticSegments" ++ ":" ++ quote "none" ++ "}".
Definition textSegmentsDocument : value :=
  VObject [ ("semanticSegments", VString "none") ].

Definition emptyLegacyText : string := "{" ++ quote "timelineObjects" ++ ":{}}".
Definition emptyLegacyDocument : value :=
  VObject [ ("timelineObjects", VObject []) ].

Definition mixedSegmentsText : string := "[null,{}]".
Definition mixedSegmentsDocument : value := VArray [VNull; VObject []].

Definition moreParse (text : string) : value + string :=
  if String.eqb text textSegmentsText then inl textSegmentsDocument
  else if String.eqb text emptyLegacyText then inl emptyLegacyDocument
  else if String.eqb text mixedSegmentsText then inl mixedSegmentsDocument
  else sampleParse text.

Definition moreHost : Host :=
  {| JSON_parse := moreParse;
     JSON_stringify := JSON_stringify sampleHost;
     asTimelineObject := asTimelineObject sampleHost;
     typeErrorText := sampleTypeErrorText;
     now := now sampleHost;
     random := freshKeys;
     divE7 := sampleDegrees |}.

(** *** The number a numeral writes, and the floats next to it *)












(** *** Groups and the preferred record, in the words of the specification *)

(** The code points ECMAScript counts as white space or line terminator. *)
Definition whiteSpaceCodePoints : list N :=
  ([9; 10; 11; 12; 13; 32; 160; 5760; 8192; 8193; 8194; 8195; 8196; 8197;
    8198; 8199; 8200; 8201; 8202; 8232; 8233; 8239; 8287; 12288; 65279])%N.

(** The UTF-8 bytes of a code point of the basic plane. *)
Definition utf8Of (cp : N) : string :=
  if (cp <? 128)%N then String (ascii_of_N cp) EmptyString
  else if (cp <? 2048)%N
  then String (ascii_of_N (192 + cp / 64))
         (String (ascii_of_N (128 + cp mod 64)) EmptyString)
  else String (ascii_of_N (224 + cp / 4096))
         (String (ascii_of_N (128 + (cp / 64) mod 64))
            (String (ascii_of_N (128 + cp mod 64)) EmptyString)).

Definition whiteSpaceChars : list string := map utf8Of whiteSpaceCodePoints.

(** A text of white space only. *)
Inductive blankText : string -> Prop :=
| blank_nil : blankText EmptyString
| blank_cons (w s : string) :
    In w whiteSpaceChars -> blankText s -> blankText (w ++ s)%string.

Definition startsWithWhiteSpace (s : string) : Prop :=
  exists w r : string, In w whiteSpaceChars /\ s = (w ++ r)%string.

Definition endsWithWhiteSpace (s : string) : Prop :=
  exists l w : string, In w whiteSpaceChars /\ s = (l ++ w)%string.

(** [t] is [s] without the white space at its two ends. *)
Definition trimmedOf (s t : string) : Prop :=
  exists l r : string,
    s = (l ++ t ++ r)%string /\ blankText l /\ blankText r
    /\ ~ startsWithWhiteSpace t /\ ~ endsWithWhiteSpace t.

(** The placeId of a visit, trimmed, when something is left of it. *)
Definition trimmedPlaceId (obj : TimelineObject) : option string :=
  match placeVisit obj with
  | Some pv =>
      match placeId (location pv) with
      | Some s => if Str.isEmpty (Str.trim s) then None else Some (Str.trim s)
      | None => None
      end
  | None => None
  end.

(** A visit of the group of the placeId [k]. *)
Definition sharesPlaceId (k : string) (obj : TimelineObject) : bool :=
  match trimmedPlaceId obj with
  | Some k' => String.eqb k' k
  | None => false
  end.

(** A visit whose address is present and not blank. *)
Definition addressBearing (obj : TimelineObject) : bool :=
  match placeVisit obj with
  | Some pv =>
      match address (location pv) with
      | Some a => negb (Str.isEmpty (Str.trim a))
      | None => false
      end
  | None => false
  end.

(** The record to keep of a group: the first with such an address, and
    the first of all when there is none. *)
Definition chosen (group : list TimelineObject) : option TimelineObject :=
  match find addressBearing group with
  | Some w => Some w
  | None => hd_error group
  end.

(** A text that is a run of patterns of [ps]. *)
Inductive sequenceOf (ps : list string) : string -> Prop :=
| sequence_nil : sequenceOf ps EmptyString
| sequence_cons (p s : string) :
    In p ps -> sequenceOf ps s -> sequenceOf ps (p ++ s)%string.

(** The first byte of a UTF-8 character, as opposed to a byte that
    continues one. *)
Definition leadByte (c : ascii) : bool :=
  (nat_of_ascii c <? 128)%nat || (192 <=? nat_of_ascii c)%nat.

Definition wellEncoded (w : string) : bool :=
  match w with
  | EmptyString => false
  | String c rest => leadByte c && allChars (fun b => negb (leadByte b)) rest
  end.

(** Two visits of one placeId, written with white space around it; the
    address of the second is blank. *)
Definition paddedCafe : TimelineObject :=
  sampleVisit 1 1 (Some (" P1" ++ Str.utf8 [194; 160])%string) None (Some "123 Main St").
Definition blankAddressCafe : TimelineObject :=
  sampleVisit 1 1 (Some (Str.chr 9 ++ "P1")%string) None (Some "   ").

(* ================================================================= *)
(** * Properties *)

(** ** Group maps *)

Lemma existsb_eqb_In k (l : list string) : existsb (String.eqb k) l = true <-> In k l.
Proof.
  rewrite existsb_exists. split.
  - intros [x [Hin He]]. apply String.eqb_eq in He. now subst.
  - intros H. exists k. split; [assumption | apply String.eqb_refl].
Qed.

Lemma existsb_eqb_notIn k (l : list string) : existsb (String.eqb k) l = false <-> ~ In k l.
Proof.
  rewrite <- existsb_eqb_In. destruct (existsb _ l); split; congruence.
Qed.

Lemma get_tabulate {V} (f : string -> V) ks k :
  JsMap.get k (tabulate f ks) = if existsb (String.eqb k) ks then Some (f k) else None.
Proof.
  induction ks as [|a ks IH]; simpl; [reflexivity|].
  rewrite (String.eqb_sym k a).
  destruct (String.eqb a k) eqn:E; simpl.
  - apply String.eqb_eq in E. now subst.
  - exact IH.
Qed.

Lemma set_tabulate_absent {V} (f : string -> V) ks k v :
  ~ In k ks -> JsMap.set k v (tabulate f ks) = tabulate f ks ++ [(k, v)].
Proof.
  induction ks as [|a ks IH]; simpl; intros H; [reflexivity|].
  destruct (String.eqb a k) eqn:E.
  - apply String.eqb_eq in E. subst. tauto.
  - rewrite IH by tauto. reflexivity.
Qed.

Lemma set_tabulate_present {V} (f : string -> V) ks k v :
  NoDup ks -> In k ks ->
  JsMap.set k v (tabulate f ks) = tabulate (fun k' => if String.eqb k' k then v else f k') ks.
Proof.
  induction ks as [|a ks IH]; simpl; intros ND H; [tauto|].
  inversion ND as [|? ? Hn ND']; subst.
  destruct (String.eqb a k) eqn:E.
  - apply String.eqb_eq in E. subst. f_equal.
    unfold tabulate. apply map_ext_in. intros k' Hk'.
    destruct (String.eqb k' k) eqn:E'; [|reflexivity].
    apply String.eqb_eq in E'. subst. tauto.
  - f_equal. apply IH; [assumption|]. destruct H as [H|H]; [|assumption].
    subst. rewrite String.eqb_refl in E. discriminate.
Qed.

Lemma firstKeys_snoc ks k :
  firstKeys (ks ++ [k]) = if existsb (String.eqb k) (firstKeys ks) then firstKeys ks else firstKeys ks ++ [k].
Proof. unfold firstKeys. rewrite fold_left_app. reflexivity. Qed.

Lemma firstKeys_In ks k : In k (firstKeys ks) <-> In k ks.
Proof.
  induction ks as [|a ks IH] using rev_ind; [simpl; tauto|].
  rewrite firstKeys_snoc, in_app_iff. simpl.
  destruct (existsb (String.eqb a) (firstKeys ks)) eqn:E.
  - apply existsb_eqb_In in E. rewrite IH. split; [tauto|].
    intros [H|[H|[]]]; [assumption|]. subst. now apply IH.
  - rewrite in_app_iff, IH. simpl. tauto.
Qed.

Lemma firstKeys_NoDup ks : NoDup (firstKeys ks).
Proof.
  induction ks as [|a ks IH] using rev_ind; [constructor|].
  rewrite firstKeys_snoc.
  destruct (existsb (String.eqb a) (firstKeys ks)) eqn:E; [assumption|].
  apply existsb_eqb_notIn in E.
  apply NoDup_app; [assumption | repeat constructor; simpl; tauto |].
  intros x Hx [Hy|[]]. subst. tauto.
Qed.

Lemma grp_snoc k ops o : grp k (ops ++ [o]) = grp_step k (grp k ops) o.
Proof. unfold grp. rewrite fold_left_app. reflexivity. Qed.

Lemma grp_absent k ops : ~ In k (map opKey ops) -> grp k ops = [].
Proof.
  induction ops as [|o ops IH] using rev_ind; [reflexivity|].
  rewrite map_app, in_app_iff, grp_snoc. simpl. intros H.
  unfold grp_step. destruct (String.eqb (opKey o) k) eqn:E.
  - apply String.eqb_eq in E. tauto.
  - apply IH. tauto.
Qed.

Lemma run_snoc ops o : run (ops ++ [o]) = apply (run ops) o.
Proof. unfold run. rewrite fold_left_app. reflexivity. Qed.

(** The map a run of operations builds, in closed form. *)
Lemma run_tabulate ops :
  run ops = tabulate (fun k => grp k ops) (firstKeys (map opKey ops)).
Proof.
  induction ops as [|o ops IH] using rev_ind; [reflexivity|].
  rewrite run_snoc, IH, map_app. simpl (map opKey [o]). rewrite firstKeys_snoc.
  set (ks := firstKeys (map opKey ops)).
  assert (ND : NoDup ks) by apply firstKeys_NoDup.
  assert (EXT : forall k', k' <> opKey o -> grp k' (ops ++ [o]) = grp k' ops).
  { intros k' Hk'. rewrite grp_snoc. unfold grp_step.
    destruct (String.eqb (opKey o) k') eqn:E; [|reflexivity].
    apply String.eqb_eq in E. congruence. }
  assert (OLD : forall v,
    tabulate (fun k' => if String.eqb k' (opKey o) then v else grp k' ops) ks
    = tabulate (fun k' => if String.eqb k' (opKey o) then v else grp k' (ops ++ [o])) ks).
  { intros v. apply map_ext. intros k'. destruct (String.eqb k' (opKey o)) eqn:E; [reflexivity|].
    f_equal. symmetry. apply EXT. intros ->. rewrite String.eqb_refl in E. discriminate. }
  assert (NEW : forall v, grp (opKey o) (ops ++ [o]) = v ->
    tabulate (fun k' => if String.eqb k' (opKey o) then v else grp k' (ops ++ [o])) ks
    = tabulate (fun k' => grp k' (ops ++ [o])) ks).
  { intros v Hv. apply map_ext. intros k'. destruct (String.eqb k' (opKey o)) eqn:E; [|reflexivity].
    apply String.eqb_eq in E. subst k'. now rewrite Hv. }
  assert (FRESH : ~ In (opKey o) ks ->
    tabulate (fun k => grp k ops) ks = tabulate (fun k => grp k (ops ++ [o])) ks).
  { intros Hn. apply map_ext_in. intros k' Hk'. f_equal. symmetry. apply EXT. intros ->. tauto. }
  destruct (existsb (String.eqb (opKey o)) ks) eqn:E.
  - pose proof (proj1 (existsb_eqb_In _ _) E) as Hin.
    destruct o as [k x|k x]; simpl in *.
    + unfold addToGroup, JsMap.has, JsMap.push.
      rewrite get_tabulate, E. rewrite get_tabulate, E.
      rewrite set_tabulate_present by assumption.
      rewrite OLD. apply NEW. rewrite grp_snoc. unfold grp_step. simpl.
      now rewrite String.eqb_refl.
    + rewrite set_tabulate_present by assumption.
      rewrite OLD. apply NEW. rewrite grp_snoc. unfold grp_step. simpl.
      now rewrite String.eqb_refl.
  - pose proof (proj1 (existsb_eqb_notIn _ _) E) as Hn.
    assert (G0 : grp (opKey o) ops = []).
    { apply grp_absent. intros H. apply Hn. now apply firstKeys_In. }
    unfold tabulate at 2. rewrite map_app. fold (tabulate (fun k => grp k (ops ++ [o])) ks).
    rewrite <- FRESH by assumption. simpl.
    destruct o as [k x|k x]; simpl in *.
    + unfold addToGroup, JsMap.has, JsMap.push.
      rewrite get_tabulate, E.
      rewrite set_tabulate_absent by assumption.
      assert (Hg : JsMap.get k (tabulate (fun k0 => grp k0 ops) ks ++ [(k, [])]) = Some []).
      { clear -Hn. induction ks as [|a ks IH]; simpl.
        - now rewrite String.eqb_refl.
        - destruct (String.eqb a k) eqn:E'.
          + apply String.eqb_eq in E'. subst. simpl in Hn. tauto.
          + apply IH. simpl in Hn. tauto. }
      rewrite Hg.
      assert (Hs : forall v, JsMap.set k v (tabulate (fun k0 => grp k0 ops) ks ++ [(k, [])])
                   = tabulate (fun k0 => grp k0 ops) ks ++ [(k, v)]).
      { clear -Hn. intros v. induction ks as [|a ks IH]; simpl.
        - now rewrite String.eqb_refl.
        - destruct (String.eqb a k) eqn:E'.
          + apply String.eqb_eq in E'. subst. simpl in Hn. tauto.
          + f_equal. apply IH. simpl in Hn. tauto. }
      rewrite Hs. f_equal. f_equal. f_equal.
      rewrite grp_snoc. unfold grp_step. simpl. now rewrite String.eqb_refl, G0.
    + rewrite set_tabulate_absent by assumption. f_equal. f_equal. f_equal.
      rewrite grp_snoc. unfold grp_step. simpl. now rewrite String.eqb_refl.
Qed.

(** ** The two passes as runs of operations *)

Lemma pass1_fold l : forall m n,
  fold_left pass1_step l (m, n)
  = (fold_left apply (pass1_ops l) m, n ++ filter noPlaceIdKey l).
Proof.
  induction l as [|a l IH]; intros m n; simpl.
  - now rewrite app_nil_r.
  - unfold pass1_ops in *. simpl. unfold placeIdKey, noPlaceIdKey, placeIdKey.
    destruct (placeVisit a) as [pv|] eqn:Epv; simpl.
    + destruct (usablePlaceId (location pv)) as [pid|] eqn:Eid; simpl.
      * rewrite IH. reflexivity.
      * rewrite IH, <- app_assoc. reflexivity.
    + rewrite IH, <- app_assoc. reflexivity.
Qed.

Lemma pass1_run l : pass1 l = (run (pass1_ops l), filter noPlaceIdKey l).
Proof. unfold pass1. now rewrite pass1_fold. Qed.

Lemma pass2_fold random l : forall m c,
  fst (fold_left (pass2_step random) l (m, c))
  = fold_left apply (pass2_ops random c l) m.
Proof.
  induction l as [|a l IH]; intros m c; simpl; [reflexivity|].
  destruct (placeVisit a) as [pv|]; simpl; apply IH.
Qed.

Lemma pass2_run random l : pass2 random l = run (pass2_ops random 0 l).
Proof. unfold pass2. apply pass2_fold. Qed.

Lemma survivors_tabulate f ks :
  survivors (tabulate f ks) = flat_map (fun k => optionList (survivor (f k))) ks.
Proof.
  unfold survivors, JsMap.values, tabulate. rewrite map_map. simpl.
  induction ks as [|k ks IH]; simpl; [reflexivity|]. now rewrite IH.
Qed.

(** The selection the code makes is the rule of preference. *)
Lemma survivor_preferred g : survivor g = preferred g.
Proof.
  unfold survivor, preferred.
  destruct g as [|x [|y g]]; simpl; [reflexivity| |].
  - destruct (hasAddress x); reflexivity.
  - destruct (hasAddress x); [reflexivity|].
    destruct (hasAddress y); [reflexivity|].
    induction g as [|z g IH]; simpl; [reflexivity|].
    destruct (hasAddress z); [reflexivity|]. exact IH.
Qed.

Lemma preferred_In g x : preferred g = Some x -> In x g.
Proof.
  unfold preferred. destruct (find hasAddress g) eqn:E.
  - intros [= <-]. now apply find_some in E.
  - destruct g; simpl; [discriminate|]. intros [= <-]. now left.
Qed.

Lemma preferred_nonempty g : g <> [] -> exists x, preferred g = Some x.
Proof.
  unfold preferred. destruct (find hasAddress g); [eauto|].
  destruct g; [congruence|]. simpl. eauto.
Qed.

Lemma grp_fold k ops : forall g,
  (forall o, In o ops -> opKey o = k -> exists x, o = Push k x) ->
  fold_left (grp_step k) ops g
  = g ++ map opObj (filter (fun o => String.eqb (opKey o) k) ops).
Proof.
  induction ops as [|o ops IH]; intros g H; simpl.
  - now rewrite app_nil_r.
  - rewrite IH by (intros; apply H; [now right|assumption]).
    unfold grp_step. destruct (String.eqb (opKey o) k) eqn:E; [|reflexivity].
    apply String.eqb_eq in E. destruct (H o (or_introl eq_refl) E) as [x ->].
    simpl. now rewrite <- app_assoc.
Qed.

Lemma grp_In k ops x :
  In x (grp k ops) -> exists o, In o ops /\ opKey o = k /\ opObj o = x.
Proof.
  induction ops as [|o ops IH] using rev_ind; [intros []|].
  rewrite grp_snoc. unfold grp_step.
  destruct (String.eqb (opKey o) k) eqn:E.
  - apply String.eqb_eq in E. destruct o as [k' y|k' y]; simpl in *.
    + rewrite in_app_iff. intros [H|[H|[]]].
      * destruct (IH H) as [o [Ho1 Ho2]]. exists o. rewrite in_app_iff. tauto.
      * exists (Push k' y). rewrite in_app_iff. simpl. tauto.
    + intros [H|[]]. exists (Reset k' y). rewrite in_app_iff. simpl. tauto.
  - intros H. destruct (IH H) as [o' [Ho1 Ho2]]. exists o'. rewrite in_app_iff. tauto.
Qed.

Lemma pass1_ops_In l o :
  In o (pass1_ops l) -> exists x, In x l /\ placeIdKey x = Some (opKey o) /\ o = Push (opKey o) x.
Proof.
  unfold pass1_ops. rewrite in_flat_map. intros [x [Hx Ho]].
  destruct (placeIdKey x) as [k|] eqn:E; [|destruct Ho].
  destruct Ho as [<-|[]]. exists x. simpl. auto.
Qed.

Lemma grp_pass1 k l : grp k (pass1_ops l) = filter (hasPlaceIdKey k) l.
Proof.
  unfold grp. rewrite grp_fold.
  - simpl. unfold pass1_ops, hasPlaceIdKey.
    induction l as [|a l IH]; simpl; [reflexivity|].
    destruct (placeIdKey a) as [k'|]; simpl; [|exact IH].
    destruct (String.eqb k' k); simpl; now rewrite IH.
  - intros o Ho Hk. apply pass1_ops_In in Ho. destruct Ho as [x [_ [_ ->]]].
    simpl in *. subst. eauto.
Qed.

(** ** Keys: the printing of scaled coordinates *)

Lemma allChars_app p s t : allChars p (s ++ t) = allChars p s && allChars p t.
Proof.
  induction s as [|c s IH]; simpl; [reflexivity|].
  now rewrite IH, andb_assoc.
Qed.

Lemma uint_digits d : allChars isDigit (NilEmpty.string_of_uint d) = true.
Proof. induction d; simpl; try rewrite IHd; reflexivity. Qed.

Lemma int_keyChars z : allChars keyChar (NilZero.string_of_int (Z.to_int z)) = true.
Proof.
  assert (H : forall d, allChars keyChar (NilZero.string_of_uint d) = true).
  { intros d. assert (H := uint_digits d).
    assert (W : forall s, allChars isDigit s = true -> allChars keyChar s = true).
    { induction s as [|c s IH]; simpl; [reflexivity|].
      unfold keyChar at 1. intros E. apply andb_prop in E. destruct E as [E1 E2].
      now rewrite E1, IH. }
    destruct d; simpl; try reflexivity; apply W; exact H. }
  destruct z; cbn [Z.to_int NilZero.string_of_int allChars]; rewrite ?H; reflexivity.
Qed.

Lemma allChars_weaken (p q : ascii -> bool) s :
  (forall c, p c = true -> q c = true) -> allChars p s = true -> allChars q s = true.
Proof.
  intros W. induction s as [|c s IH]; simpl; [reflexivity|].
  intros E. apply andb_prop in E. destruct E as [E1 E2]. now rewrite (W _ E1), IH.
Qed.

Lemma keyChar_noComma c : keyChar c = true -> negb (Ascii.eqb c ",") = true.
Proof.
  unfold keyChar, isDigit. destruct (Ascii.eqb_spec c ","); [subst; discriminate|reflexivity].
Qed.

Lemma toString_noComma n : noComma (toString n) = true.
Proof.
  destruct n as [z| |[|]]; try reflexivity.
  unfold noComma. simpl. eapply allChars_weaken; [apply keyChar_noComma|apply int_keyChars].
Qed.

Lemma toString_inj a b : toString a = toString b -> a = b.
Proof.
  assert (NN : forall z, Z.to_int z <> Decimal.Pos Decimal.Nil /\ Z.to_int z <> Decimal.Neg Decimal.Nil).
  { intros [|p|p]; simpl; split; try discriminate; intros [= H];
      now apply Unsigned.to_uint_nonnil in H. }
  assert (RT : forall z, NilZero.int_of_string (toString (Int z)) = Some (Z.to_int z)).
  { intros z. simpl. apply NilZero.isi; apply NN. }
  destruct a as [z| |s], b as [z'| |s']; intros H; try reflexivity.
  - f_equal. apply to_int_inj. pose proof (RT z) as R. rewrite H, RT in R. congruence.
  - pose proof (RT z) as R. rewrite H in R. discriminate.
  - pose proof (RT z) as R. rewrite H in R. destruct s'; discriminate.
  - pose proof (RT z') as R. rewrite <- H in R. discriminate.
  - destruct s'; discriminate.
  - pose proof (RT z') as R. rewrite <- H in R. destruct s; discriminate.
  - destruct s; discriminate.
  - destruct s, s'; try reflexivity; discriminate.
Qed.

Lemma comma_split a b a' b' :
  noComma a = true -> noComma a' = true ->
  (a ++ "," ++ b)%string = (a' ++ "," ++ b')%string -> a = a' /\ b = b'.
Proof.
  unfold noComma.
  revert a'. induction a as [|c a IH]; intros [|c' a']; simpl; intros Ha Ha' E.
  - inversion E. auto.
  - inversion E; subst. simpl in Ha'. discriminate.
  - inversion E; subst. simpl in Ha. discriminate.
  - inversion E; subst.
    apply andb_prop in Ha. apply andb_prop in Ha'.
    destruct (IH a') as [-> ->]; tauto.
Qed.

Lemma jsint_eqb_eq a b : jsint_eqb a b = true <-> a = b.
Proof.
  destruct a as [x| |s], b as [y| |s']; simpl; split; try congruence; try discriminate.
  - intros H. apply Z.eqb_eq in H. now subst.
  - intros [= ->]. apply Z.eqb_refl.
  - intros H. apply Bool.eqb_prop in H. now subst.
  - intros [= ->]. apply Bool.eqb_reflx.
Qed.

Lemma coordKey_inj lat lng lat' lng' :
  coordKey lat lng = coordKey lat' lng' -> lat = lat' /\ lng = lng'.
Proof.
  unfold coordKey. intros H. apply comma_split in H; try apply toString_noComma.
  destruct H as [H1 H2]. split; now apply toString_inj.
Qed.

Lemma latLngKey_coordKey loc : latLngKey loc = coordKey (latitudeE7 loc) (longitudeE7 loc).
Proof. reflexivity. Qed.

(** The key of a visit is the key of [(lat, lng)] exactly when the visit is
    at these coordinates. *)
Lemma latLngKey_atCoords lat lng obj pv :
  placeVisit obj = Some pv ->
  String.eqb (latLngKey (location pv)) (coordKey lat lng) = atCoords lat lng obj.
Proof.
  intros E. unfold atCoords. rewrite E.
  destruct (String.eqb_spec (latLngKey (location pv)) (coordKey lat lng)) as [H|H].
  - rewrite latLngKey_coordKey in H. apply coordKey_inj in H. destruct H as [-> ->].
    symmetry. apply andb_true_intro. split; now apply jsint_eqb_eq.
  - symmetry. apply not_true_is_false. intros T. apply andb_prop in T.
    destruct T as [T1 T2]. apply jsint_eqb_eq in T1, T2. apply H.
    rewrite latLngKey_coordKey. now rewrite T1, T2.
Qed.

(** No coordinate key is the key of a record that is no visit. *)
Lemma coordKey_not_activity lat lng r : coordKey lat lng <> ("activity-" ++ r)%string.
Proof.
  unfold coordKey. destruct lat as [z| |[|]]; try discriminate.
  simpl. pose proof (int_keyChars z) as H.
  destruct (NilZero.string_of_int (Z.to_int z)) as [|c s] eqn:E.
  - discriminate.
  - simpl in H. apply andb_prop in H. destruct H as [H _].
    simpl. intros [= -> _]. discriminate.
Qed.

(** ** The two passes in closed form *)

Lemma pass1_keys l : map opKey (pass1_ops l) = placeIdKeys l.
Proof.
  unfold pass1_ops, placeIdKeys. induction l as [|a l IH]; simpl; [reflexivity|].
  destruct (placeIdKey a); simpl; now rewrite IH.
Qed.

(** Line 270: the sequence pass 2 starts from. *)
Lemma allRecords_closed l :
  allRecordsAfterPlaceIdDedup l
  = flat_map (fun k => optionList (preferred (filter (hasPlaceIdKey k) l)))
             (firstKeys (placeIdKeys l))
    ++ filter noPlaceIdKey l.
Proof.
  unfold allRecordsAfterPlaceIdDedup. rewrite pass1_run, run_tabulate, survivors_tabulate.
  rewrite pass1_keys. f_equal. apply flat_map_ext. intros k.
  now rewrite survivor_preferred, grp_pass1.
Qed.

Lemma dedup_closed random l :
  let ops := pass2_ops random 0 (allRecordsAfterPlaceIdDedup l) in
  dedup random l
  = flat_map (fun k => optionList (preferred (grp k ops))) (firstKeys (map opKey ops)).
Proof.
  simpl. unfold dedup. rewrite pass2_run, run_tabulate, survivors_tabulate.
  apply flat_map_ext. intros k. now rewrite survivor_preferred.
Qed.

Lemma pass2_ops_In random l : forall c o,
  In o (pass2_ops random c l) ->
  In (opObj o) l /\
  ((exists pv, placeVisit (opObj o) = Some pv /\ o = Push (latLngKey (location pv)) (opObj o))
   \/ (exists i, placeVisit (opObj o) = None /\ c <= i < c + List.length (nonVisits l)
                 /\ o = Reset ("activity-" ++ random i) (opObj o))).
Proof.
  induction l as [|a l IH]; intros c o; simpl; [intros []|].
  unfold nonVisits, isPlaceVisit. simpl.
  destruct (placeVisit a) as [pv|] eqn:E; simpl.
  - intros [<-|H].
    + simpl. split; [now left|]. left. exists pv. auto.
    + destruct (IH _ _ H) as [H1 H2]. split; [now right|]. exact H2.
  - intros [<-|H].
    + simpl. split; [now left|]. right. exists c. repeat split; auto; lia.
    + destruct (IH _ _ H) as [H1 [H2|[i [H2 [H3 H4]]]]]; (split; [now right|]).
      * now left.
      * right. exists i. unfold nonVisits, isPlaceVisit in H3. repeat split; auto; lia.
Qed.

Lemma pass2_ops_app random l1 l2 : forall c,
  pass2_ops random c (l1 ++ l2)
  = pass2_ops random c l1 ++ pass2_ops random (c + List.length (nonVisits l1)) l2.
Proof.
  induction l1 as [|a l1 IH]; intros c; simpl.
  - now rewrite Nat.add_0_r.
  - unfold nonVisits, isPlaceVisit. simpl.
    destruct (placeVisit a); simpl; rewrite IH; unfold nonVisits, isPlaceVisit.
    + reflexivity.
    + do 3 f_equal. lia.
Qed.

Lemma pass2_visit_op random c l x pv :
  In x l -> placeVisit x = Some pv ->
  In (Push (latLngKey (location pv)) x) (pass2_ops random c l).
Proof.
  revert c. induction l as [|a l IH]; intros c; simpl; [intros []|].
  intros [->|H] E.
  - rewrite E. now left.
  - destruct (placeVisit a); right; now apply IH.
Qed.

(** The group pass 2 forms under a coordinate key holds the visits at these
    coordinates, in the order pass 2 meets them; the keys of the other
    records never touch it. *)
Lemma grp_pass2_coords random lat lng l c :
  grp (coordKey lat lng) (pass2_ops random c l) = filter (atCoords lat lng) l.
Proof.
  unfold grp. rewrite grp_fold.
  - cbn [app]. revert c. induction l as [|a l IH]; intros c; [reflexivity|].
    cbn [pass2_ops]. destruct (placeVisit a) as [pv|] eqn:E; cbn [filter opKey].
    + rewrite (latLngKey_atCoords lat lng a pv E).
      destruct (atCoords lat lng a); cbn [map opObj]; now rewrite IH.
    + assert (Ha : atCoords lat lng a = false) by (unfold atCoords; now rewrite E).
      rewrite Ha.
      destruct (String.eqb_spec ("activity-" ++ random c) (coordKey lat lng)) as [H|H].
      * symmetry in H. now apply coordKey_not_activity in H.
      * apply IH.
  - intros o Ho Hk. destruct (pass2_ops_In _ _ _ _ Ho) as [_ [[pv [E Eo]]|[i [E [_ Eo]]]]];
      rewrite Eo in Hk; cbn [opKey] in Hk.
    + exists (opObj o). now rewrite <- Hk.
    + symmetry in Hk. now apply coordKey_not_activity in Hk.
Qed.

Lemma filter_all {A} (p : A -> bool) l :
  (forall x, In x l -> p x = true) -> filter p l = l.
Proof.
  induction l as [|a l IH]; simpl; intros H; [reflexivity|].
  rewrite (H a) by now left. f_equal. apply IH. intros; apply H; now right.
Qed.

Lemma filter_none {A} (p : A -> bool) l :
  (forall x, In x l -> p x = false) -> filter p l = [].
Proof.
  induction l as [|a l IH]; simpl; intros H; [reflexivity|].
  rewrite (H a) by now left. apply IH. intros; apply H; now right.
Qed.

(** Of the records a key-indexed family contributes, those that satisfy [p]
    are the contribution of one key, when [p] holds exactly of what that key
    contributes. *)
Lemma filter_flat_map_unique {A} (p : A -> bool) (F : string -> list A) ks k :
  NoDup ks -> In k ks ->
  (forall k' x, In k' ks -> In x (F k') -> (p x = true <-> k' = k)) ->
  filter p (flat_map F ks) = F k.
Proof.
  induction ks as [|a ks IH]; simpl; intros ND Hin HP; [tauto|].
  inversion ND as [|? ? Hn ND']; subst.
  rewrite filter_app.
  destruct (string_dec a k) as [->|Hne].
  - rewrite filter_all by (intros x Hx; apply (HP k x); auto).
    rewrite filter_none; [apply app_nil_r|].
    intros x Hx. apply in_flat_map in Hx. destruct Hx as [k' [Hk' Hx]].
    apply not_true_is_false. intros T. apply (HP k' x) in T; auto. subst. tauto.
  - rewrite filter_none.
    + simpl. apply IH; [assumption|tauto|]. intros k' x Hk' Hx. apply HP; auto.
    + intros x Hx. apply not_true_is_false. intros T. apply (HP a x) in T; auto.
Qed.

Lemma hasPlaceIdKey_spec k x : hasPlaceIdKey k x = true <-> placeIdKey x = Some k.
Proof.
  unfold hasPlaceIdKey. destruct (placeIdKey x) as [k'|]; [|split; discriminate].
  rewrite String.eqb_eq. split; congruence.
Qed.

Lemma placeIdKeys_In k l : In k (placeIdKeys l) <-> exists x, In x l /\ placeIdKey x = Some k.
Proof.
  unfold placeIdKeys. rewrite in_flat_map. split.
  - intros [x [Hx Hk]]. exists x. split; [assumption|].
    destruct (placeIdKey x); simpl in Hk; [|tauto]. destruct Hk as [->|[]]. reflexivity.
  - intros [x [Hx Hk]]. exists x. split; [assumption|]. rewrite Hk. now left.
Qed.

(** Pass 1 leaves one record for every group of a usable placeId: the
    preferred one. *)
Lemma pass1_one_survivor cleaned k :
  filter (hasPlaceIdKey k) cleaned <> [] ->
  exists s, preferred (filter (hasPlaceIdKey k) cleaned) = Some s
    /\ filter (hasPlaceIdKey k) (survivors (fst (pass1 cleaned))) = [s].
Proof.
  intros NE. destruct (preferred_nonempty _ NE) as [s Hs]. exists s. split; [assumption|].
  rewrite pass1_run. simpl. rewrite run_tabulate, survivors_tabulate, pass1_keys.
  rewrite (filter_flat_map_unique _ _ _ k).
  - now rewrite survivor_preferred, grp_pass1, Hs.
  - apply firstKeys_NoDup.
  - apply firstKeys_In, placeIdKeys_In.
    destruct (filter (hasPlaceIdKey k) cleaned) as [|x g] eqn:E; [congruence|].
    assert (Hx : In x (filter (hasPlaceIdKey k) cleaned)) by (rewrite E; now left).
    apply filter_In in Hx. exists x. split; [tauto|]. now apply hasPlaceIdKey_spec.
  - intros k' x _ Hx. rewrite survivor_preferred, grp_pass1 in Hx.
    destruct (preferred (filter (hasPlaceIdKey k') cleaned)) as [y|] eqn:E; [|destruct Hx].
    destruct Hx as [<-|[]]. apply preferred_In, filter_In in E. destruct E as [_ E].
    apply hasPlaceIdKey_spec in E. rewrite hasPlaceIdKey_spec, E. split; congruence.
Qed.

Lemma atCoords_visit lat lng x : atCoords lat lng x = true ->
  exists pv, placeVisit x = Some pv /\ latLngKey (location pv) = coordKey lat lng.
Proof.
  unfold atCoords. destruct (placeVisit x) as [pv|] eqn:E; [|discriminate].
  intros H. exists pv. split; [reflexivity|].
  apply andb_prop in H. destruct H as [H1 H2]. apply jsint_eqb_eq in H1, H2.
  now rewrite latLngKey_coordKey, H1, H2.
Qed.

(** Pass 2 leaves one record for every group of visits at the same scaled
    coordinates: the preferred one.  This holds whatever [Math.random]
    returns. *)
Lemma pass2_one_survivor random cleaned lat lng :
  filter (atCoords lat lng) (allRecordsAfterPlaceIdDedup cleaned) <> [] ->
  exists s,
    preferred (filter (atCoords lat lng) (allRecordsAfterPlaceIdDedup cleaned)) = Some s
    /\ filter (atCoords lat lng) (dedup random cleaned) = [s].
Proof.
  intros NE. destruct (preferred_nonempty _ NE) as [s Hs]. exists s. split; [assumption|].
  rewrite dedup_closed. cbv zeta.
  set (l2 := allRecordsAfterPlaceIdDedup cleaned) in *.
  rewrite (filter_flat_map_unique _ _ _ (coordKey lat lng)).
  - now rewrite grp_pass2_coords, Hs.
  - apply firstKeys_NoDup.
  - apply firstKeys_In. destruct (filter (atCoords lat lng) l2) as [|x g] eqn:E; [congruence|].
    assert (Hx : In x (filter (atCoords lat lng) l2)) by (rewrite E; now left).
    apply filter_In in Hx. destruct Hx as [Hx1 Hx2].
    destruct (atCoords_visit _ _ _ Hx2) as [pv [Epv Ek]].
    apply in_map_iff. exists (Push (latLngKey (location pv)) x). split; [exact Ek|].
    now apply pass2_visit_op.
  - intros k' x _ Hx.
    destruct (preferred (grp k' (pass2_ops random 0 l2))) as [y|] eqn:E; [|destruct Hx].
    destruct Hx as [<-|[]]. apply preferred_In, grp_In in E.
    destruct E as [o [Ho [Hk Hy]]].
    destruct (pass2_ops_In _ _ _ _ Ho) as [_ [[pv [Epv Eo]]|[i [Epv [_ Eo]]]]];
      rewrite Hy in *; rewrite Eo in Hk; simpl in Hk; subst k'.
    + rewrite <- (latLngKey_atCoords lat lng y pv Epv), String.eqb_eq. tauto.
    + unfold atCoords. rewrite Epv. split; [discriminate|].
      intros H. symmetry in H. now apply coordKey_not_activity in H.
Qed.

Lemma placeIdKey_visit x k : placeIdKey x = Some k -> isPlaceVisit x = true.
Proof.
  unfold placeIdKey, isPlaceVisit. destruct (placeVisit x); [reflexivity|discriminate].
Qed.

Lemma dedup_single_visit random l a :
  allRecordsAfterPlaceIdDedup l = [a] -> isPlaceVisit a = true -> dedup random l = [a].
Proof.
  intros H V. unfold dedup, pass2. rewrite H. unfold isPlaceVisit in V.
  cbn [fold_left pass2_step]. destruct (placeVisit a) as [pv|]; [|discriminate].
  cbn [fst]. unfold addToGroup, JsMap.has, JsMap.push, JsMap.empty.
  cbn [JsMap.get JsMap.set]. rewrite String.eqb_refl. reflexivity.
Qed.

(** Two records of one placeId, one of them with an address: the one with
    the address is what [cleanData] returns, in either order. *)
Lemma address_bearing_survives ra random a b k :
  placeIdKey a = Some k -> placeIdKey b = Some k ->
  hasAddress a = true -> hasAddress b = false ->
  fst (cleanData ra true random [a; b]) = [a]
  /\ fst (cleanData ra true random [b; a]) = [a].
Proof.
  intros Ka Kb Aa Ab.
  pose proof (placeIdKey_visit _ _ Ka) as Va. pose proof (placeIdKey_visit _ _ Kb) as Vb.
  assert (Hk : forall x, placeIdKey x = Some k -> hasPlaceIdKey k x = true)
    by (intros x Hx; now apply hasPlaceIdKey_spec).
  assert (Hn : forall x, placeIdKey x = Some k -> noPlaceIdKey x = false)
    by (intros x Hx; unfold noPlaceIdKey; now rewrite Hx).
  assert (FK : firstKeys [k; k] = [k]).
  { unfold firstKeys, firstKeys_step. cbn [fold_left existsb app].
    now rewrite String.eqb_refl. }
  assert (D : forall l, l = [a; b] \/ l = [b; a] -> dedup random l = [a]).
  { intros l Hl. apply dedup_single_visit; [|assumption].
    rewrite allRecords_closed.
    destruct Hl as [-> | ->]; unfold placeIdKeys; cbn [flat_map]; rewrite Ka, Kb;
      cbn [app]; rewrite FK; cbn [flat_map filter];
      rewrite (Hk a Ka), (Hk b Kb), (Hn a Ka), (Hn b Kb);
      unfold preferred; cbn [find]; rewrite Aa, ?Ab; reflexivity. }
  unfold cleanData. cbn [fst].
  destruct ra; cbn [filter]; rewrite ?Va, ?Vb; split; apply D; auto.
Qed.

(** ** The order of the output *)

Lemma firstKeys_app_split a b :
  exists rest, firstKeys (a ++ b) = firstKeys a ++ rest
               /\ forall k, In k rest -> In k b /\ ~ In k a.
Proof.
  induction b as [|x b IH] using rev_ind.
  - exists []. rewrite !app_nil_r. split; [reflexivity|intros k []].
  - destruct IH as [rest [E H]]. rewrite app_assoc, firstKeys_snoc, E.
    destruct (existsb (String.eqb x) (firstKeys a ++ rest)) eqn:X.
    + exists rest. split; [reflexivity|]. intros k Hk. destruct (H k Hk).
      rewrite in_app_iff. tauto.
    + exists (rest ++ [x]). rewrite app_assoc. split; [reflexivity|].
      apply existsb_eqb_notIn in X. rewrite in_app_iff, firstKeys_In in X.
      intros k. rewrite !in_app_iff. simpl. intros [Hk|[<-|[]]].
      * destruct (H k Hk). tauto.
      * tauto.
Qed.

Lemma survivors_pass1_keyed l x :
  In x (flat_map (fun k => optionList (preferred (filter (hasPlaceIdKey k) l)))
                 (firstKeys (placeIdKeys l))) ->
  exists k, placeIdKey x = Some k /\ preferred (filter (hasPlaceIdKey k) l) = Some x.
Proof.
  rewrite in_flat_map. intros [k [_ Hx]].
  destruct (preferred (filter (hasPlaceIdKey k) l)) as [y|] eqn:E; [|destruct Hx].
  destruct Hx as [<-|[]]. exists k. split; [|exact E].
  apply preferred_In, filter_In in E. now apply hasPlaceIdKey_spec.
Qed.

Lemma nonVisits_all_visits l :
  (forall x, In x l -> isPlaceVisit x = true) -> nonVisits l = [].
Proof.
  intros H. apply filter_none. intros x Hx. now rewrite (H x Hx).
Qed.

Lemma in_preferred_groups ops ks x :
  In x (flat_map (fun k => optionList (preferred (grp k ops))) ks) ->
  exists k o, In k ks /\ In o ops /\ opKey o = k /\ opObj o = x.
Proof.
  rewrite in_flat_map. intros [k [Hk Hx]].
  destruct (preferred (grp k ops)) as [y|] eqn:P; [|destruct Hx].
  destruct Hx as [<-|[]]. apply preferred_In, grp_In in P.
  destruct P as [o [Ho [Ko Oo]]]. exists k, o. auto.
Qed.

(** What pass 2 puts out, split at the end of the groups that a survivor of
    pass 1 opens: before it only visits, after it only records without a
    usable placeId. *)
Lemma dedup_visits_first random cleaned :
  exists front back,
    dedup random cleaned = front ++ back
    /\ Forall (fun obj => isPlaceVisit obj = true) front
    /\ Forall (fun obj => noPlaceIdKey obj = true) back.
Proof.
  rewrite dedup_closed. cbv zeta. rewrite allRecords_closed.
  set (S1 := flat_map _ (firstKeys (placeIdKeys cleaned))).
  set (N1 := filter noPlaceIdKey cleaned).
  assert (HS : forall x, In x S1 -> isPlaceVisit x = true).
  { intros x Hx. apply survivors_pass1_keyed in Hx. destruct Hx as [k [Hk _]].
    now apply placeIdKey_visit in Hk. }
  rewrite pass2_ops_app, (nonVisits_all_visits _ HS), Nat.add_0_r.
  set (opsS := pass2_ops random 0 S1). set (opsN := pass2_ops random 0 N1).
  assert (OPS : forall o, In o (opsS ++ opsN) -> In o (pass2_ops random 0 (S1 ++ N1))).
  { intros o Ho. now rewrite pass2_ops_app, (nonVisits_all_visits _ HS), Nat.add_0_r. }
  rewrite map_app.
  destruct (firstKeys_app_split (map opKey opsS) (map opKey opsN)) as [rest [E H]].
  rewrite E, flat_map_app.
  eexists; eexists; split; [reflexivity|]. split; apply Forall_forall; intros x Hx;
    apply in_preferred_groups in Hx; destruct Hx as [k [o [Hk [Ho [Ko Oo]]]]].
  - (* a key that a survivor of pass 1 carries is a coordinate key *)
    apply firstKeys_In, in_map_iff in Hk. destruct Hk as [o' [Ko' Ho']].
    destruct (pass2_ops_In _ _ _ _ Ho') as [Hin' [[pv' [_ Eo']]|[i [V' _]]]].
    2:{ apply HS in Hin'. unfold isPlaceVisit in Hin'. rewrite V' in Hin'. discriminate. }
    destruct (pass2_ops_In _ _ _ _ (OPS o Ho)) as [_ [[pv [V _]]|[i [_ [_ Eo]]]]].
    + rewrite <- Oo. unfold isPlaceVisit. now rewrite V.
    + exfalso. rewrite Eo' in Ko'. rewrite Eo in Ko. cbn [opKey] in Ko, Ko'.
      rewrite <- Ko' in Ko. rewrite latLngKey_coordKey in Ko. symmetry in Ko.
      now apply coordKey_not_activity in Ko.
  - (* a later key belongs to records that pass 1 set aside *)
    destruct (H k Hk) as [_ Hn]. apply in_app_iff in Ho. destruct Ho as [Ho|Ho].
    + exfalso. apply Hn. apply in_map_iff. eauto.
    + destruct (pass2_ops_In _ _ _ _ Ho) as [Hin _]. unfold N1 in Hin.
      apply filter_In in Hin. rewrite <- Oo. tauto.
Qed.

Lemma dedup_activity_after_placeId random cleaned i j a p k :
  nth_error (dedup random cleaned) i = Some a ->
  nth_error (dedup random cleaned) j = Some p ->
  isPlaceVisit a = false -> placeIdKey p = Some k -> j < i.
Proof.
  destruct (dedup_visits_first random cleaned) as [front [back [E [HF HB]]]].
  rewrite E. intros Ha Hp Va Kp.
  assert (Hi : List.length front <= i).
  { destruct (Nat.lt_ge_cases i (List.length front)) as [L|L]; [|exact L].
    rewrite nth_error_app1 in Ha by assumption. apply nth_error_In in Ha.
    rewrite Forall_forall in HF. rewrite (HF a Ha) in Va. discriminate. }
  assert (Hj : j < List.length front).
  { destruct (Nat.lt_ge_cases j (List.length front)) as [L|L]; [exact L|].
    rewrite nth_error_app2 in Hp by assumption. apply nth_error_In in Hp.
    rewrite Forall_forall in HB. specialize (HB p Hp). unfold noPlaceIdKey in HB.
    rewrite Kp in HB. discriminate. }
  lia.
Qed.

(** ** Records that are no visits *)

Lemma filter_flat_map {A B} (p : B -> bool) (F : A -> list B) l :
  filter p (flat_map F l) = flat_map (fun x => filter p (F x)) l.
Proof.
  induction l as [|a l IH]; simpl; [reflexivity|]. now rewrite filter_app, IH.
Qed.

Lemma flat_map_ext_in {A B} (F G : A -> list B) l :
  (forall x, In x l -> F x = G x) -> flat_map F l = flat_map G l.
Proof.
  induction l as [|a l IH]; simpl; intros H; [reflexivity|].
  rewrite (H a) by now left. f_equal. apply IH. intros; apply H; now right.
Qed.

Lemma nonVisits_app l1 l2 : nonVisits (l1 ++ l2) = nonVisits l1 ++ nonVisits l2.
Proof. apply filter_app. Qed.

Lemma nonVisits_setAside l : nonVisits (filter noPlaceIdKey l) = nonVisits l.
Proof.
  unfold nonVisits. induction l as [|a l IH]; simpl; [reflexivity|].
  unfold noPlaceIdKey at 1, placeIdKey, isPlaceVisit at 2.
  destruct (placeVisit a) as [pv|] eqn:E; simpl.
  - destruct (usablePlaceId (location pv)); simpl; unfold isPlaceVisit at 1;
      rewrite ?E; simpl; exact IH.
  - unfold isPlaceVisit at 1. rewrite E. simpl. now rewrite IH.
Qed.

Lemma nonVisits_allRecords l : nonVisits (allRecordsAfterPlaceIdDedup l) = nonVisits l.
Proof.
  rewrite allRecords_closed, nonVisits_app, nonVisits_setAside.
  rewrite nonVisits_all_visits; [reflexivity|].
  intros x Hx. apply survivors_pass1_keyed in Hx. destruct Hx as [k [Hk _]].
  now apply placeIdKey_visit in Hk.
Qed.

Lemma append_inv_head (p a b : string) : (p ++ a)%string = (p ++ b)%string -> a = b.
Proof. induction p as [|c p IH]; simpl; [auto|]. intros [= H]. auto. Qed.

Lemma activityKeys_distinct random n i j :
  NoDup (activityKeys random n) -> i < j < n -> random i <> random j.
Proof.
  unfold activityKeys. intros ND [Hij Hj] E.
  rewrite (NoDup_nth _ EmptyString) in ND.
  assert (L : List.length (map random (seq 0 n)) = n) by now rewrite length_map, length_seq.
  specialize (ND i j). rewrite L in ND.
  assert (N : forall m, m < n -> nth m (map random (seq 0 n)) EmptyString = random m).
  { intros m Hm. rewrite (nth_indep _ EmptyString (random 0)) by lia.
    rewrite map_nth, seq_nth by lia. reflexivity. }
  rewrite !N in ND by lia. specialize (ND ltac:(lia) ltac:(lia) E). lia.
Qed.

Lemma activityKeys_prefix random n m :
  m <= n -> NoDup (activityKeys random n) -> NoDup (activityKeys random m).
Proof.
  unfold activityKeys. intros L ND. replace n with (m + (n - m)) in ND by lia.
  rewrite seq_app, map_app in ND. now apply NoDup_app_remove_r in ND.
Qed.

(** What the groups of pass 2 contribute to the records that are no visits. *)
Lemma nonVisits_survivors ops :
  nonVisits (survivors (run ops))
  = flat_map (fun k => nonVisits (optionList (preferred (grp k ops))))
             (firstKeys (map opKey ops)).
Proof.
  rewrite run_tabulate, survivors_tabulate. unfold nonVisits. rewrite filter_flat_map.
  apply flat_map_ext. intros k. now rewrite survivor_preferred.
Qed.

Lemma visits_group_no_nonVisits p (l : list TimelineObject) :
  (forall x, p x = true -> isPlaceVisit x = true) ->
  nonVisits (optionList (preferred (filter p l))) = [].
Proof.
  intros H. destruct (preferred (filter p l)) as [y|] eqn:E; [|reflexivity].
  apply preferred_In, filter_In in E. destruct E as [_ E]. apply H in E.
  unfold nonVisits. simpl. now rewrite E.
Qed.

Lemma atCoords_isPlaceVisit lat lng x : atCoords lat lng x = true -> isPlaceVisit x = true.
Proof. unfold atCoords, isPlaceVisit. destruct (placeVisit x); [reflexivity|discriminate]. Qed.

(** With keys that do not collide, pass 2 keeps every record that is no
    visit, once and in order. *)
Lemma pass2_keeps_nonVisits random l :
  NoDup (activityKeys random (List.length (nonVisits l))) ->
  nonVisits (survivors (pass2 random l)) = nonVisits l.
Proof.
  rewrite pass2_run, nonVisits_survivors.
  induction l as [|a l IH] using rev_ind; intros ND; [reflexivity|].
  rewrite nonVisits_app, length_app in ND.
  assert (ND0 : NoDup (activityKeys random (List.length (nonVisits l))))
    by (eapply activityKeys_prefix; [|exact ND]; lia).
  specialize (IH ND0).
  pose proof (pass2_ops_app random l [a] 0) as OPS. cbn [Nat.add] in OPS.
  set (ops' := pass2_ops random 0 (l ++ [a])) in *.
  set (ops := pass2_ops random 0 l) in *.
  set (m := List.length (nonVisits l)) in *.
  assert (KEYS : map opKey ops' = map opKey ops ++ map opKey (pass2_ops random m [a]))
    by now rewrite OPS, map_app.
  rewrite nonVisits_app, <- IH, KEYS.
  assert (LA : nonVisits [a] = if isPlaceVisit a then [] else [a])
    by (unfold nonVisits; cbn [filter]; now destruct (isPlaceVisit a)).
  rewrite LA in *. clear LA.
  cbn [pass2_ops] in *. unfold isPlaceVisit in *.
  destruct (placeVisit a) as [pv|] eqn:V; cbn [negb map opKey app List.length] in *.
  - (* a visit: its group holds visits before and after *)
    assert (SAME : forall k, In k (firstKeys (map opKey ops)) ->
      nonVisits (optionList (preferred (grp k ops')))
      = nonVisits (optionList (preferred (grp k ops)))).
    { intros k _. destruct (string_dec k (latLngKey (location pv))) as [->|Hne].
      - rewrite latLngKey_coordKey. unfold ops', ops. rewrite !grp_pass2_coords.
        now rewrite !visits_group_no_nonVisits by (intros ?; apply atCoords_isPlaceVisit).
      - rewrite OPS, grp_snoc. unfold grp_step. cbn [opKey].
        destruct (String.eqb_spec (latLngKey (location pv)) k); [congruence|reflexivity]. }
    rewrite app_nil_r, firstKeys_snoc.
    destruct (existsb (String.eqb (latLngKey (location pv))) (firstKeys (map opKey ops))).
    + now apply flat_map_ext_in.
    + rewrite flat_map_app. cbn [flat_map].
      rewrite (latLngKey_coordKey (location pv)) at 1. unfold ops' at 2.
      rewrite grp_pass2_coords.
      rewrite visits_group_no_nonVisits by (intros ?; apply atCoords_isPlaceVisit).
      rewrite !app_nil_r. now apply flat_map_ext_in.
  - (* no visit: its key is new, and holds this record alone *)
    set (ka := ("activity-" ++ random m)%string) in *.
    assert (FRESH : ~ In ka (map opKey ops)).
    { intros Hin. apply in_map_iff in Hin. destruct Hin as [o [Ko Ho]].
      destruct (pass2_ops_In _ _ _ _ Ho) as [_ [[pv [_ Eo]]|[i [_ [Hi Eo]]]]];
        rewrite Eo in Ko; cbn [opKey] in Ko.
      - rewrite latLngKey_coordKey in Ko. now apply coordKey_not_activity in Ko.
      - apply append_inv_head in Ko. revert Ko.
        apply (activityKeys_distinct random (m + 1)); [exact ND|]. fold m in Hi. lia. }
    rewrite firstKeys_snoc.
    destruct (existsb (String.eqb ka) (firstKeys (map opKey ops))) eqn:X.
    { apply existsb_eqb_In in X. apply (proj1 (firstKeys_In _ _)) in X. contradiction. }
    rewrite flat_map_app. cbn [flat_map]. rewrite app_nil_r. f_equal.
    + apply flat_map_ext_in. intros k Hk. rewrite OPS, grp_snoc. unfold grp_step.
      cbn [opKey]. destruct (String.eqb_spec ka k) as [<-|]; [|reflexivity].
      apply (proj1 (firstKeys_In _ _)) in Hk. contradiction.
    + rewrite OPS, grp_snoc. unfold grp_step. cbn [opKey]. rewrite String.eqb_refl.
      unfold preferred. cbn [find hd_error]. destruct (hasAddress a); cbn [optionList];
        unfold nonVisits; cbn [filter]; unfold isPlaceVisit; now rewrite V.
Qed.

(** X1.  Deduplication keeps every record that is no visit, once and in
    order, as long as the keys drawn for them are pairwise distinct. *)
Lemma dedup_keeps_nonVisits random cleaned :
  NoDup (activityKeys random (List.length (nonVisits cleaned))) ->
  nonVisits (dedup random cleaned) = nonVisits cleaned.
Proof.
  intros ND. unfold dedup. rewrite pass2_keeps_nonVisits; rewrite nonVisits_allRecords.
  - reflexivity.
  - exact ND.
Qed.

(** ** A second application *)

Lemma NoDup_snoc {A} (l : list A) a : NoDup (l ++ [a]) -> NoDup l /\ ~ In a l.
Proof.
  intros H. split.
  - now apply NoDup_app_remove_r in H.
  - apply NoDup_remove_2 in H. now rewrite app_nil_r in H.
Qed.

Lemma firstKeys_NoDup_id ks : NoDup ks -> firstKeys ks = ks.
Proof.
  induction ks as [|k ks IH] using rev_ind; intros ND; [reflexivity|].
  apply NoDup_snoc in ND. destruct ND as [ND Hn].
  rewrite firstKeys_snoc, (IH ND).
  destruct (existsb (String.eqb k) ks) eqn:X; [|reflexivity].
  apply existsb_eqb_In in X. contradiction.
Qed.

Lemma grp_unique ops o :
  NoDup (map opKey ops) -> In o ops -> grp (opKey o) ops = [opObj o].
Proof.
  induction ops as [|o' ops IH] using rev_ind; intros ND Hin; [destruct Hin|].
  rewrite map_app in ND. cbn [map] in ND. apply NoDup_snoc in ND. destruct ND as [ND Hn].
  rewrite grp_snoc. unfold grp_step.
  destruct (String.eqb_spec (opKey o') (opKey o)) as [E|E].
  - assert (o = o').
    { apply in_app_iff in Hin. destruct Hin as [H|[H|[]]]; [|now symmetry].
      exfalso. apply Hn. rewrite E. now apply in_map. }
    subst o'. rewrite grp_absent by assumption. now destruct o.
  - apply IH; [assumption|]. apply in_app_iff in Hin.
    destruct Hin as [H|[H|[]]]; [assumption|]. now subst.
Qed.

Lemma flat_map_singleton {A B} (f : A -> B) l : flat_map (fun x => [f x]) l = map f l.
Proof. induction l as [|a l IH]; simpl; [reflexivity|]. now rewrite IH. Qed.

(** When no two operations share a key, every record stays. *)
Lemma survivors_run_NoDup ops :
  NoDup (map opKey ops) -> survivors (run ops) = map opObj ops.
Proof.
  intros ND. rewrite run_tabulate, survivors_tabulate, (firstKeys_NoDup_id _ ND).
  rewrite flat_map_concat_map, map_map, <- flat_map_concat_map.
  rewrite (flat_map_ext_in _ (fun o => [opObj o])).
  - apply flat_map_singleton.
  - intros o Ho. now rewrite (grp_unique _ _ ND Ho).
Qed.

Lemma NoDup_flat_map_keyed (G : string -> list string) ks :
  NoDup ks -> (forall k, In k ks -> G k = [] \/ G k = [k]) -> NoDup (flat_map G ks).
Proof.
  induction ks as [|a ks IH]; simpl; intros ND H; [constructor|].
  inversion ND as [|? ? Hn ND']; subst.
  assert (R : NoDup (flat_map G ks)) by (apply IH; auto).
  destruct (H a (or_introl eq_refl)) as [-> | ->]; simpl; [exact R|].
  constructor; [|exact R]. intros Hin. apply in_flat_map in Hin.
  destruct Hin as [k [Hk Ha]]. destruct (H k (or_intror Hk)) as [E|E]; rewrite E in Ha.
  - destruct Ha.
  - destruct Ha as [->|[]]. contradiction.
Qed.

Lemma visitKeys_flat_map {A} (F : A -> list TimelineObject) l :
  visitKeys (flat_map F l) = flat_map (fun x => visitKeys (F x)) l.
Proof.
  unfold visitKeys. induction l as [|a l IH]; simpl; [reflexivity|].
  now rewrite flat_map_app, IH.
Qed.

(** The visits deduplication puts out have pairwise distinct coordinates,
    whatever was drawn. *)
Lemma dedup_visitKeys_NoDup random cleaned : NoDup (visitKeys (dedup random cleaned)).
Proof.
  rewrite dedup_closed. cbv zeta. rewrite visitKeys_flat_map.
  apply NoDup_flat_map_keyed; [apply firstKeys_NoDup|]. intros k _.
  set (ops := pass2_ops random 0 (allRecordsAfterPlaceIdDedup cleaned)).
  destruct (preferred (grp k ops)) as [y|] eqn:P; [|now left].
  apply preferred_In, grp_In in P. destruct P as [o [Ho [Ko Oo]]].
  unfold visitKeys. cbn [optionList flat_map]. rewrite app_nil_r.
  destruct (pass2_ops_In _ _ _ _ Ho) as [_ [[pv [V Eo]]|[i [V _]]]];
    rewrite Oo in V; rewrite V; [|now left].
  right. rewrite Eo in Ko. cbn [opKey] in Ko. now rewrite Ko.
Qed.

Lemma dedup_In random cleaned x :
  In x (dedup random cleaned) -> In x (allRecordsAfterPlaceIdDedup cleaned).
Proof.
  rewrite dedup_closed. cbv zeta. intros H. apply in_preferred_groups in H.
  destruct H as [k [o [_ [Ho [_ <-]]]]]. now destruct (pass2_ops_In _ _ _ _ Ho).
Qed.

Lemma NoDup_flat_map_inj {A} (f g : A -> list string) l :
  NoDup (flat_map g l) ->
  (forall x, List.length (f x) <= 1) ->
  (forall x, In x l -> f x <> [] -> g x <> []) ->
  (forall x y k, In x l -> In y l -> In k (f x) -> In k (f y) -> x = y) ->
  NoDup (flat_map f l).
Proof.
  induction l as [|a l IH]; simpl; intros ND L1 NE INJ; [constructor|].
  apply NoDup_app.
  - specialize (L1 a). destruct (f a) as [|k [|k' r]]; simpl in L1;
      [constructor|repeat constructor; intros []|lia].
  - apply IH;
      [ now apply NoDup_app_remove_l in ND
      | exact L1
      | intros x Hx; apply NE; now right
      | intros x y k Hx Hy; apply INJ; now right ].
  - intros k Hk Hk'. apply in_flat_map in Hk'. destruct Hk' as [y [Hy Hky]].
    assert (a = y) by (apply (INJ a y k); auto). subst y.
    assert (G : g a <> []).
    { apply NE; [now left|]. intros E. rewrite E in Hk. destruct Hk. }
    destruct (g a) as [|k0 r] eqn:E; [congruence|].
    simpl in ND. inversion ND as [|? ? Hn _]; subst. apply Hn.
    rewrite in_app_iff. right. apply in_flat_map. exists a. split; [assumption|].
    rewrite E. now left.
Qed.

(** ... and pairwise distinct usable placeIds. *)
Lemma dedup_placeIdKeys_NoDup random cleaned : NoDup (placeIdKeys (dedup random cleaned)).
Proof.
  unfold placeIdKeys.
  apply (NoDup_flat_map_inj _
           (fun obj => match placeVisit obj with
                       | Some pv => [latLngKey (location pv)]
                       | None => []
                       end)).
  - apply dedup_visitKeys_NoDup.
  - intros x. destruct (placeIdKey x); simpl; lia.
  - intros x _. unfold placeIdKey. destruct (placeVisit x); [discriminate|congruence].
  - intros x y k Hx Hy Kx Ky.
    assert (S : forall z, In z (dedup random cleaned) -> In k
              (match placeIdKey z with Some k0 => [k0] | None => [] end) ->
              preferred (filter (hasPlaceIdKey k) cleaned) = Some z).
    { intros z Hz Kz. apply dedup_In in Hz. rewrite allRecords_closed in Hz.
      destruct (placeIdKey z) as [kz|] eqn:E; [|destruct Kz].
      destruct Kz as [->|[]]. apply in_app_iff in Hz. destruct Hz as [Hz|Hz].
      - apply survivors_pass1_keyed in Hz. destruct Hz as [k' [E' P]]. congruence.
      - apply filter_In in Hz. destruct Hz as [_ Hz]. unfold noPlaceIdKey in Hz.
        rewrite E in Hz. discriminate. }
    pose proof (S x Hx Kx) as Px. pose proof (S y Hy Ky) as Py. congruence.
Qed.

Lemma pass1_ops_objs l :
  map opObj (pass1_ops l) = filter (fun obj => negb (noPlaceIdKey obj)) l.
Proof.
  unfold pass1_ops, noPlaceIdKey. induction l as [|a l IH]; simpl; [reflexivity|].
  destruct (placeIdKey a); simpl; now rewrite IH.
Qed.

Lemma pass2_ops_objs random l : forall c, map opObj (pass2_ops random c l) = l.
Proof.
  induction l as [|a l IH]; intros c; simpl; [reflexivity|].
  destruct (placeVisit a); simpl; now rewrite IH.
Qed.

Lemma pass2_keys_NoDup random l : forall c,
  NoDup (visitKeys l) ->
  NoDup (map random (seq c (List.length (nonVisits l)))) ->
  NoDup (map opKey (pass2_ops random c l)).
Proof.
  induction l as [|a l IH]; intros c NV NR; [constructor|].
  unfold visitKeys in NV. unfold nonVisits, isPlaceVisit in NR.
  cbn [flat_map filter pass2_ops] in *.
  destruct (placeVisit a) as [pv|] eqn:V; cbn [negb map opKey app List.length seq] in *.
  - inversion NV as [|? ? Hn NV']; subst. constructor; [|now apply IH].
    intros Hin. apply in_map_iff in Hin. destruct Hin as [o [Ko Ho]].
    destruct (pass2_ops_In _ _ _ _ Ho) as [Hin [[pv' [V' Eo]]|[i [_ [_ Eo]]]]];
      rewrite Eo in Ko; cbn [opKey] in Ko.
    + apply Hn. apply in_flat_map. exists (opObj o). split; [assumption|].
      rewrite V'. now left.
    + rewrite latLngKey_coordKey in Ko. symmetry in Ko. now apply coordKey_not_activity in Ko.
  - inversion NR as [|? ? Hn NR']; subst. constructor; [|now apply IH].
    intros Hin. apply in_map_iff in Hin. destruct Hin as [o [Ko Ho]].
    destruct (pass2_ops_In _ _ _ _ Ho) as [_ [[pv' [_ Eo]]|[i [_ [Hi Eo]]]]];
      rewrite Eo in Ko; cbn [opKey] in Ko.
    + rewrite latLngKey_coordKey in Ko. now apply coordKey_not_activity in Ko.
    + apply append_inv_head in Ko. apply Hn. rewrite <- Ko. apply in_map.
      apply in_seq. unfold nonVisits, isPlaceVisit in Hi. lia.
Qed.

Lemma visitKeys_app l1 l2 : visitKeys (l1 ++ l2) = visitKeys l1 ++ visitKeys l2.
Proof. apply flat_map_app. Qed.

Lemma visitKeys_partition p l :
  Permutation (visitKeys (filter (fun x => negb (p x)) l ++ filter p l)) (visitKeys l).
Proof.
  rewrite visitKeys_app. induction l as [|a l IH]; simpl; [constructor|].
  change (visitKeys (a :: l)) with (visitKeys [a] ++ visitKeys l).
  destruct (p a); simpl.
  - change (visitKeys (a :: filter p l)) with (visitKeys [a] ++ visitKeys (filter p l)).
    rewrite Permutation_app_swap_app. now apply Permutation_app_head.
  - change (visitKeys (a :: filter (fun x => negb (p x)) l))
      with (visitKeys [a] ++ visitKeys (filter (fun x => negb (p x)) l)).
    rewrite <- app_assoc. now apply Permutation_app_head.
Qed.

(** A second application, with keys that do not collide, only moves the
    records with a usable placeId to the front. *)
Lemma dedup_twice random1 random2 cleaned :
  NoDup (activityKeys random2 (List.length (nonVisits (dedup random1 cleaned)))) ->
  dedup random2 (dedup random1 cleaned)
  = filter (fun obj => negb (noPlaceIdKey obj)) (dedup random1 cleaned)
    ++ filter noPlaceIdKey (dedup random1 cleaned).
Proof.
  set (out1 := dedup random1 cleaned). intros ND.
  assert (A : allRecordsAfterPlaceIdDedup out1
              = filter (fun obj => negb (noPlaceIdKey obj)) out1 ++ filter noPlaceIdKey out1).
  { unfold allRecordsAfterPlaceIdDedup. rewrite pass1_run. f_equal.
    rewrite survivors_run_NoDup, pass1_ops_objs; [reflexivity|].
    rewrite pass1_keys. apply dedup_placeIdKeys_NoDup. }
  unfold dedup at 1. rewrite A, pass2_run.
  rewrite survivors_run_NoDup; [apply pass2_ops_objs|].
  apply pass2_keys_NoDup.
  - eapply Permutation_NoDup; [symmetry; apply visitKeys_partition|].
    apply dedup_visitKeys_NoDup.
  - rewrite nonVisits_app, nonVisits_setAside.
    rewrite nonVisits_all_visits; [exact ND|].
    intros x Hx. apply filter_In in Hx. destruct Hx as [_ Hx].
    unfold noPlaceIdKey in Hx. destruct (placeIdKey x) eqn:E; [|discriminate].
    eapply placeIdKey_visit; eauto.
Qed.

(** X2.  Deduplication is idempotent in its count, as long as the keys drawn
    in the second application are pairwise distinct. *)
Lemma dedup_idempotent_count random1 random2 cleaned :
  NoDup (activityKeys random2 (List.length (nonVisits (dedup random1 cleaned)))) ->
  List.length (dedup random2 (dedup random1 cleaned))
  = List.length (dedup random1 cleaned).
Proof.
  intros ND. rewrite (dedup_twice _ _ _ ND), length_app, Nat.add_comm.
  apply filter_length.
Qed.

(** ** The claims on deduplication *)

(** C10 (as amended).  The sequence handed to pass 2 holds the survivor of
    every placeId group, in the order in which the placeIds first occur,
    followed by the records without a usable placeId in their original
    order.  The output holds one record for every group of pass 2, in the
    order in which the keys of the groups first occur in that sequence; it
    splits into visits only, followed by records without a usable placeId
    only, so that no record that is no visit comes before a visit with a
    placeId. *)
Theorem dedup_output_order :
  (forall cleaned,
     allRecordsAfterPlaceIdDedup cleaned
     = flat_map (fun k => optionList (preferred (filter (hasPlaceIdKey k) cleaned)))
                (firstKeys (placeIdKeys cleaned))
       ++ filter noPlaceIdKey cleaned)
  /\ (forall random cleaned,
        let ops := pass2_ops random 0 (allRecordsAfterPlaceIdDedup cleaned) in
        dedup random cleaned
        = flat_map (fun k => optionList (preferred (grp k ops)))
                   (firstKeys (map opKey ops)))
  /\ (forall random cleaned,
        exists front back,
          dedup random cleaned = front ++ back
          /\ Forall (fun obj => isPlaceVisit obj = true) front
          /\ Forall (fun obj => noPlaceIdKey obj = true) back)
  /\ (forall random cleaned i j a p k,
        nth_error (dedup random cleaned) i = Some a ->
        nth_error (dedup random cleaned) j = Some p ->
        isPlaceVisit a = false -> placeIdKey p = Some k -> j < i).
Proof.
  split; [|split; [|split]].
  - apply allRecords_closed.
  - apply dedup_closed.
  - apply dedup_visits_first.
  - apply dedup_activity_after_placeId.
Qed.

(** The order of the output at [[walk; cafeById; drive]]: the visit first. *)
Lemma dedup_output_order_witness :
  nth_error (dedup freshKeys [walk; cafeById; drive]) 1 = Some walk
  /\ nth_error (dedup freshKeys [walk; cafeById; drive]) 0 = Some cafeById
  /\ 0 < 1.
Proof.
  split; [reflexivity|]. split; [reflexivity|].
  exact (proj2 (proj2 (proj2 dedup_output_order))
           freshKeys [walk; cafeById; drive] 1 0 walk cafeById "P1"
           eq_refl eq_refl eq_refl eq_refl).
Defined.

(** C10 as stated fails: of two records without a placeId the later one
    comes out first when its address wins the group of their coordinates
    against the survivor of a placeId group, which itself is dropped. *)
Lemma dedup_output_order_counterexample :
  dedup sameKey [cornerShop; cafeById; cafeByAddress] = [cafeByAddress; cornerShop]
  /\ ~ placeIdGroupsFirst [cornerShop; cafeById; cafeByAddress]
         (dedup sameKey [cornerShop; cafeById; cafeByAddress]).
Proof.
  split; [reflexivity|]. intros H.
  destruct (H 0 1 cafeByAddress cornerShop ltac:(lia) eq_refl eq_refl eq_refl)
    as [_ [i' [j' [L [Hi Hj]]]]].
  destruct j' as [|[|[|j']]]; cbn in Hj; try discriminate; try lia.
  destruct j'; discriminate.
Qed.

(** C5 at two records that draw the same key: the second [set] replaces the
    group of the first, and the first record is gone. *)
Theorem colliding_keys_drop_a_record :
  nonVisits [walk; drive] = [walk; drive]
  /\ dedup sameKey [walk; drive] = [drive]
  /\ fst (cleanData false true sameKey [walk; drive]) = [drive].
Proof. repeat split; reflexivity. Qed.

(** C6 at the same records: a first application that drew distinct keys
    keeps both, a second one that draws the same key twice removes one. *)
Theorem colliding_keys_break_idempotence :
  List.length (dedup freshKeys [walk; drive]) = 2
  /\ List.length (dedup sameKey (dedup freshKeys [walk; drive])) = 1.
Proof. split; reflexivity. Qed.

(** X1 at two activities around a visit, with distinct draws. *)
Lemma dedup_keeps_nonVisits_witness :
  nonVisits (dedup freshKeys [walk; cafeById; drive]) = nonVisits [walk; cafeById; drive].
Proof.
  apply (dedup_keeps_nonVisits freshKeys [walk; cafeById; drive]).
  repeat constructor; cbn; intuition discriminate.
Defined.

(** X2 at a first application whose draws collided and a second one whose
    draws are distinct. *)
Lemma dedup_idempotent_count_witness :
  List.length (dedup freshKeys (dedup sameKey [walk; cafeById; cafeByAddress; drive]))
  = List.length (dedup sameKey [walk; cafeById; cafeByAddress; drive]).
Proof.
  apply (dedup_idempotent_count sameKey freshKeys [walk; cafeById; cafeByAddress; drive]).
  repeat constructor; cbn; intuition discriminate.
Defined.

(* ================================================================= *)
(** ** Chunks *)

Section Chunks.

Context {A : Type}.
Variable data : list A.
Variable chunkSize : nat.
Hypothesis chunkSize_pos : 0 < chunkSize.

Lemma chunkLoop_concat fuel : forall i,
  List.length data - i <= fuel ->
  List.concat (chunkLoop fuel data chunkSize i) = skipn i data.
Proof.
  induction fuel as [|fuel IH]; intros i Hf; cbn [chunkLoop].
  - symmetry. apply skipn_all2. lia.
  - destruct (Nat.ltb_spec i (List.length data)) as [L|L].
    + cbn [List.concat]. rewrite IH by lia. unfold slice.
      replace (i + chunkSize - i) with chunkSize by lia.
      rewrite Nat.add_comm, <- skipn_skipn. apply firstn_skipn.
    + symmetry. apply skipn_all2. lia.
Qed.

Lemma slice_length i :
  List.length (slice data i (i + chunkSize)) = Nat.min chunkSize (List.length data - i).
Proof.
  unfold slice. rewrite length_firstn, length_skipn. f_equal. lia.
Qed.

Lemma chunkLoop_bounded fuel : forall i,
  Forall (fun c => 0 < List.length c <= chunkSize) (chunkLoop fuel data chunkSize i).
Proof.
  induction fuel as [|fuel IH]; intros i; cbn [chunkLoop]; [constructor|].
  destruct (Nat.ltb_spec i (List.length data)) as [L|L]; [|constructor].
  constructor; [|apply IH]. rewrite slice_length. lia.
Qed.

Lemma chunkLoop_full fuel : forall i init last,
  chunkLoop fuel data chunkSize i = init ++ [last] ->
  Forall (fun c => List.length c = chunkSize) init.
Proof.
  induction fuel as [|fuel IH]; intros i init last; cbn [chunkLoop].
  - intros H. now apply app_cons_not_nil in H.
  - destruct (Nat.ltb_spec i (List.length data)) as [L|L].
    2:{ intros H. now apply app_cons_not_nil in H. }
    destruct init as [|c init]; [constructor|].
    cbn [app]. intros [= <- H]. constructor; [|now apply (IH _ _ _ H)].
    rewrite slice_length.
    destruct fuel as [|fuel]; cbn [chunkLoop] in H.
    { now apply app_cons_not_nil in H. }
    destruct (Nat.ltb_spec (i + chunkSize) (List.length data)) as [L'|L'].
    + lia.
    + now apply app_cons_not_nil in H.
Qed.

Lemma chunkLoop_lengths fuel : forall i,
  List.length data - i <= fuel -> i < List.length data ->
  map (@List.length A) (chunkLoop fuel data chunkSize i)
  = Nat.min chunkSize (List.length data - i)
    :: map (@List.length A) (chunkLoop (fuel - 1) data chunkSize (i + chunkSize)).
Proof.
  intros i Hf L. destruct fuel as [|fuel]; [lia|]. cbn [chunkLoop].
  destruct (Nat.ltb_spec i (List.length data)) as [_|]; [|lia].
  cbn [map]. rewrite slice_length. now replace (S fuel - 1) with fuel by lia.
Qed.

End Chunks.

(** Splitting is lossless and keeps the order; no chunk is empty or longer
    than the chunk size, and only the last may be shorter. *)
Lemma splitIntoChunks_spec {A} (data : list A) chunkSize :
  0 < chunkSize ->
  List.concat (splitIntoChunks data chunkSize) = data
  /\ Forall (fun c => 0 < List.length c <= chunkSize) (splitIntoChunks data chunkSize)
  /\ (forall init last, splitIntoChunks data chunkSize = init ++ [last] ->
        Forall (fun c => List.length c = chunkSize) init).
Proof.
  intros P. unfold splitIntoChunks. split; [|split].
  - rewrite chunkLoop_concat by (assumption || lia). reflexivity.
  - now apply chunkLoop_bounded.
  - intros init last. now apply chunkLoop_full.
Qed.

Lemma split_4500 {A} (data : list A) :
  List.length data = 4500 ->
  map (@List.length A) (splitIntoChunks data 2000) = [2000; 2000; 500].
Proof.
  intros H. unfold splitIntoChunks.
  rewrite chunkLoop_lengths by lia.
  rewrite chunkLoop_lengths by lia.
  rewrite chunkLoop_lengths by lia.
  rewrite H.
  replace (Nat.min 2000 (4500 - 0)) with 2000 by lia.
  replace (Nat.min 2000 (4500 - (0 + 2000))) with 2000 by lia.
  replace (Nat.min 2000 (4500 - (0 + 2000 + 2000))) with 500 by lia.
  do 3 f_equal.
  destruct (4500 - 1 - 1 - 1) eqn:E; [reflexivity|]. cbn [chunkLoop].
  destruct (Nat.ltb_spec (0 + 2000 + 2000 + 2000) (List.length data)); [lia|reflexivity].
Qed.

(** C4.  [splitIntoChunks] with the size 2000 is lossless and keeps the
    order, no chunk has more than 2000 records and every chunk but the last
    has exactly 2000; 4500 records make chunks of 2000, 2000 and 500; the
    chunks are rendered only when [splitFiles] is set and there are more than
    2000 records, and one CSV and one KML text are made otherwise. *)
Theorem chunking_lossless_and_bounded :
  (forall (data : list TimelineObject),
     List.concat (splitIntoChunks data 2000) = data
     /\ Forall (fun c => List.length c <= 2000) (splitIntoChunks data 2000)
     /\ (forall init last, splitIntoChunks data 2000 = init ++ [last] ->
           Forall (fun c => List.length c = 2000) init))
  /\ (forall (data : list TimelineObject),
        List.length data = 4500 ->
        map (@List.length TimelineObject) (splitIntoChunks data 2000) = [2000; 2000; 500])
  /\ (forall host cleaned,
        2000 < List.length cleaned ->
        renderFiles host true cleaned
        = (map (convertToCSV (divE7 host)) (splitIntoChunks cleaned 2000),
           map (convertToKML (divE7 host)) (splitIntoChunks cleaned 2000)))
  /\ (forall host splitFilesOpt cleaned,
        splitFilesOpt = false \/ List.length cleaned <= 2000 ->
        renderFiles host splitFilesOpt cleaned
        = ([convertToCSV (divE7 host) cleaned], [convertToKML (divE7 host) cleaned])).
Proof.
  split; [|split; [|split]].
  - intros data. destruct (splitIntoChunks_spec data 2000 ltac:(lia)) as [H1 [H2 H3]].
    split; [exact H1|]. split; [|exact H3].
    eapply Forall_impl; [|exact H2]. cbv beta. intros c Hc. lia.
  - intros data. apply split_4500.
  - intros host cleaned L. unfold renderFiles.
    apply Nat.ltb_lt in L. now rewrite L.
  - intros host s cleaned [-> | L]; unfold renderFiles; [reflexivity|].
    apply Nat.ltb_ge in L. rewrite L. now rewrite andb_false_r.
Qed.

(* ================================================================= *)
(** ** CSV *)

Lemma append_assoc (a b c : string) : ((a ++ b) ++ c)%string = (a ++ (b ++ c))%string.
Proof. induction a as [|x a IH]; simpl; [reflexivity|]. now rewrite IH. Qed.

Lemma rev_onto_app s : forall acc t,
  Str.rev_onto (s ++ t)%string acc = Str.rev_onto t (Str.rev_onto s acc).
Proof. induction s as [|c s IH]; intros acc t; simpl; [reflexivity|]. apply IH. Qed.

Lemma rev_onto_spec s : forall acc,
  Str.rev_onto s acc = (Str.rev s ++ acc)%string.
Proof.
  unfold Str.rev. induction s as [|c s IH]; intros acc; simpl; [reflexivity|].
  rewrite IH, (IH (String c EmptyString)), append_assoc. reflexivity.
Qed.

Lemma rev_involutive s : Str.rev (Str.rev s) = s.
Proof.
  induction s as [|c s IH]; [reflexivity|].
  change (Str.rev (String c s)) with (Str.rev_onto s (String c EmptyString)).
  rewrite rev_onto_spec. unfold Str.rev at 1. rewrite rev_onto_app.
  cbn [Str.rev_onto]. fold (Str.rev (Str.rev s)). now rewrite IH.
Qed.

Lemma read_quoted_body text : forall field row rows rest,
  readCSV_go InQuoted field row rows (doubleQuotes text ++ dq ++ rest)%string
  = readCSV_go AfterQuote (Str.rev_onto text field) row rows rest.
Proof.
  induction text as [|c text IH]; intros field row rows rest.
  - reflexivity.
  - cbn [doubleQuotes Str.rev_onto].
    destruct (Ascii.eqb c (ascii_of_nat 34)) eqn:E.
    + cbn [append readCSV_go]. rewrite E. apply IH.
    + cbn [append readCSV_go]. rewrite E. apply IH.
Qed.

Lemma read_quoted text field row rows rest :
  readCSV_go FieldStart field row rows (quoted text ++ rest)%string
  = readCSV_go AfterQuote (Str.rev text) row rows rest.
Proof.
  unfold quoted. rewrite !append_assoc. cbn [dq Str.chr append readCSV_go].
  rewrite Ascii.eqb_refl. apply (read_quoted_body text EmptyString).
Qed.

Lemma after_comma field row rows rest :
  readCSV_go AfterQuote field row rows ("," ++ rest)%string
  = readCSV_go FieldStart EmptyString (Str.rev field :: row) rows rest.
Proof. reflexivity. Qed.

Lemma after_newline field row rows rest :
  readCSV_go AfterQuote field row rows (nl ++ rest)%string
  = readCSV_go FieldStart EmptyString [] (rev (Str.rev field :: row) :: rows) rest.
Proof. reflexivity. Qed.

Lemma join_cons sep x y l :
  Str.join sep (x :: y :: l) = (x ++ sep ++ Str.join sep (y :: l))%string.
Proof. reflexivity. Qed.

Lemma read_row cells : forall field row rows rest,
  cells <> [] ->
  readCSV_go FieldStart field row rows (rowText cells ++ rest)%string
  = readCSV_go AfterQuote (Str.rev (last cells EmptyString))
      (rev (removelast cells) ++ row) rows rest.
Proof.
  induction cells as [|c cells IH]; intros field row rows rest NE; [congruence|].
  destruct cells as [|c' cells].
  - unfold rowText. cbn [map Str.join last removelast rev app]. apply read_quoted.
  - unfold rowText in *. cbn [map]. rewrite join_cons.
    rewrite !append_assoc, read_quoted, after_comma, rev_involutive.
    cbn [map] in IH. rewrite (IH EmptyString (c :: row) rows rest) by discriminate.
    change (last (c :: c' :: cells) EmptyString) with (last (c' :: cells) EmptyString).
    change (removelast (c :: c' :: cells)) with (c :: removelast (c' :: cells)).
    cbn [rev]. now rewrite <- app_assoc.
Qed.

(** Reading back the text of a table gives the table. *)
Lemma read_table table : forall rows,
  table <> [] -> Forall (fun row => row <> []) table ->
  readCSV_go FieldStart EmptyString [] rows (tableText table)
  = Some (rev rows ++ table).
Proof.
  induction table as [|r table IH]; intros rows NE F; [congruence|].
  inversion F as [|? ? Hr F']; subst.
  assert (R : rev (Str.rev (Str.rev (last r EmptyString)) :: rev (removelast r) ++ []) = r).
  { rewrite rev_involutive, app_nil_r. cbn [rev]. rewrite List.rev_involutive.
    symmetry. now apply app_removelast_last. }
  destruct table as [|r' table].
  - unfold tableText. cbn [map Str.join].
    replace (rowText r) with (rowText r ++ EmptyString)%string
      by (clear; induction (rowText r); simpl; congruence).
    rewrite read_row by assumption. cbn [readCSV_go]. rewrite R. reflexivity.
  - unfold tableText in *. cbn [map]. rewrite join_cons.
    rewrite read_row, after_newline, R by assumption.
    cbn [map] in IH. rewrite (IH (r :: rows)) by (assumption || discriminate).
    cbn [rev]. now rewrite <- app_assoc.
Qed.

Lemma recordRows_cells obj : Forall (fun row => List.length row = 8) (recordRows obj).
Proof.
  unfold recordRows. destruct (placeVisit obj); [repeat constructor|].
  destruct (activitySegment obj); repeat constructor.
Qed.

Lemma csvRows_cells data : Forall (fun row => List.length row = 8) (csvRows data).
Proof.
  unfold csvRows. constructor; [reflexivity|].
  induction data as [|a data IH]; simpl; [constructor|].
  apply Forall_app. split; [apply recordRows_cells|exact IH].
Qed.

Lemma canonical_one_row obj : canonical obj -> List.length (recordRows obj) = 1.
Proof.
  unfold canonical, recordRows.
  destruct (placeVisit obj), (activitySegment obj); simpl; tauto.
Qed.

Lemma csvRows_length data :
  Forall canonical data -> List.length (csvRows data) = List.length data + 1.
Proof.
  unfold csvRows. cbn [List.length]. intros F. rewrite Nat.add_1_r. f_equal.
  induction F as [|a data Ha F IH]; simpl; [reflexivity|].
  now rewrite length_app, canonical_one_row, IH.
Qed.

Lemma convertToCSV_tableText q data :
  convertToCSV q data = tableText (map (map (cellText q)) (csvRows data)).
Proof.
  unfold convertToCSV, tableText, rowText. rewrite map_map. f_equal.
  apply map_ext. intros row. now rewrite map_map.
Qed.

(** C9.  For [N] canonical records the CSV text is the header row and one
    row for each record, joined by line feeds: read back as CSV it has
    [N + 1] rows of eight cells, the first being the header; every cell is
    written between double quotes with the double quotes inside it doubled. *)
Theorem csv_has_header_and_one_row_per_record
  (quotientToString : jsint -> string) (data : list TimelineObject) :
  Forall canonical data ->
  exists table,
    table = map (map (cellText quotientToString)) (csvRows data)
    /\ convertToCSV quotientToString data
       = Str.join nl
           (map (fun row =>
                   Str.join "," (map (fun text => dq ++ doubleQuotes text ++ dq)%string row))
                table)
    /\ readCSV (convertToCSV quotientToString data) = Some table
    /\ List.length table = List.length data + 1
    /\ hd_error table
       = Some ["Type"; "Name"; "Address"; "Latitude"; "Longitude"; "Start Time";
               "End Time"; "PlaceId"]
    /\ Forall (fun row => List.length row = 8) table.
Proof.
  intros C. eexists. split; [reflexivity|].
  split; [apply convertToCSV_tableText|].
  split; [|split; [|split]].
  - rewrite convertToCSV_tableText. unfold readCSV. rewrite read_table; [reflexivity| |].
    + unfold csvRows. discriminate.
    + apply Forall_map. eapply Forall_impl; [|apply csvRows_cells].
      cbv beta. intros row H E. apply (f_equal (@List.length _)) in E.
      rewrite length_map in E. rewrite H in E. discriminate.
  - rewrite length_map. now apply csvRows_length.
  - reflexivity.
  - apply Forall_map. eapply Forall_impl; [|apply csvRows_cells].
    cbv beta. intros row H. now rewrite length_map.
Qed.

(* ================================================================= *)
(** ** KML *)

Lemma append_empty_r (s : string) : (s ++ EmptyString)%string = s.
Proof. induction s as [|c s IH]; simpl; congruence. Qed.

Lemma convertToKML_fold q data : forall acc,
  fold_left (fun kml obj => match placeVisit obj with
                            | Some pv => (kml ++ placemark q pv)%string
                            | None => kml
                            end) data acc
  = (acc ++ String.concat EmptyString (map (placemark q) (visitsOf data)))%string.
Proof.
  unfold visitsOf. induction data as [|a data IH]; intros acc; cbn [fold_left flat_map map].
  - cbn. now rewrite append_empty_r.
  - rewrite IH. destruct (placeVisit a) as [pv|]; cbn [optionList app map]; [|reflexivity].
    rewrite append_assoc. f_equal.
    destruct (map (placemark q) (flat_map (fun obj => optionList (placeVisit obj)) data)) eqn:E.
    + cbn. now rewrite append_empty_r.
    + reflexivity.
Qed.

(** The KML text: the header, one placemark for each visit, the footer. *)
Lemma convertToKML_placemarks q data :
  convertToKML q data
  = (kmlHeader ++ String.concat EmptyString (map (placemark q) (visitsOf data))
     ++ kmlFooter)%string.
Proof. unfold convertToKML. now rewrite convertToKML_fold, append_assoc. Qed.

Lemma escapeChar_no_markup c : allChars (fun x => negb (isMarkup x)) (escapeChar c) = true.
Proof.
  unfold escapeChar, isMarkup.
  destruct (Ascii.eqb c "<") eqn:E1; [reflexivity|].
  destruct (Ascii.eqb c ">") eqn:E2; [reflexivity|].
  destruct (Ascii.eqb c "&") eqn:E3; [reflexivity|].
  destruct (Ascii.eqb c (ascii_of_nat 34)) eqn:E4; [reflexivity|].
  destruct (Ascii.eqb c "'") eqn:E5; [reflexivity|].
  cbn [allChars]. now rewrite E1, E2, E4, E5.
Qed.

(** What [escapeXml] writes holds none of [<], [>], the double quote and the
    apostrophe. *)
Lemma escapeXml_no_markup s : allChars (fun x => negb (isMarkup x)) (escapeXml s) = true.
Proof.
  induction s as [|c s IH]; [reflexivity|]. cbn [escapeXml].
  now rewrite allChars_app, escapeChar_no_markup, IH.
Qed.

(** ... and reads back as the text it was given: every ampersand it writes
    opens one of the five entities. *)
Lemma unescapeXml_escapeXml s : unescapeXml (escapeXml s) = s.
Proof.
  unfold unescapeXml. induction s as [|c s IH]; [reflexivity|].
  cbn [escapeXml]. unfold escapeChar.
  destruct (Ascii.eqb_spec c "<") as [->|N1]; [cbn; now rewrite IH|].
  destruct (Ascii.eqb_spec c ">") as [->|N2]; [cbn; now rewrite IH|].
  destruct (Ascii.eqb_spec c "&") as [->|N3]; [cbn; now rewrite IH|].
  destruct (Ascii.eqb_spec c (ascii_of_nat 34)) as [->|N4]; [cbn; now rewrite IH|].
  destruct (Ascii.eqb_spec c "'") as [->|N5]; [cbn; now rewrite IH|].
  cbn [append unescapeXml_go].
  destruct (Ascii.eqb_spec c "&"); [contradiction|]. now rewrite IH.
Qed.

Lemma escapeXml_xmlEscaped s : escapeXml s = xmlEscaped s.
Proof.
  induction s as [|c s IH]; [reflexivity|]. cbn [escapeXml xmlEscaped]. rewrite IH.
  f_equal. unfold escapeChar, xmlEscapedChar, xmlEntities. cbn [find fst snd].
  rewrite !(Ascii.eqb_sym c).
  repeat match goal with |- context [if ?b then _ else _] => destruct b; [reflexivity|] end.
  reflexivity.
Qed.

Lemma placemark_text q pv :
  placemark q pv
  = ("    <Placemark>" ++ nl ++
     "      <name>" ++ xmlEscaped (orString (name (location pv)) "Unknown Location")
     ++ "</name>" ++ nl ++
     "      <description><![CDATA[" ++ orString (address (location pv)) "" ++ nl ++
     "Start: " ++ stringOf (startTimestamp (duration pv)) ++ nl ++
     "End: " ++ stringOf (endTimestamp (duration pv)) ++ "]]></description>" ++ nl ++
     "      <styleUrl>#visit</styleUrl>" ++ nl ++
     "      <Point>" ++ nl ++
     "        <coordinates>" ++ q (longitudeE7 (location pv)) ++ ","
     ++ q (latitudeE7 (location pv)) ++ ",0</coordinates>" ++ nl ++
     "      </Point>" ++ nl ++
     "    </Placemark>" ++ nl)%string.
Proof.
  unfold placemark, placemarkName, placemarkDescription.
  rewrite escapeXml_xmlEscaped, !append_assoc. reflexivity.
Qed.

(** C2 (as amended).  The KML text is the header, one placemark for each
    visit and the footer.  In the text of a placemark the name, or
    [Unknown Location] when the record has none, stands with each of the five
    characters replaced by its entity: what is written holds no [<], [>],
    double quote or apostrophe, and reads back as the name.  The description
    is not escaped: the address and the two stamps stand as they are inside
    one CDATA section. *)
Theorem kml_name_escaped_description_in_cdata :
  (forall quotientToString data,
     convertToKML quotientToString data
     = (kmlHeader
        ++ String.concat EmptyString
             (map (fun pv =>
                     "    <Placemark>" ++ nl ++
                     "      <name>"
                     ++ xmlEscaped (orString (name (location pv)) "Unknown Location")
                     ++ "</name>" ++ nl ++
                     "      <description><![CDATA["
                     ++ orString (address (location pv)) "" ++ nl ++
                     "Start: " ++ stringOf (startTimestamp (duration pv)) ++ nl ++
                     "End: " ++ stringOf (endTimestamp (duration pv))
                     ++ "]]></description>" ++ nl ++
                     "      <styleUrl>#visit</styleUrl>" ++ nl ++
                     "      <Point>" ++ nl ++
                     "        <coordinates>"
                     ++ quotientToString (longitudeE7 (location pv)) ++ ","
                     ++ quotientToString (latitudeE7 (location pv))
                     ++ ",0</coordinates>" ++ nl ++
                     "      </Point>" ++ nl ++
                     "    </Placemark>" ++ nl)
                  (visitsOf data))
        ++ kmlFooter)%string)
  /\ (forall s, escapeXml s = xmlEscaped s)
  /\ xmlEscaped ("<>&" ++ dq ++ "'") = "&lt;&gt;&amp;&quot;&apos;"
  /\ (forall s, allChars (fun c => negb (isMarkup c)) (xmlEscaped s) = true)
  /\ (forall s, unescapeXml (xmlEscaped s) = s).
Proof.
  split; [|split; [|split; [|split]]].
  - intros q data. rewrite convertToKML_placemarks. do 3 f_equal.
    apply map_ext. intros pv. apply placemark_text.
  - apply escapeXml_xmlEscaped.
  - reflexivity.
  - intros s. rewrite <- escapeXml_xmlEscaped. apply escapeXml_no_markup.
  - intros s. rewrite <- escapeXml_xmlEscaped. apply unescapeXml_escapeXml.
Qed.

(** C2 as stated fails on the description: an address with [<], [>] and [&]
    is written as it is, where the name of the same record is escaped. *)
Lemma kml_description_counterexample :
  contains "<name>Fish &amp; Chips</name>" (convertToKML sampleDegrees [fishAndChips]) = true
  /\ contains "<description><![CDATA[Pier <7> & Co"
       (convertToKML sampleDegrees [fishAndChips]) = true
  /\ contains "Pier &lt;7&gt; &amp; Co" (convertToKML sampleDegrees [fishAndChips]) = false.
Proof. repeat split; vm_compute; reflexivity. Qed.

(** C9 at a visit and an activity segment: three rows. *)
Lemma csv_has_header_and_one_row_per_record_witness :
  exists table,
    table = map (map (cellText sampleDegrees)) (csvRows [cafeByAddress; walk])
    /\ convertToCSV sampleDegrees [cafeByAddress; walk]
       = Str.join nl
           (map (fun row =>
                   Str.join "," (map (fun text => dq ++ doubleQuotes text ++ dq)%string row))
                table)
    /\ readCSV (convertToCSV sampleDegrees [cafeByAddress; walk]) = Some table
    /\ List.length table = 2 + 1
    /\ hd_error table
       = Some ["Type"; "Name"; "Address"; "Latitude"; "Longitude"; "Start Time";
               "End Time"; "PlaceId"]
    /\ Forall (fun row => List.length row = 8) table.
Proof.
  apply (csv_has_header_and_one_row_per_record sampleDegrees [cafeByAddress; walk]).
  repeat constructor.
Defined.

(** C4 at 4500 records. *)
Lemma chunking_lossless_and_bounded_witness :
  map (@List.length TimelineObject) (splitIntoChunks (repeat walk 4500) 2000)
  = [2000; 2000; 500].
Proof.
  apply (proj1 (proj2 chunking_lossless_and_bounded) (repeat walk 4500)).
  apply repeat_length.
Defined.

(* ================================================================= *)
(** ** The batch driver *)

Section Driver.

Variable host : Host.

Let te := typeErrorText host.

Lemma convertSegments_records filename segments : forall index acc,
  fst (convertSegments te filename segments index acc)
  = fst acc ++ flat_map (fun segment => match convertSegment segment with
                                        | Ok new => new
                                        | Throw _ => []
                                        end) segments.
Proof.
  induction segments as [|s segments IH]; intros index acc; cbn [convertSegments flat_map].
  - now rewrite app_nil_r.
  - rewrite IH. destruct (convertSegment s); cbn [fst].
    + now rewrite app_assoc.
    + reflexivity.
Qed.

Lemma segmentRecords_closed filename segments :
  segmentRecords te filename segments
  = flat_map (fun segment => match convertSegment segment with
                             | Ok new => new
                             | Throw _ => []
                             end) segments.
Proof. unfold segmentRecords. now rewrite convertSegments_records. Qed.

Lemma convertSegments_logs filename segments : forall index acc l,
  In l (snd acc) -> In l (snd (convertSegments te filename segments index acc)).
Proof.
  induction segments as [|s segments IH]; intros index acc l H; cbn [convertSegments].
  - exact H.
  - apply IH. destruct (convertSegment s); cbn [snd]; [exact H|].
    apply in_app_iff. now left.
Qed.

(** What [convertNewToOld] makes of a list of segments, under either tag. *)
Lemma convertNewToOld_segments filename segments detected :
  let run := convertSegments te filename segments 0
               ([], [detected;
                     tagged filename ("Processing "
                       ++ natToString (List.length segments) ++ " segments")%string]) in
  exists logs,
    (let (timelineObjects, logs0) := run in
     Ok (timelineObjects,
         logs0 ++ [tagged filename ("Successfully converted "
                     ++ natToString (List.length timelineObjects) ++ " objects")%string]))
    = Ok (segmentRecords te filename segments, logs)
    /\ In detected logs.
Proof.
  cbv zeta.
  pose proof (convertSegments_records filename segments 0
                ([], [detected; tagged filename ("Processing "
                       ++ natToString (List.length segments) ++ " segments")%string])) as R.
  pose proof (convertSegments_logs filename segments 0
                ([], [detected; tagged filename ("Processing "
                       ++ natToString (List.length segments) ++ " segments")%string])
                detected (or_introl eq_refl)) as L.
  destruct (convertSegments te filename segments 0 _) as [tos logs0].
  cbn [fst snd app] in R, L. eexists. split.
  - rewrite segmentRecords_closed, <- R. reflexivity.
  - apply in_app_iff. now left.
Qed.

Lemma in_app_r_logs (l : string) (a b : list string) : In l b -> In l (a ++ b).
Proof. intros H. apply in_app_iff. now right. Qed.

(** A document that is no array and whose [semanticSegments] and
    [timelineObjects] are both falsy ends the file with the
    unrecognized-format error. *)
Lemma processFile_unrecognized (f : File) (st : list TimelineObject * list string)
  (data ss tl : value) (keys : list string) :
  JSON_parse host (fileText f) = inl data ->
  isArray data = false ->
  get data "semanticSegments" = Ok ss -> truthy ss = false ->
  get data "timelineObjects" = Ok tl -> truthy tl = false ->
  objectKeys data = Ok keys ->
  processFile host f st = Throw (Error (unrecognizedFormat (fileName f) keys)).
Proof.
  intros P A Hss T1 Htl T2 Hk. unfold processFile. rewrite P.
  rewrite Hk. rewrite A, Hss.
  destruct data; try discriminate; cbn [typeofObject bind orb];
    rewrite T1, Htl; cbn [bind]; rewrite T2; cbn [objectKeys bind] in *;
    try rewrite Hk; cbn [bind]; congruence.
Qed.

(** The four ways of a parsed document other than [null], by the truthiness
    of [semanticSegments] and of [timelineObjects]. *)
Lemma processFile_by_truthiness (f : File) (st : list TimelineObject * list string)
  (data : value) :
  JSON_parse host (fileText f) = inl data ->
  data <> VNull -> data <> VUndefined ->
  exists ss tl keys,
    get data "semanticSegments" = Ok ss
    /\ get data "timelineObjects" = Ok tl
    /\ objectKeys data = Ok keys
    /\ (forall segments,
          data = VArray segments ->
          exists logs,
            processFile host f st
            = Ok (fst st ++ segmentRecords te (fileName f) segments, logs)
            /\ In (tagged (fileName f) "Detected iOS/Apple format (array of segments)") logs)
    /\ (isArray data = false -> truthy ss = true ->
        forall segments,
          ss = VArray segments ->
          exists logs,
            processFile host f st
            = Ok (fst st ++ segmentRecords te (fileName f) segments, logs)
            /\ In (tagged (fileName f) "Detected Android format (semanticSegments)") logs)
    /\ (isArray data = false -> truthy ss = false -> truthy tl = true ->
        forall items,
          spreadLegacy host tl = Ok items ->
          exists logs,
            processFile host f st = Ok (fst st ++ items, logs)
            /\ In (tagged (fileName f) "Detected old format (timelineObjects)") logs)
    /\ (isArray data = false -> truthy ss = false -> truthy tl = false ->
        processFile host f st = Throw (Error (unrecognizedFormat (fileName f) keys)))
    /\ unrecognizedFormat (fileName f) keys
       = ("File " ++ fileName f
          ++ " has unrecognized format. Expected: array (iOS), semanticSegments (Android), or timelineObjects (old format). Found keys: "
          ++ Str.join ", " keys)%string.
Proof.
  intros P N1 N2.
  assert (G : forall k, exists v, get data k = Ok v)
    by (intros k; destruct data; cbn [get]; eauto; congruence).
  assert (K : exists keys, objectKeys data = Ok keys)
    by (destruct data; cbn [objectKeys]; eauto; congruence).
  destruct (G "semanticSegments") as [ss Hss]. destruct (G "timelineObjects") as [tl Htl].
  destruct K as [keys Hk]. exists ss, tl, keys.
  split; [exact Hss|]. split; [exact Htl|]. split; [exact Hk|].
  split; [|split; [|split; [|split; [|reflexivity]]]].
  - intros segments ->. unfold processFile. rewrite P. cbn [bind isArray orb].
    destruct (convertNewToOld_segments (fileName f) segments
                (tagged (fileName f) "Detected iOS/Apple format (array of segments)"))
      as [logs [E L]].
    unfold convertNewToOld. cbn [isArray bind]. fold te. cbv zeta in E. rewrite E.
    cbn [bind fst snd]. eexists. split; [reflexivity|]. now apply in_app_r_logs.
  - intros A T segments ->. unfold processFile. rewrite P.
    assert (L2 : exists logs2,
      match data with
      | VArray items =>
          Ok (((snd st ++ [(nl ++ "--- Processing file: " ++ fileName f ++ " ---")%string])
               ++ [tagged (fileName f) "Successfully parsed JSON"])
              ++ [tagged (fileName f) ("Data is an array with "
                    ++ natToString (List.length items) ++ " elements")%string])
      | _ =>
          if typeofObject data
          then keys0 <- objectKeys data ;;
               Ok (((snd st ++ [(nl ++ "--- Processing file: " ++ fileName f ++ " ---")%string])
                    ++ [tagged (fileName f) "Successfully parsed JSON"])
                   ++ [tagged (fileName f) ("Data is an object with keys: "
                         ++ Str.join ", " keys0)%string])
          else Ok ((snd st ++ [(nl ++ "--- Processing file: " ++ fileName f ++ " ---")%string])
                   ++ [tagged (fileName f) "Successfully parsed JSON"])
      end = Ok logs2).
    { rewrite Hk. destruct data; cbn; eauto. }
    destruct L2 as [logs2 ->]. cbn [bind]. rewrite A, Hss. cbn [bind orb]. rewrite T.
    destruct (convertNewToOld_segments (fileName f) segments
                (tagged (fileName f) "Detected Android format (semanticSegments)"))
      as [logs [E L]].
    unfold convertNewToOld. rewrite A, Hss. cbn [bind]. rewrite T. cbn [bind]. fold te.
    cbv zeta in E. rewrite E. cbn [bind fst snd]. eexists. split; [reflexivity|].
    now apply in_app_r_logs.
  - intros A T1 T2 items S. unfold processFile. rewrite P.
    rewrite Hk. rewrite A, Hss.
    destruct data; try discriminate; try congruence; cbn [typeofObject bind orb];
      rewrite T1, Htl; cbn [bind]; rewrite T2, S; cbn [bind fst snd];
      (eexists; split; [reflexivity|]; apply in_app_r_logs; now left).
  - intros A T1 T2. now apply (processFile_unrecognized f st data ss tl keys).
Qed.

End Driver.

Lemma segments_no_array_throws host f data ss st :
  JSON_parse host (fileText f) = inl data ->
  isArray data = false ->
  get data "semanticSegments" = Ok ss -> truthy ss = true -> isArray ss = false ->
  processFile host f st = Throw (TypeError (NotAFunction "segments.forEach")).
Proof.
  intros P A Hss T NA. unfold processFile. rewrite P.
  assert (K : exists keys, objectKeys data = Ok keys)
    by (destruct data; cbn in Hss |- *; eauto; discriminate).
  destruct K as [keys K]. rewrite K, A, Hss. cbn [orb].
  assert (C : convertNewToOld (typeErrorText host) data (fileName f)
              = Throw (TypeError (NotAFunction "segments.forEach"))).
  { unfold convertNewToOld. rewrite A, Hss. cbn [bind]. rewrite T. cbn [bind].
    destruct ss; try reflexivity; discriminate. }
  destruct data; try discriminate; cbn [typeofObject bind]; rewrite T, C; reflexivity.
Qed.

Lemma legacy_not_iterable_throws host f data ss tl st :
  JSON_parse host (fileText f) = inl data ->
  isArray data = false ->
  get data "semanticSegments" = Ok ss -> truthy ss = false ->
  get data "timelineObjects" = Ok tl -> truthy tl = true ->
  isArray tl = false -> (forall s, tl <> VString s) ->
  processFile host f st = Throw (TypeError NotIterable).
Proof.
  intros P A Hss Tss Htl Ttl NA NS. unfold processFile. rewrite P.
  assert (K : exists keys, objectKeys data = Ok keys)
    by (destruct data; cbn in Hss |- *; eauto; discriminate).
  destruct K as [keys K]. rewrite K, A, Hss. cbn [orb].
  assert (S : spreadLegacy host tl = Throw (TypeError NotIterable)).
  { destruct tl; try reflexivity; [now destruct (NS s)|discriminate]. }
  destruct data; try discriminate; cbn [typeofObject bind];
    rewrite Tss, Htl; cbn [bind]; rewrite Ttl, S; reflexivity.
Qed.

(** C3 (as amended).  The document [null] ends the file with the
    [TypeError] of [Object.keys].  An array is converted as dialect A.
    Otherwise the tests are on values, not on the presence of keys: when
    [semanticSegments] is truthy the document is converted as dialect B if
    that value is an array, and the file ends with a [TypeError] if it is
    not; else when [timelineObjects] is truthy the document is taken as
    legacy, its elements passed through if that value is an array, its
    characters if it is a string, and the file ends with a [TypeError] if
    it is neither; else the file fails with the unrecognized-format error,
    whose message names the file and lists the keys of the document. *)
Theorem format_detection_by_truthiness host (f : File)
  (st : list TimelineObject * list string) (data : value) :
  JSON_parse host (fileText f) = inl data ->
  (data = VNull -> processFile host f st = Throw (TypeError KeysOfNullish))
  /\ (forall segments,
        data = VArray segments ->
        exists logs,
          processFile host f st
          = Ok (fst st ++ segmentRecords (typeErrorText host) (fileName f) segments, logs)
          /\ In (tagged (fileName f) "Detected iOS/Apple format (array of segments)") logs)
  /\ (data <> VNull -> data <> VUndefined -> isArray data = false ->
      exists ss tl keys,
        get data "semanticSegments" = Ok ss
        /\ get data "timelineObjects" = Ok tl
        /\ objectKeys data = Ok keys
        /\ (truthy ss = true ->
            (forall segments,
               ss = VArray segments ->
               exists logs,
                 processFile host f st
                 = Ok (fst st ++ segmentRecords (typeErrorText host) (fileName f) segments,
                       logs)
                 /\ In (tagged (fileName f) "Detected Android format (semanticSegments)") logs)
            /\ (isArray ss = false ->
                processFile host f st
                = Throw (TypeError (NotAFunction "segments.forEach"))))
        /\ (truthy ss = false -> truthy tl = true ->
            (forall items,
               tl = VArray items ->
               exists logs,
                 processFile host f st
                 = Ok (fst st ++ map (asTimelineObject host) items, logs)
                 /\ In (tagged (fileName f) "Detected old format (timelineObjects)") logs)
            /\ (forall s,
                  tl = VString s ->
                  exists logs,
                    processFile host f st
                    = Ok (fst st ++ map (fun c => asTimelineObject host (VString c))
                                        (codePoints s), logs)
                    /\ In (tagged (fileName f) "Detected old format (timelineObjects)") logs)
            /\ (isArray tl = false -> (forall s, tl <> VString s) ->
                processFile host f st = Throw (TypeError NotIterable)))
        /\ (truthy ss = false -> truthy tl = false ->
            processFile host f st
            = Throw (Error ("File " ++ fileName f
                            ++ " has unrecognized format. Expected: array (iOS), semanticSegments (Android), or timelineObjects (old format). Found keys: "
                            ++ Str.join ", " keys)%string))).
Proof.
  intros P. split; [|split].
  - intros ->. unfold processFile. rewrite P. reflexivity.
  - intros segments ->.
    destruct (processFile_by_truthiness host f st (VArray segments) P
                ltac:(discriminate) ltac:(discriminate))
      as [ss [tl [keys [_ [_ [_ [A _]]]]]]].
    exact (A segments eq_refl).
  - intros N1 N2 NA.
    destruct (processFile_by_truthiness host f st data P N1 N2)
      as [ss [tl [keys [Hss [Htl [Hk [_ [B [L [U _]]]]]]]]]].
    exists ss, tl, keys. split; [exact Hss|]. split; [exact Htl|]. split; [exact Hk|].
    split; [|split].
    + intros T. split.
      * intros segments E. exact (B NA T segments E).
      * intros NS. now apply (segments_no_array_throws host f data ss).
    + intros Tss Ttl. split; [|split].
      * intros items ->. exact (L NA Tss Ttl _ eq_refl).
      * intros s ->. exact (L NA Tss Ttl _ eq_refl).
      * intros NAt NS. now apply (legacy_not_iterable_throws host f data ss tl).
    + intros Tss Ttl. exact (U NA Tss Ttl).
Qed.

(** C3 at the dialect-B file of the first scenario and at a file whose
    [timelineObjects] is an empty mapping. *)
Lemma format_detection_by_truthiness_witness :
  (exists logs,
     processFile sampleHost (file "c.json" cafeText) ([], [])
     = Ok ([] ++ segmentRecords sampleTypeErrorText "c.json" [cafeSegment], logs)
     /\ In "[c.json] Detected Android format (semanticSegments)" logs)
  /\ processFile moreHost (file "e.json" emptyLegacyText) ([], [])
     = Throw (TypeError NotIterable).
Proof.
  split.
  - destruct (proj2 (proj2 (format_detection_by_truthiness sampleHost
                              (file "c.json" cafeText) ([], []) cafeDocument eq_refl))
                ltac:(discriminate) ltac:(discriminate) eq_refl)
      as [ss [tl [keys [Hss [_ [_ [B _]]]]]]].
    injection Hss as <-. exact (proj1 (B eq_refl) [cafeSegment] eq_refl).
  - destruct (proj2 (proj2 (format_detection_by_truthiness moreHost
                              (file "e.json" emptyLegacyText) ([], [])
                              emptyLegacyDocument eq_refl))
                ltac:(discriminate) ltac:(discriminate) eq_refl)
      as [ss [tl [keys [Hss [Htl [_ [_ [L _]]]]]]]].
    injection Hss as <-. injection Htl as <-.
    apply (proj2 (proj2 (L eq_refl eq_refl))); [reflexivity|discriminate].
Defined.

(** C3 as stated fails: a mapping that contains the key [semanticSegments]
    with the value [null] is not converted as dialect B; it goes on to the
    test of [timelineObjects] and is passed through as the legacy dialect. *)
Lemma format_detection_counterexample :
  JSON_parse sampleHost nullSegmentsText = inl nullSegmentsDocument
  /\ hasKey "semanticSegments" nullSegmentsDocument = true
  /\ processFile sampleHost (file "a.json" nullSegmentsText) ([], [])
     = Ok ([ {| placeVisit := None; activitySegment := None |} ],
           [ (nl ++ "--- Processing file: a.json ---")%string;
             "[a.json] Successfully parsed JSON";
             "[a.json] Data is an object with keys: semanticSegments, timelineObjects";
             "[a.json] Detected old format (timelineObjects)";
             "[a.json] Found 1 timeline objects" ]).
Proof. repeat split; vm_compute; reflexivity. Qed.

(** The document [null] is a slip of its own: [Object.keys(null)] throws
    before any test of the format, and the message names no file. *)
Lemma null_document_is_a_type_error :
  processFile sampleHost (file "n.json" "null") ([], []) = Throw (TypeError KeysOfNullish)
  /\ error (snd (processFiles sampleHost sampleOptions [file "n.json" "null"] idle))
     = Some "Error processing files: Cannot convert undefined or null to object".
Proof. split; vm_compute; reflexivity. Qed.

(** ** The first fatal error ends the batch *)

Lemma processAll_stops host before : forall f after reads st e,
  Forall (accepted host) before ->
  (forall st', processFile host f st' = Throw e) ->
  processAll host (before ++ f :: after) reads st
  = (reads ++ map fileName before ++ [fileName f], Throw e).
Proof.
  induction before as [|b before IH]; intros f after reads st e A T.
  - cbn [app processAll map]. now rewrite T.
  - inversion A as [|? ? Hb A']; subst. cbn [app processAll map].
    destruct (Hb st) as [st' ->]. rewrite (IH f after _ st' e A' T).
    now rewrite <- app_assoc.
Qed.

Lemma parse_failure_throws host f parseMessage :
  JSON_parse host (fileText f) = inr parseMessage ->
  forall st, processFile host f st
             = Throw (Error ("Failed to parse " ++ fileName f ++ ": " ++ parseMessage)%string).
Proof. intros P st. unfold processFile. now rewrite P. Qed.

Lemma unrecognized_throws host f data keys :
  JSON_parse host (fileText f) = inl data ->
  isArray data = false ->
  get data "semanticSegments" = Ok VUndefined \/
    (exists ss, get data "semanticSegments" = Ok ss /\ truthy ss = false) ->
  (exists tl, get data "timelineObjects" = Ok tl /\ truthy tl = false) ->
  objectKeys data = Ok keys ->
  forall st, processFile host f st = Throw (Error (unrecognizedFormat (fileName f) keys)).
Proof.
  intros P A S [tl [Htl Ttl]] K st.
  assert (S' : exists ss, get data "semanticSegments" = Ok ss /\ truthy ss = false).
  { destruct S as [S|S]; [exists VUndefined; split; [exact S|reflexivity]|exact S]. }
  destruct S' as [ss [Hss Tss]].
  now apply (processFile_unrecognized host f st data ss tl keys).
Qed.

Lemma processFiles_nonempty host opts files state :
  files <> [] ->
  processFiles host opts files state
  = match processAll host files []
            (@nil TimelineObject,
             [("=== Processing Started at " ++ now host 0 ++ " ===")%string;
              ("Total files to process: " ++ natToString (List.length files))%string]) with
    | (reads, Ok (combined, allLogs)) =>
        (reads, {| error := None;
                   results := Some (buildResults host opts combined allLogs);
                   processing := false |})
    | (reads, Throw err) =>
        (reads, {| error := Some ("Error processing files: "
                                  ++ message (typeErrorText host) err)%string;
                   results := results state;
                   processing := false |})
    end.
Proof. destruct files; [congruence|reflexivity]. Qed.

(** C8.  When the files before it are accepted and a file fails to parse or
    has an unrecognized format, the run ends there.  The files read are
    those up to and including it, whatever follows.  The state holds one
    error: after [Error processing files: ] it names the file and the cause,
    which is the message of the parser for a text that is no JSON, and the
    list of the keys found for a document of no known format.  The results
    in the state are those that were there before, so that the run hands
    over no CSV, KML or JSON text. *)
Theorem first_fatal_error_aborts_batch host opts state before f after :
  Forall (accepted host) before ->
  (forall parseMessage,
     JSON_parse host (fileText f) = inr parseMessage ->
     processFiles host opts (before ++ f :: after) state
     = (map fileName before ++ [fileName f],
        {| error := Some ("Error processing files: Failed to parse " ++ fileName f
                          ++ ": " ++ parseMessage)%string;
           results := results state;
           processing := false |}))
  /\ (forall data ss tl keys,
        JSON_parse host (fileText f) = inl data ->
        isArray data = false ->
        get data "semanticSegments" = Ok ss -> truthy ss = false ->
        get data "timelineObjects" = Ok tl -> truthy tl = false ->
        objectKeys data = Ok keys ->
        processFiles host opts (before ++ f :: after) state
        = (map fileName before ++ [fileName f],
           {| error := Some ("Error processing files: File " ++ fileName f
                             ++ " has unrecognized format. Expected: array (iOS), semanticSegments (Android), or timelineObjects (old format). Found keys: "
                             ++ Str.join ", " keys)%string;
              results := results state;
              processing := false |})).
Proof.
  intros A. split.
  - intros parseMessage P.
    rewrite processFiles_nonempty by (destruct before; discriminate).
    rewrite (processAll_stops host before f after [] _ _ A
               (parse_failure_throws host f parseMessage P)).
    reflexivity.
  - intros data ss tl keys P NA Hss Tss Htl Ttl K.
    rewrite processFiles_nonempty by (destruct before; discriminate).
    rewrite (processAll_stops host before f after [] _ _ A
               (unrecognized_throws host f data keys P NA
                  (or_intror (ex_intro _ ss (conj Hss Tss)))
                  (ex_intro _ tl (conj Htl Ttl)) K)).
    reflexivity.
Qed.

(** C8 at the specification's sixth scenario, a valid file, a malformed one,
    another valid one, and at a file of no known format in the same place. *)
Lemma first_fatal_error_aborts_batch_witness :
  processFiles sampleHost sampleOptions
    [file "a.json" legacyText; file "b.json" brokenText; file "c.json" cafeText] idle
  = (["a.json"; "b.json"],
     {| error := Some "Error processing files: Failed to parse b.json: Unexpected token n in JSON at position 2";
        results := None;
        processing := false |})
  /\ processFiles sampleHost sampleOptions
       [file "a.json" legacyText; file "f.json" foreignText; file "c.json" cafeText] idle
     = (["a.json"; "f.json"],
        {| error := Some "Error processing files: File f.json has unrecognized format. Expected: array (iOS), semanticSegments (Android), or timelineObjects (old format). Found keys: locations";
           results := None;
           processing := false |}).
Proof.
  assert (A : Forall (accepted sampleHost) [file "a.json" legacyText]).
  { constructor; [|constructor]. intros st. eexists. vm_compute. reflexivity. }
  split.
  - apply (proj1 (first_fatal_error_aborts_batch sampleHost sampleOptions idle
                    [file "a.json" legacyText] (file "b.json" brokenText)
                    [file "c.json" cafeText] A)
             "Unexpected token n in JSON at position 2").
    reflexivity.
  - apply (proj2 (first_fatal_error_aborts_batch sampleHost sampleOptions idle
                    [file "a.json" legacyText] (file "f.json" foreignText)
                    [file "c.json" cafeText] A)
             foreignDocument VUndefined VUndefined ["locations"]); reflexivity.
Defined.

(* ================================================================= *)
(** ** The normaliser *)

Lemma stripPrefix_app p r : Str.stripPrefix p (p ++ r)%string = Some r.
Proof.
  induction p as [|c p IH]; cbn [append Str.stripPrefix]; [reflexivity|].
  now rewrite Ascii.eqb_refl.
Qed.






















Lemma get_nonNullish v k : v <> VUndefined -> v <> VNull -> exists w, get v k = Ok w.
Proof. destruct v; cbn [get]; eauto; congruence. Qed.

Lemma truthy_nonNullish v : truthy v = true -> v <> VUndefined /\ v <> VNull.
Proof. destruct v; cbn [truthy]; intros H; split; congruence. Qed.

Lemma get_Ok_nonNullish v k w : get v k = Ok w -> v <> VUndefined /\ v <> VNull.
Proof. destruct v; cbn [get]; intros H; split; congruence. Qed.

Lemma segmentDuration_object fields : exists d, segmentDuration (VObject fields) = Ok d.
Proof. unfold segmentDuration. cbn [get bind]. eauto. Qed.

(** The record a visit segment becomes: the coordinates of its place,
    scaled and rounded, twice; the probability as a percentage, rounded, and
    [0] when there is none. *)
Lemma convertVisit_record fields visit tc pl s coords :
  get visit "topCandidate" = Ok tc -> truthy tc = true ->
  get tc "placeLocation" = Ok pl ->
  (pl = VString s
   \/ exists plFields, pl = VObject plFields /\ lookup "latLng" plFields = VString s
                       /\ s <> EmptyString) ->
  parseLatLng (VString s) = Ok coords ->
  exists pv prob,
    convertVisit (VObject fields) visit
    = Ok {| placeVisit := Some pv; activitySegment := None |}
    /\ get visit "probability" = Ok prob
    /\ latitudeE7 (location pv) = Math_round (PrimFloat.mul (fst coords) 1e7)
    /\ longitudeE7 (location pv) = Math_round (PrimFloat.mul (snd coords) 1e7)
    /\ centerLatE7 pv = latitudeE7 (location pv)
    /\ centerLngE7 pv = longitudeE7 (location pv)
    /\ visitConfidence pv
       = Math_round (PrimFloat.mul (orZeroFloat (parseFloat prob)) 100)
    /\ (prob = VUndefined -> visitConfidence pv = Int 0).
Proof.
  intros Htc Ttc Hpl Form Hcoords.
  destruct (get_Ok_nonNullish _ _ _ Htc) as [V1 V2].
  destruct (truthy_nonNullish _ Ttc) as [T1 T2].
  destruct (get_nonNullish tc "placeId" T1 T2) as [pid Hpid].
  destruct (get_nonNullish tc "semanticType" T1 T2) as [sem Hsem].
  destruct (get_nonNullish visit "probability" V1 V2) as [prob Hprob].
  destruct (segmentDuration_object fields) as [dur Hdur].
  assert (C : locationCoords pl = Ok coords).
  { destruct Form as [-> | [plFields [-> [L NE]]]].
    - exact Hcoords.
    - unfold locationCoords. cbn [getOpt get bind]. rewrite L.
      destruct s; [congruence|]. exact Hcoords. }
  assert (O : exists nm addr, getOpt pl "name" = Ok nm /\ getOpt pl "address" = Ok addr).
  { destruct Form as [-> | [plFields [-> _]]]; cbn [getOpt get]; eauto. }
  destruct O as [nm [addr [Hnm Haddr]]].
  eexists. exists prob. split.
  - assert (OV : orValue tc (VObject []) = tc) by (unfold orValue; now rewrite Ttc).
    unfold convertVisit. rewrite Htc. cbn [bind]. rewrite !OV.
    rewrite Hpl. cbn [bind]. rewrite C. cbn [bind]. rewrite Hpid. cbn [bind].
    rewrite Hnm, Haddr. cbn [bind]. rewrite Hsem. cbn [bind]. rewrite Hdur. cbn [bind].
    rewrite Hprob. cbn [bind]. reflexivity.
  - cbn [location latitudeE7 longitudeE7 centerLatE7 centerLngE7 visitConfidence].
    split; [exact Hprob|]. do 5 (split; [reflexivity|]). intros ->. reflexivity.
Qed.

(** ** The float of a numeral, and the rounding of a float *)

Section NearestFloat.
Local Open Scope Z_scope.















End NearestFloat.




(* ================================================================= *)
(** ** The record deduplication keeps of a group *)

(** *** [trim] takes the white space off both ends *)

Section Trimming.
Local Open Scope string_scope.

Lemma whiteSpace_chars : Str.whiteSpace = whiteSpaceChars.
Proof. reflexivity. Qed.

Lemma stripPrefix_Some p : forall s r, Str.stripPrefix p s = Some r -> s = p ++ r.
Proof.
  induction p as [|a p IH]; intros s r H; cbn [Str.stripPrefix] in H.
  - now injection H as ->.
  - destruct s as [|b s]; [discriminate|].
    destruct (Ascii.eqb a b) eqn:E; [|discriminate].
    apply Ascii.eqb_eq in E. subst b. cbn [append]. f_equal. now apply IH.
Qed.

Lemma stripAny_Some ps s r :
  Str.stripAny ps s = Some r -> exists p, In p ps /\ s = p ++ r.
Proof.
  induction ps as [|p ps IH]; cbn [Str.stripAny]; [discriminate|].
  destruct (Str.stripPrefix p s) as [r'|] eqn:E.
  - intros [= <-]. exists p. split; [now left | now apply stripPrefix_Some].
  - intros H. destruct (IH H) as [q [Hq Hs]]. exists q. split; [now right | assumption].
Qed.

Lemma stripAny_None ps s :
  Str.stripAny ps s = None -> forall p r, In p ps -> s <> p ++ r.
Proof.
  induction ps as [|p ps IH]; cbn [Str.stripAny]; intros H q r Hq; [destruct Hq|].
  destruct (Str.stripPrefix p s) as [r'|] eqn:E; [discriminate|].
  destruct Hq as [<-|Hq].
  - intros ->. rewrite stripPrefix_app in E. discriminate.
  - now apply IH.
Qed.

Lemma sequenceOf_app ps a b : sequenceOf ps a -> sequenceOf ps b -> sequenceOf ps (a ++ b).
Proof.
  induction 1 as [|p s Hp Hs IH]; intros Hb; [assumption|].
  rewrite append_assoc. constructor; auto.
Qed.

Lemma blankText_sequenceOf s : blankText s <-> sequenceOf whiteSpaceChars s.
Proof. split; induction 1; constructor; auto. Qed.

Lemma string_length_append (a b : string) :
  String.length (a ++ b) = String.length a + String.length b.
Proof. induction a as [|c a IH]; cbn; [reflexivity | now rewrite IH]. Qed.

Lemma dropWhile_split ps fuel : forall s,
  exists l, s = l ++ Str.dropWhile_fuel ps fuel s /\ sequenceOf ps l.
Proof.
  induction fuel as [|fuel IH]; intros s; cbn [Str.dropWhile_fuel].
  - exists EmptyString. split; [reflexivity | constructor].
  - destruct (Str.stripAny ps s) as [r|] eqn:E.
    + destruct (stripAny_Some _ _ _ E) as [p [Hp ->]].
      destruct (IH r) as [l [Hl Sl]]. exists (p ++ l). split.
      * rewrite append_assoc. now rewrite <- Hl.
      * now constructor.
    + exists EmptyString. split; [reflexivity | constructor].
Qed.

Lemma dropWhile_done ps :
  Forall (fun p => p <> EmptyString) ps ->
  forall fuel s, String.length s <= fuel ->
  Str.stripAny ps (Str.dropWhile_fuel ps fuel s) = None.
Proof.
  intros NE. induction fuel as [|fuel IH]; intros s L; cbn [Str.dropWhile_fuel].
  - destruct s; [|cbn in L; lia].
    destruct (Str.stripAny ps EmptyString) as [r|] eqn:E; [|reflexivity].
    destruct (stripAny_Some _ _ _ E) as [p [Hp Hs]].
    rewrite Forall_forall in NE. specialize (NE p Hp).
    destruct p; [congruence | discriminate].
  - destruct (Str.stripAny ps s) as [r|] eqn:E; [|assumption].
    apply IH. destruct (stripAny_Some _ _ _ E) as [p [Hp ->]].
    rewrite Forall_forall in NE. specialize (NE p Hp).
    rewrite string_length_append in L. destruct p; [congruence|]. cbn in L. lia.
Qed.

Lemma rev_append a b : Str.rev (a ++ b) = Str.rev b ++ Str.rev a.
Proof.
  unfold Str.rev at 1. rewrite rev_onto_app. fold (Str.rev a).
  now rewrite rev_onto_spec.
Qed.

Lemma rev_length s : String.length (Str.rev s) = String.length s.
Proof.
  induction s as [|c s IH]; [reflexivity|].
  change (Str.rev (String c s)) with (Str.rev_onto s (String c EmptyString)).
  rewrite rev_onto_spec, string_length_append. cbn. lia.
Qed.

Lemma sequenceOf_rev ps l :
  sequenceOf (map Str.rev ps) l -> sequenceOf ps (Str.rev l).
Proof.
  induction 1 as [|p s Hp Hs IH]; [constructor|].
  rewrite rev_append. apply sequenceOf_app; [assumption|].
  apply in_map_iff in Hp. destruct Hp as [w [<- Hw]].
  rewrite rev_involutive.
  replace w with (w ++ "") by (clear; induction w; cbn; congruence).
  constructor; [assumption | constructor].
Qed.

Lemma whiteSpace_nonempty : Forall (fun p => p <> EmptyString) Str.whiteSpace.
Proof. repeat constructor; discriminate. Qed.

Lemma whiteSpace_rev_nonempty : Forall (fun p => p <> EmptyString) (map Str.rev Str.whiteSpace).
Proof. repeat constructor; discriminate. Qed.

Lemma trimStart_spec s :
  exists l, s = l ++ Str.trimStart s /\ blankText l /\ ~ startsWithWhiteSpace (Str.trimStart s).
Proof.
  unfold Str.trimStart.
  destruct (dropWhile_split Str.whiteSpace (String.length s) s) as [l [Hl Sl]].
  exists l. split; [assumption|]. split; [now apply blankText_sequenceOf|].
  intros [w [r [Hw Hr]]].
  pose proof (dropWhile_done _ whiteSpace_nonempty (String.length s) s (le_n _)) as D.
  exact (stripAny_None _ _ D w r Hw Hr).
Qed.

Lemma trimEnd_spec s :
  exists r, s = Str.trimEnd s ++ r /\ blankText r /\ ~ endsWithWhiteSpace (Str.trimEnd s).
Proof.
  unfold Str.trimEnd.
  destruct (dropWhile_split (map Str.rev Str.whiteSpace) (String.length s) (Str.rev s))
    as [l [Hl Sl]].
  set (d := Str.dropWhile_fuel (map Str.rev Str.whiteSpace) (String.length s) (Str.rev s)) in *.
  exists (Str.rev l). split; [|split].
  - rewrite <- rev_append, <- Hl. now rewrite rev_involutive.
  - apply blankText_sequenceOf. now apply sequenceOf_rev.
  - intros [x [w [Hw Hx]]].
    assert (D : Str.stripAny (map Str.rev Str.whiteSpace) d = None).
    { apply dropWhile_done; [exact whiteSpace_rev_nonempty|]. now rewrite rev_length. }
    apply (stripAny_None _ _ D (Str.rev w) (Str.rev x)).
    + apply in_map. exact Hw.
    + rewrite <- rev_append, <- Hx. now rewrite rev_involutive.
Qed.

Lemma trim_trimmedOf s : trimmedOf s (Str.trim s).
Proof.
  unfold Str.trim.
  destruct (trimStart_spec s) as [l [Hl [Bl Nl]]].
  destruct (trimEnd_spec (Str.trimStart s)) as [r [Hr [Br Nr]]].
  exists l, r. split; [|split; [|split; [|split]]]; try assumption.
  - now rewrite <- Hr.
  - intros [w [x [Hw Hx]]]. apply Nl. exists w, (x ++ r). split; [assumption|].
    rewrite Hr at 1. rewrite Hx. now rewrite append_assoc.
Qed.

Lemma stripAny_whiteSpace w r :
  In w Str.whiteSpace -> Str.stripAny Str.whiteSpace (w ++ r) = Some r.
Proof.
  intros H. cbv in H.
  repeat (destruct H as [<-|H]; [reflexivity|]). destruct H.
Qed.

Lemma dropWhile_blank s :
  blankText s -> forall fuel, String.length s <= fuel ->
  Str.dropWhile_fuel Str.whiteSpace fuel s = EmptyString.
Proof.
  induction 1 as [|w s Hw Hs IH]; intros fuel L.
  - destruct fuel; reflexivity.
  - rewrite string_length_append in L.
    assert (W : w <> EmptyString).
    { pose proof whiteSpace_nonempty as NE. rewrite Forall_forall in NE. now apply NE. }
    destruct fuel as [|fuel]; [destruct w; [congruence | cbn in L; lia]|].
    cbn [Str.dropWhile_fuel]. rewrite stripAny_whiteSpace by assumption.
    apply IH. destruct w; [congruence | cbn in L; lia].
Qed.

Lemma trim_blank s : Str.isEmpty (Str.trim s) = true <-> blankText s.
Proof.
  split.
  - intros E. destruct (trim_trimmedOf s) as [l [r [Hs [Bl [Br _]]]]].
    destruct (Str.trim s); [|discriminate]. cbn [append] in Hs. subst s.
    apply blankText_sequenceOf. apply sequenceOf_app; now apply blankText_sequenceOf.
  - intros B. unfold Str.trim, Str.trimStart.
    rewrite (dropWhile_blank s B _ (le_n _)). reflexivity.
Qed.

End Trimming.

Lemma placeIdKey_trimmed obj : placeIdKey obj = trimmedPlaceId obj.
Proof.
  unfold placeIdKey, trimmedPlaceId, usablePlaceId.
  destruct (placeVisit obj) as [pv|]; [|reflexivity].
  destruct (placeId (location pv)) as [s|]; [|reflexivity].
  destruct s; reflexivity.
Qed.

Lemma hasAddress_bearing obj : hasAddress obj = addressBearing obj.
Proof.
  unfold hasAddress, addressBearing.
  destruct (placeVisit obj) as [pv|]; [|reflexivity].
  destruct (address (location pv)) as [a|]; [|reflexivity].
  destruct a; reflexivity.
Qed.

Lemma hasPlaceIdKey_shares k obj : hasPlaceIdKey k obj = sharesPlaceId k obj.
Proof. unfold hasPlaceIdKey, sharesPlaceId. now rewrite placeIdKey_trimmed. Qed.

Lemma find_ext_eq {A} (f g : A -> bool) l : (forall x, f x = g x) -> find f l = find g l.
Proof. intros H. induction l as [|a l IH]; cbn; [reflexivity|]. now rewrite H, IH. Qed.

Lemma preferred_chosen g : preferred g = chosen g.
Proof.
  unfold preferred, chosen. now rewrite (find_ext_eq _ _ g hasAddress_bearing).
Qed.

Lemma filter_shares k l : filter (sharesPlaceId k) l = filter (hasPlaceIdKey k) l.
Proof. apply filter_ext. intros x. symmetry. apply hasPlaceIdKey_shares. Qed.

Lemma keyed_not_unkeyed k l : filter (hasPlaceIdKey k) (filter noPlaceIdKey l) = [].
Proof.
  induction l as [|x l IH]; [reflexivity|]. cbn [filter].
  unfold noPlaceIdKey at 1. destruct (placeIdKey x) as [k'|] eqn:E; [assumption|].
  cbn [filter]. unfold hasPlaceIdKey at 1. now rewrite E.
Qed.

Lemma allRecords_parts l :
  allRecordsAfterPlaceIdDedup l = survivors (fst (pass1 l)) ++ filter noPlaceIdKey l.
Proof. unfold allRecordsAfterPlaceIdDedup. now rewrite pass1_run. Qed.

(** Pass 1 hands over one record of every group of visits with the same
    trimmed placeId: the chosen one. *)
Lemma pass1_hands_over_chosen cleaned k :
  filter (sharesPlaceId k) cleaned <> [] ->
  exists s,
    chosen (filter (sharesPlaceId k) cleaned) = Some s
    /\ filter (sharesPlaceId k) (allRecordsAfterPlaceIdDedup cleaned) = [s].
Proof.
  rewrite !filter_shares. intros NE.
  destruct (pass1_one_survivor cleaned k NE) as [s [P F]].
  exists s. split; [now rewrite <- preferred_chosen|].
  now rewrite allRecords_parts, filter_app, F, keyed_not_unkeyed.
Qed.

Lemma pass2_keeps_chosen random cleaned lat lng :
  filter (atCoords lat lng) (allRecordsAfterPlaceIdDedup cleaned) <> [] ->
  exists s,
    chosen (filter (atCoords lat lng) (allRecordsAfterPlaceIdDedup cleaned)) = Some s
    /\ filter (atCoords lat lng) (dedup random cleaned) = [s].
Proof.
  intros NE. destruct (pass2_one_survivor random cleaned lat lng NE) as [s [P F]].
  exists s. split; [now rewrite <- preferred_chosen | assumption].
Qed.

Lemma keyed_at_most_one k l :
  NoDup (placeIdKeys l) -> List.length (filter (hasPlaceIdKey k) l) <= 1.
Proof.
  induction l as [|x l IH]; intros ND; [cbn; lia|].
  unfold placeIdKeys in ND. cbn [flat_map] in ND. fold (placeIdKeys l) in ND.
  cbn [filter]. destruct (hasPlaceIdKey k x) eqn:H.
  - apply hasPlaceIdKey_spec in H. rewrite H in ND. cbn [app] in ND.
    inversion ND as [|? ? NI ND']; subst.
    assert (E : filter (hasPlaceIdKey k) l = []).
    { destruct (filter (hasPlaceIdKey k) l) as [|y g] eqn:E; [reflexivity|exfalso].
      assert (Hy : In y (filter (hasPlaceIdKey k) l)) by (rewrite E; now left).
      apply filter_In in Hy. destruct Hy as [Hy1 Hy2]. apply hasPlaceIdKey_spec in Hy2.
      apply NI. apply placeIdKeys_In. eauto. }
    rewrite E. cbn. lia.
  - apply IH. destruct (placeIdKey x); [|assumption].
    cbn [app] in ND. now inversion ND.
Qed.

(** The output holds at most one record of a placeId group, and only the
    one pass 1 chose. *)
Lemma output_of_a_placeId_group random cleaned k :
  List.length (filter (sharesPlaceId k) (dedup random cleaned)) <= 1
  /\ forall x, In x (dedup random cleaned) -> sharesPlaceId k x = true ->
               chosen (filter (sharesPlaceId k) cleaned) = Some x.
Proof.
  split.
  - rewrite filter_shares. apply keyed_at_most_one, dedup_placeIdKeys_NoDup.
  - intros x Hx Sx. apply dedup_In in Hx.
    assert (NE : filter (sharesPlaceId k) cleaned <> []).
    { rewrite filter_shares. rewrite allRecords_closed in Hx.
      apply in_app_iff in Hx. destruct Hx as [Hx|Hx].
      - apply survivors_pass1_keyed in Hx. destruct Hx as [k' [K P]].
        rewrite <- hasPlaceIdKey_shares in Sx. apply hasPlaceIdKey_spec in Sx.
        assert (k' = k) by congruence. subst k'.
        apply preferred_In in P. intros E. rewrite E in P. destruct P.
      - apply filter_In in Hx. destruct Hx as [_ Hx]. unfold noPlaceIdKey in Hx.
        rewrite <- hasPlaceIdKey_shares in Sx. apply hasPlaceIdKey_spec in Sx.
        rewrite Sx in Hx. discriminate. }
    destruct (pass1_hands_over_chosen cleaned k NE) as [s [C F]].
    assert (I : In x (filter (sharesPlaceId k) (allRecordsAfterPlaceIdDedup cleaned)))
      by (apply filter_In; tauto).
    rewrite F in I. destruct I as [<-|[]]. exact C.
Qed.

Lemma address_bearing_one_survives ra random a b k :
  trimmedPlaceId a = Some k -> trimmedPlaceId b = Some k ->
  addressBearing a = true -> addressBearing b = false ->
  fst (cleanData ra true random [a; b]) = [a]
  /\ fst (cleanData ra true random [b; a]) = [a].
Proof.
  rewrite <- !placeIdKey_trimmed, <- !hasAddress_bearing.
  apply address_bearing_survives.
Qed.

Section Uniqueness.
Local Open Scope string_scope.

Lemma whiteSpace_wellEncoded w : In w Str.whiteSpace -> wellEncoded w = true.
Proof.
  intros H. cbv in H.
  repeat (destruct H as [<-|H]; [reflexivity|]). destruct H.
Qed.

Lemma append_compare : forall a b c d : string,
  a ++ b = c ++ d ->
  (exists y, a = c ++ y) \/ (exists y, y <> "" /\ c = a ++ y /\ b = y ++ d).
Proof.
  induction a as [|x a IH]; intros b c d H.
  - destruct c as [|z c].
    + left. exists "". reflexivity.
    + right. exists (String z c). split; [discriminate|]. split; [reflexivity|exact H].
  - destruct c as [|z c].
    + left. exists (String x a). reflexivity.
    + cbn [append] in H. injection H as -> H.
      destruct (IH _ _ _ H) as [[y ->]|[y [Hy [-> ->]]]].
      * left. exists y. reflexivity.
      * right. exists y. split; [assumption|]. split; reflexivity.
Qed.

Lemma blank_starts r : blankText r -> r <> "" -> startsWithWhiteSpace r.
Proof.
  induction 1 as [|w s Hw Hs IH]; intros NE; [congruence|].
  exists w, s. split; [assumption | reflexivity].
Qed.

(** What follows a text that starts with no white space cannot complete
    its last bytes to a white space. *)
Lemma stripAny_after_text t r :
  t <> "" -> ~ startsWithWhiteSpace t -> blankText r ->
  Str.stripAny Str.whiteSpace (t ++ r) = None.
Proof.
  intros NE NS B.
  destruct (Str.stripAny Str.whiteSpace (t ++ r)) as [x|] eqn:E; [exfalso|reflexivity].
  destruct (stripAny_Some _ _ _ E) as [w [Hw Hs]].
  destruct (append_compare _ _ _ _ Hs) as [[y Hy]|[y [Hy [Hwt Hr]]]].
  - apply NS. exists w, y. split; assumption.
  - pose proof (whiteSpace_wellEncoded w Hw) as W.
    destruct t as [|c t]; [congruence|]. rewrite Hwt in W. cbn [append wellEncoded] in W.
    apply andb_prop in W. destruct W as [_ W]. rewrite allChars_app in W.
    apply andb_prop in W. destruct W as [_ W].
    destruct y as [|c' y]; [congruence|]. cbn [allChars] in W.
    apply andb_prop in W. destruct W as [W _].
    assert (R : r <> "") by (rewrite Hr; discriminate).
    destruct (blank_starts r B R) as [w2 [r2 [Hw2 Hr2]]].
    pose proof (whiteSpace_wellEncoded w2 Hw2) as W2.
    destruct w2 as [|c2 w2]; [discriminate|]. cbn [wellEncoded] in W2.
    apply andb_prop in W2. destruct W2 as [W2 _].
    rewrite Hr2 in Hr. cbn [append] in Hr. injection Hr as -> _.
    rewrite W2 in W. discriminate.
Qed.

(** A run of patterns, each of them stripped as a whole, is dropped from
    the head of a text that starts with none. *)
Lemma dropWhile_sequence ps l :
  Forall (fun p => p <> EmptyString) ps ->
  (forall p rest, In p ps -> Str.stripAny ps (p ++ rest) = Some rest) ->
  sequenceOf ps l ->
  forall x fuel,
    Str.stripAny ps x = None ->
    String.length (l ++ x) <= fuel ->
    Str.dropWhile_fuel ps fuel (l ++ x) = x.
Proof.
  intros NE ST. induction 1 as [|p s Hp Hs IH]; intros x fuel N L.
  - cbn [append] in *. destruct fuel as [|fuel]; [reflexivity|].
    cbn [Str.dropWhile_fuel]. now rewrite N.
  - rewrite append_assoc in *. rewrite string_length_append in L.
    assert (W : p <> "") by (rewrite Forall_forall in NE; now apply NE).
    destruct fuel as [|fuel]; [destruct p; [congruence | cbn in L; lia]|].
    cbn [Str.dropWhile_fuel]. rewrite ST by assumption.
    apply IH; [assumption|]. destruct p; [congruence | cbn in L; lia].
Qed.

Lemma stripAny_rev_whiteSpace w r :
  In w Str.whiteSpace ->
  Str.stripAny (map Str.rev Str.whiteSpace) (Str.rev w ++ r) = Some r.
Proof.
  intros H. cbv in H.
  repeat (destruct H as [<-|H]; [reflexivity|]). destruct H.
Qed.

Lemma stripAny_rev_text t :
  ~ endsWithWhiteSpace t ->
  Str.stripAny (map Str.rev Str.whiteSpace) (Str.rev t) = None.
Proof.
  intros NE.
  destruct (Str.stripAny (map Str.rev Str.whiteSpace) (Str.rev t)) as [x|] eqn:E;
    [exfalso|reflexivity].
  destruct (stripAny_Some _ _ _ E) as [p [Hp Hs]].
  apply in_map_iff in Hp. destruct Hp as [w [<- Hw]].
  apply NE. exists (Str.rev x), w. split; [assumption|].
  rewrite <- (rev_involutive t), Hs, rev_append. now rewrite rev_involutive.
Qed.

Lemma sequenceOf_rev_blank r :
  blankText r -> sequenceOf (map Str.rev Str.whiteSpace) (Str.rev r).
Proof.
  induction 1 as [|w s Hw Hs IH]; [constructor|].
  rewrite rev_append. apply sequenceOf_app; [assumption|].
  rewrite <- (append_empty_r (Str.rev w)). constructor; [|constructor].
  now apply in_map.
Qed.

(** The text without the white space at its ends is what [trim] returns. *)
Lemma trimmedOf_trim s t : trimmedOf s t -> t = Str.trim s.
Proof.
  intros [l [r [-> [Bl [Br [NS NE]]]]]].
  destruct t as [|c t].
  - cbn [append].
    assert (B : blankText (l ++ r)).
    { apply blankText_sequenceOf. apply sequenceOf_app; now apply blankText_sequenceOf. }
    apply trim_blank in B. destruct (Str.trim (l ++ r)); [reflexivity | discriminate].
  - assert (NT : String c t <> "") by discriminate.
    unfold Str.trim, Str.trimStart.
    rewrite (dropWhile_sequence Str.whiteSpace l whiteSpace_nonempty
               (fun p rest H => stripAny_whiteSpace p rest H)
               (proj1 (blankText_sequenceOf l) Bl)
               (String c t ++ r) _
               (stripAny_after_text (String c t) r NT NS Br) (le_n _)).
    unfold Str.trimEnd. rewrite rev_append.
    rewrite (dropWhile_sequence (map Str.rev Str.whiteSpace) (Str.rev r)
               whiteSpace_rev_nonempty).
    + now rewrite rev_involutive.
    + intros p rest Hp. apply in_map_iff in Hp. destruct Hp as [w [<- Hw]].
      now apply stripAny_rev_whiteSpace.
    + now apply sequenceOf_rev_blank.
    + now apply stripAny_rev_text.
    + rewrite <- rev_append, rev_length. apply le_n.
Qed.

Lemma trim_unique s t : trimmedOf s t <-> t = Str.trim s.
Proof. split; [apply trimmedOf_trim | intros ->; apply trim_trimmedOf]. Qed.

End Uniqueness.

(** *** The groups and the rule of preference *)

Lemma sharesPlaceId_spec k obj :
  sharesPlaceId k obj = true
  <-> exists pv s,
        placeVisit obj = Some pv /\ placeId (location pv) = Some s
        /\ trimmedOf s k /\ k <> EmptyString.
Proof.
  unfold sharesPlaceId, trimmedPlaceId. split.
  - destruct (placeVisit obj) as [pv|]; [|discriminate].
    destruct (placeId (location pv)) as [s|] eqn:P; [|discriminate].
    destruct (Str.isEmpty (Str.trim s)) eqn:E; [discriminate|].
    intros H. apply String.eqb_eq in H. subst k.
    exists pv, s. split; [reflexivity|]. split; [exact P|].
    split; [apply trim_trimmedOf|].
    intros Z. rewrite Z in E. discriminate.
  - intros [pv [s [-> [-> [T NE]]]]]. apply trimmedOf_trim in T. subst k.
    destruct (Str.trim s); [congruence|]. cbn [Str.isEmpty]. apply String.eqb_refl.
Qed.

Lemma addressBearing_spec obj :
  addressBearing obj = true
  <-> exists pv a,
        placeVisit obj = Some pv /\ address (location pv) = Some a /\ ~ blankText a.
Proof.
  unfold addressBearing. split.
  - destruct (placeVisit obj) as [pv|]; [|discriminate].
    destruct (address (location pv)) as [a|] eqn:A; [|discriminate].
    intros H. exists pv, a. split; [reflexivity|]. split; [exact A|].
    intros B. apply trim_blank in B. rewrite B in H. discriminate.
  - intros [pv [a [-> [-> NB]]]].
    destruct (Str.isEmpty (Str.trim a)) eqn:E; [|reflexivity].
    exfalso. apply NB. now apply trim_blank.
Qed.

(** C1 (as amended).  A visit belongs to the group of the placeId [k] when
    its placeId, without the white space at its ends, is the non-empty text
    [k]; it bears an address when its address is present and not white
    space only.
    Pass 1 hands over to pass 2 exactly one record of every such group:
    the first one, in the order of the input, that bears an address, and
    the first one of the group when none does.  Pass 2 leaves in the
    output exactly one record of every group of visits at the same scaled
    coordinates among the records handed over, chosen in the same way.
    The output so holds at most one record of a placeId group, and only
    the one pass 1 chose.  Two records of one placeId, alone in the input,
    of which exactly one bears an address leave that one, in either
    order. *)
Theorem dedup_keeps_preferred_record :
  (forall s t, trimmedOf s t <-> t = Str.trim s)
  /\ (forall s, Str.isEmpty (Str.trim s) = true <-> blankText s)
  /\ (forall k obj,
        sharesPlaceId k obj = true
        <-> exists pv s,
              placeVisit obj = Some pv /\ placeId (location pv) = Some s
              /\ trimmedOf s k /\ k <> EmptyString)
  /\ (forall obj,
        addressBearing obj = true
        <-> exists pv a,
              placeVisit obj = Some pv /\ address (location pv) = Some a
              /\ ~ blankText a)
  /\ (forall cleaned k,
        filter (sharesPlaceId k) cleaned <> [] ->
        exists s,
          chosen (filter (sharesPlaceId k) cleaned) = Some s
          /\ filter (sharesPlaceId k) (allRecordsAfterPlaceIdDedup cleaned) = [s])
  /\ (forall random cleaned lat lng,
        filter (atCoords lat lng) (allRecordsAfterPlaceIdDedup cleaned) <> [] ->
        exists s,
          chosen (filter (atCoords lat lng) (allRecordsAfterPlaceIdDedup cleaned))
          = Some s
          /\ filter (atCoords lat lng) (dedup random cleaned) = [s])
  /\ (forall random cleaned k,
        List.length (filter (sharesPlaceId k) (dedup random cleaned)) <= 1
        /\ forall x,
             In x (dedup random cleaned) -> sharesPlaceId k x = true ->
             chosen (filter (sharesPlaceId k) cleaned) = Some x)
  /\ (forall removeActivitiesOpt random a b k,
        trimmedPlaceId a = Some k -> trimmedPlaceId b = Some k ->
        addressBearing a = true -> addressBearing b = false ->
        fst (cleanData removeActivitiesOpt true random [a; b]) = [a]
        /\ fst (cleanData removeActivitiesOpt true random [b; a]) = [a]).
Proof.
  split; [apply trim_unique|].
  split; [apply trim_blank|].
  split; [apply sharesPlaceId_spec|].
  split; [apply addressBearing_spec|].
  split; [apply pass1_hands_over_chosen|].
  split; [apply pass2_keeps_chosen|].
  split; [apply output_of_a_placeId_group | apply address_bearing_one_survives].
Qed.

(** C1 at two records whose placeIds are [P1] between white space, the
    second with an address of three spaces. *)
Lemma dedup_keeps_preferred_record_witness :
  fst (cleanData true true sameKey [paddedCafe; blankAddressCafe]) = [paddedCafe]
  /\ fst (cleanData true true sameKey [blankAddressCafe; paddedCafe]) = [paddedCafe].
Proof.
  exact (proj2 (proj2 (proj2 (proj2 (proj2 (proj2 (proj2 dedup_keeps_preferred_record))))))
           true sameKey paddedCafe blankAddressCafe "P1"
           eq_refl eq_refl eq_refl eq_refl).
Defined.

(** The group of the placeId [P1] has a record, and the output has none of
    it: pass 2 prefers the record with an address at the same coordinates,
    which has no placeId. *)
Lemma dedup_keeps_preferred_record_counterexample :
  filter (sharesPlaceId "P1") [cafeById; cafeByAddress] = [cafeById]
  /\ fst (cleanData false true sameKey [cafeById; cafeByAddress]) = [cafeByAddress]
  /\ filter (sharesPlaceId "P1")
       (fst (cleanData false true sameKey [cafeById; cafeByAddress])) = [].
Proof. repeat split; reflexivity. Qed.

(* ================================================================= *)
(** * Further properties *)

(** ** The merge/clean engine *)

Lemma allRecords_incl l x : In x (allRecordsAfterPlaceIdDedup l) -> In x l.
Proof.
  rewrite allRecords_closed. intros H. apply in_app_iff in H. destruct H as [H|H].
  - apply survivors_pass1_keyed in H. destruct H as [k [_ H]].
    apply preferred_In in H. apply filter_In in H. tauto.
  - apply filter_In in H. tauto.
Qed.

Lemma dedup_incl random cleaned x : In x (dedup random cleaned) -> In x cleaned.
Proof. intros H. apply allRecords_incl. eapply dedup_In. exact H. Qed.

Lemma firstKeys_length ks : List.length (firstKeys ks) <= List.length ks.
Proof.
  apply NoDup_incl_length; [apply firstKeys_NoDup|].
  intros k. apply firstKeys_In.
Qed.

Lemma at_most_one_each {A B} (F : A -> option B) l :
  List.length (flat_map (fun k => optionList (F k)) l) <= List.length l.
Proof.
  induction l as [|a l IH]; cbn [flat_map]; [reflexivity|].
  rewrite length_app. destruct (F a); cbn; lia.
Qed.

Lemma survivors_length ops : List.length (survivors (run ops)) <= List.length ops.
Proof.
  rewrite run_tabulate, survivors_tabulate.
  etransitivity; [apply at_most_one_each|].
  etransitivity; [apply firstKeys_length|]. now rewrite length_map.
Qed.

Lemma partition_length {A} (p : A -> bool) l :
  List.length (filter (fun x => negb (p x)) l) + List.length (filter p l) = List.length l.
Proof.
  induction l as [|a l IH]; cbn; [reflexivity|]. destruct (p a); cbn; lia.
Qed.

Lemma allRecords_length l :
  List.length (allRecordsAfterPlaceIdDedup l) <= List.length l.
Proof.
  unfold allRecordsAfterPlaceIdDedup. rewrite pass1_run, length_app.
  pose proof (survivors_length (pass1_ops l)) as H.
  pose proof (f_equal (@List.length _) (pass1_ops_objs l)) as E.
  rewrite length_map in E.
  pose proof (partition_length noPlaceIdKey l). lia.
Qed.

Lemma dedup_length random cleaned :
  List.length (dedup random cleaned) <= List.length cleaned.
Proof.
  unfold dedup. rewrite pass2_run.
  etransitivity; [apply survivors_length|].
  rewrite <- (length_map opObj), pass2_ops_objs. apply allRecords_length.
Qed.

(** X4.  Whatever [Math.random] draws, the output of deduplication holds no
    two visits with the same usable placeId and no two visits at the same
    scaled coordinates. *)
Theorem dedup_output_has_no_duplicates random cleaned :
  NoDup (placeIdKeys (dedup random cleaned))
  /\ NoDup (visitKeys (dedup random cleaned)).
Proof.
  split; [apply dedup_placeIdKeys_NoDup|apply dedup_visitKeys_NoDup].
Qed.

(** X5.  Deduplication only removes: every record of its output is a record
    of its input, unchanged, and the output is no longer than the input. *)
Theorem dedup_only_removes random cleaned :
  incl (dedup random cleaned) cleaned
  /\ List.length (dedup random cleaned) <= List.length cleaned.
Proof.
  split; [intros x; apply dedup_incl|apply dedup_length].
Qed.

(** ** The counts of [cleanData] and of the results *)

Lemma cleanData_counts ra rd random l :
  List.length (fst (cleanData ra rd random l))
  + totalRemoved (snd (cleanData ra rd random l)) = List.length l
  /\ removedActivities (snd (cleanData ra rd random l))
     = (if ra then List.length (nonVisits l) else 0).
Proof.
  unfold cleanData. cbn [fst snd totalRemoved removedActivities removedDuplicates].
  pose proof (partition_length isPlaceVisit l) as Hp. fold (nonVisits l) in Hp.
  destruct ra, rd.
  - pose proof (dedup_length random (filter isPlaceVisit l)). split; lia.
  - split; lia.
  - pose proof (dedup_length random l). split; lia.
  - split; lia.
Qed.

Lemma cleanData_visits rd random l :
  Forall (fun obj => isPlaceVisit obj = true) (fst (cleanData true rd random l)).
Proof.
  unfold cleanData. cbn [fst]. apply Forall_forall. intros x Hx.
  assert (In x (filter isPlaceVisit l)) as H.
  { destruct rd; [eapply dedup_incl; exact Hx|exact Hx]. }
  apply filter_In in H. tauto.
Qed.

Lemma filter_all_true {A} (p : A -> bool) l :
  Forall (fun x => p x = true) l -> filter p l = l.
Proof.
  induction 1 as [|a l Ha _ IH]; cbn; [reflexivity|]. now rewrite Ha, IH.
Qed.

(** X6.  The counts add up: the records [cleanData] returns and those it
    reports as removed are together the records it was given; the activities
    it reports as removed are the records without a placeVisit when that
    option is on; and in the results of a run the original count is the
    total count plus the total removed, with every record counted as a visit
    when activities are removed. *)
Theorem counts_add_up :
  (forall ra rd random l,
     List.length (fst (cleanData ra rd random l))
     + totalRemoved (snd (cleanData ra rd random l)) = List.length l
     /\ totalRemoved (snd (cleanData ra rd random l))
        = removedActivities (snd (cleanData ra rd random l))
          + removedDuplicates (snd (cleanData ra rd random l))
     /\ removedActivities (snd (cleanData ra rd random l))
        = (if ra then List.length (nonVisits l) else 0))
  /\ (forall host opts combined allLogs,
        let r := buildResults host opts combined allLogs in
        totalCount r + totalRemoved (cleaningStats r) = originalCount r
        /\ visitCount r <= totalCount r
        /\ activityCount r <= totalCount r
        /\ (removeActivities opts = true -> visitCount r = totalCount r)).
Proof.
  split.
  - intros ra rd random l. destruct (cleanData_counts ra rd random l) as [H1 H2].
    split; [exact H1|]. split; [reflexivity|exact H2].
  - intros host opts combined allLogs. cbv zeta. unfold buildResults.
    pose proof (cleanData_counts (removeActivities opts) (removeDuplicates opts)
                  (random host) combined) as [H1 _].
    pose proof (cleanData_visits (removeDuplicates opts) (random host) combined) as V.
    destruct (cleanData (removeActivities opts) (removeDuplicates opts)
                (random host) combined) as [cleaned stats] eqn:E.
    destruct (renderFiles host (splitFiles opts) cleaned) as [csvFiles kmlFiles].
    cbn [totalCount cleaningStats originalCount visitCount activityCount fst snd] in *.
    split; [exact H1|]. split; [apply filter_length_le|]. split; [apply filter_length_le|].
    intros Hra. rewrite Hra in E. rewrite E in V. cbn [fst] in V.
    now rewrite (filter_all_true _ _ V).
Qed.

(** X6 at the option of the sample and two repeated visits among activities. *)
Lemma counts_add_up_witness :
  visitCount (buildResults sampleHost sampleOptions [walk; cafeById; cafeById; drive] [])
  = totalCount (buildResults sampleHost sampleOptions [walk; cafeById; cafeById; drive] []).
Proof.
  apply (proj2 counts_add_up sampleHost sampleOptions [walk; cafeById; cafeById; drive] []).
  reflexivity.
Defined.

(** ** Runs that draw no key *)

Lemma pass2_ops_visits random1 random2 l : forall c1 c2,
  Forall (fun obj => isPlaceVisit obj = true) l ->
  pass2_ops random1 c1 l = pass2_ops random2 c2 l.
Proof.
  induction l as [|x l IH]; intros c1 c2 H; [reflexivity|].
  inversion H as [|? ? Hx Hl]; subst. cbn [pass2_ops].
  unfold isPlaceVisit in Hx. destruct (placeVisit x); [|discriminate].
  f_equal. now apply IH.
Qed.

Lemma dedup_visits_any_random random1 random2 l :
  Forall (fun obj => isPlaceVisit obj = true) l ->
  dedup random1 l = dedup random2 l.
Proof.
  intros H. unfold dedup. rewrite !pass2_run. f_equal. f_equal.
  apply pass2_ops_visits. apply Forall_forall. intros x Hx.
  apply allRecords_incl in Hx. revert x Hx. now apply Forall_forall.
Qed.

Lemma filter_isPlaceVisit_visits l :
  Forall (fun obj => isPlaceVisit obj = true) (filter isPlaceVisit l).
Proof. apply Forall_forall. intros x Hx. apply filter_In in Hx. tauto. Qed.

(** X7.  With the removal of activities on, [cleanData] does not depend on
    what [Math.random] draws, and returns visits only. *)
Theorem visits_only_run_draws_no_key rd random1 random2 l :
  cleanData true rd random1 l = cleanData true rd random2 l
  /\ Forall (fun obj => isPlaceVisit obj = true) (fst (cleanData true rd random1 l)).
Proof.
  split; [|apply cleanData_visits].
  unfold cleanData. destruct rd; [|reflexivity].
  now rewrite (dedup_visits_any_random random1 random2 _ (filter_isPlaceVisit_visits l)).
Qed.

(** ** Third and later applications *)

Lemma filter_filter_same {A} (p : A -> bool) l : filter p (filter p l) = filter p l.
Proof.
  induction l as [|a l IH]; cbn; [reflexivity|].
  destruct (p a) eqn:E; cbn; [rewrite E; now f_equal|exact IH].
Qed.

Lemma filter_filter_neg {A} (p : A -> bool) l :
  filter p (filter (fun x => negb (p x)) l) = [].
Proof.
  induction l as [|a l IH]; cbn; [reflexivity|].
  destruct (p a) eqn:E; cbn; [exact IH|now rewrite E].
Qed.

Lemma filter_neg_filter {A} (p : A -> bool) l :
  filter (fun x => negb (p x)) (filter p l) = [].
Proof.
  induction l as [|a l IH]; cbn; [reflexivity|].
  destruct (p a) eqn:E; cbn; [now rewrite E|exact IH].
Qed.

Lemma placeIdsFirst_twice l : placeIdsFirst (placeIdsFirst l) = placeIdsFirst l.
Proof.
  unfold placeIdsFirst. rewrite !filter_app.
  rewrite (filter_filter_same (fun x => negb (noPlaceIdKey x))), filter_neg_filter.
  rewrite filter_filter_neg, filter_filter_same. now rewrite app_nil_r.
Qed.

Lemma nonVisits_placeIdsFirst l : nonVisits (placeIdsFirst l) = nonVisits l.
Proof.
  unfold placeIdsFirst. rewrite nonVisits_app, nonVisits_setAside.
  rewrite nonVisits_all_visits; [reflexivity|].
  intros x Hx. apply filter_In in Hx. destruct Hx as [_ Hx].
  unfold noPlaceIdKey in Hx. destruct (placeIdKey x) eqn:E; [|discriminate].
  eapply placeIdKey_visit; eauto.
Qed.

(** On records among which no two visits share a placeId or the scaled
    coordinates, and for which distinct keys are drawn, both passes keep
    every group a singleton. *)
Lemma dedup_distinct random l :
  NoDup (placeIdKeys l) -> NoDup (visitKeys l) ->
  NoDup (activityKeys random (List.length (nonVisits l))) ->
  dedup random l = placeIdsFirst l.
Proof.
  intros NP NV NA.
  assert (A : allRecordsAfterPlaceIdDedup l = placeIdsFirst l).
  { unfold allRecordsAfterPlaceIdDedup, placeIdsFirst. rewrite pass1_run. f_equal.
    rewrite survivors_run_NoDup, pass1_ops_objs; [reflexivity|].
    now rewrite pass1_keys. }
  unfold dedup. rewrite A, pass2_run.
  rewrite survivors_run_NoDup; [apply pass2_ops_objs|].
  apply pass2_keys_NoDup.
  - eapply Permutation_NoDup; [symmetry; apply visitKeys_partition|exact NV].
  - rewrite nonVisits_placeIdsFirst. exact NA.
Qed.

Lemma placeIdsFirst_Permutation l : Permutation l (placeIdsFirst l).
Proof.
  unfold placeIdsFirst. induction l as [|a l IH]; cbn; [constructor|].
  destruct (noPlaceIdKey a); cbn.
  - etransitivity; [apply perm_skip; exact IH|]. apply Permutation_middle.
  - now apply perm_skip.
Qed.

(** X8.  A second application of the merge may still change the order of
    the records; from then on nothing changes: when the keys drawn in the
    second and in the third application are pairwise distinct, the third
    application returns what the second returned. *)
Theorem dedup_settles_at_second_application :
  (exists random cleaned first second,
     dedup random cleaned = [first; second]
     /\ dedup random (dedup random cleaned) = [second; first]
     /\ first <> second)
  /\ (forall random1 random2 random3 cleaned,
        NoDup (activityKeys random2 (List.length (nonVisits (dedup random1 cleaned)))) ->
        NoDup (activityKeys random3 (List.length (nonVisits (dedup random1 cleaned)))) ->
        dedup random3 (dedup random2 (dedup random1 cleaned))
        = dedup random2 (dedup random1 cleaned)).
Proof.
  split.
  - exists freshKeys, [cafeById; museumById; cafeByAddress], cafeByAddress, museumById.
    split; [reflexivity|]. split; [reflexivity|]. intros H. discriminate H.
  - intros random1 random2 random3 cleaned N2 N3.
    rewrite (dedup_twice random1 random2 cleaned N2).
    fold (placeIdsFirst (dedup random1 cleaned)).
    assert (E : placeIdsFirst (dedup random1 cleaned) = dedup random2 (dedup random1 cleaned)).
    { unfold placeIdsFirst. symmetry. now apply dedup_twice. }
    rewrite E at 1. rewrite dedup_twice.
    + fold (placeIdsFirst (dedup random2 (dedup random1 cleaned))).
      rewrite <- E. apply placeIdsFirst_twice.
    + rewrite <- E, nonVisits_placeIdsFirst. exact N3.
Qed.

(** X8 at an activity between two visits. *)
Lemma dedup_settles_at_second_application_witness :
  dedup freshKeys (dedup freshKeys (dedup sameKey [cafeById; walk; cafeByAddress]))
  = dedup freshKeys (dedup sameKey [cafeById; walk; cafeByAddress]).
Proof.
  apply (proj2 dedup_settles_at_second_application sameKey freshKeys freshKeys
           [cafeById; walk; cafeByAddress]).
  - repeat constructor; cbn; intuition discriminate.
  - repeat constructor; cbn; intuition discriminate.
Defined.

(** X9.  On records among which no two visits share a usable placeId or the
    scaled coordinates, deduplication with pairwise distinct keys removes
    nothing: its output is the input with the records that have a placeId
    moved to the front. *)
Theorem dedup_keeps_distinct_records random cleaned :
  NoDup (placeIdKeys cleaned) -> NoDup (visitKeys cleaned) ->
  NoDup (activityKeys random (List.length (nonVisits cleaned))) ->
  dedup random cleaned = placeIdsFirst cleaned
  /\ Permutation cleaned (dedup random cleaned)
  /\ removedDuplicates (snd (cleanData false true random cleaned)) = 0.
Proof.
  intros NP NV NA. pose proof (dedup_distinct random cleaned NP NV NA) as E.
  split; [exact E|]. split.
  - rewrite E. apply placeIdsFirst_Permutation.
  - unfold cleanData. cbn [snd removedDuplicates]. rewrite E.
    rewrite <- (Permutation_length (placeIdsFirst_Permutation cleaned)). lia.
Qed.

(** X9 at an activity, a visit with a placeId and a visit without one. *)
Lemma dedup_keeps_distinct_records_witness :
  dedup freshKeys [walk; cornerShop; cafeById] = placeIdsFirst [walk; cornerShop; cafeById]
  /\ Permutation [walk; cornerShop; cafeById] (dedup freshKeys [walk; cornerShop; cafeById])
  /\ removedDuplicates (snd (cleanData false true freshKeys [walk; cornerShop; cafeById])) = 0.
Proof.
  apply (dedup_keeps_distinct_records freshKeys [walk; cornerShop; cafeById]).
  - repeat constructor; cbn; intuition discriminate.
  - repeat constructor; cbn; intuition discriminate.
  - repeat constructor; cbn; intuition discriminate.
Defined.

(* ================================================================= *)
(** ** The normaliser *)

Lemma bind_Ok {A B} (r : result A) (k : A -> result B) b :
  bind r k = Ok b -> exists a, r = Ok a /\ k a = Ok b.
Proof. destruct r as [a|e]; cbn; [eauto|discriminate]. Qed.

Ltac bind_inv H :=
  let a := fresh "a" in
  let E := fresh "E" in
  apply bind_Ok in H; destruct H as [a [E H]].

Lemma convertPath_at_most_one segment path l :
  convertPath segment path = Ok l -> List.length l <= 1.
Proof.
  unfold convertPath. intros H.
  repeat match type of H with
         | Ok _ = Ok _ => injection H as <-; cbn; lia
         | bind _ _ = Ok _ => bind_inv H
         | (match ?x with _ => _ end) = Ok _ => destruct x
         | (if ?x then _ else _) = Ok _ => destruct x
         end.
Qed.

Lemma convertSegment_at_most_one segment l :
  convertSegment segment = Ok l -> List.length l <= 1.
Proof.
  unfold convertSegment. intros H. bind_inv H.
  destruct (truthy a).
  - bind_inv H. injection H as <-. cbn. lia.
  - bind_inv H. destruct (truthy a0).
    + bind_inv H. injection H as <-. cbn. lia.
    + bind_inv H. destruct (truthy a1).
      * eapply convertPath_at_most_one. exact H.
      * injection H as <-. cbn. lia.
Qed.

Lemma convertSegments_closed te filename segments : forall index acc,
  convertSegments te filename segments index acc
  = (fst acc ++ flat_map segmentYield segments,
     snd acc ++ segmentErrors te filename index segments).
Proof.
  induction segments as [|s segments IH]; intros index [records logs];
    cbn [convertSegments flat_map segmentErrors fst snd].
  - now rewrite !app_nil_r.
  - rewrite IH. unfold segmentYield at 2.
    destruct (convertSegment s); cbn [fst snd app]; now rewrite <- ?app_assoc.
Qed.

Lemma yield_and_errors te filename segments : forall index,
  List.length (flat_map segmentYield segments)
  + List.length (segmentErrors te filename index segments) <= List.length segments.
Proof.
  induction segments as [|s segments IH]; intros index;
    cbn [flat_map segmentErrors List.length]; [lia|].
  rewrite !length_app. specialize (IH (S index)). unfold segmentYield at 1.
  destruct (convertSegment s) as [l|e] eqn:E; cbn [List.length].
  - apply convertSegment_at_most_one in E. lia.
  - lia.
Qed.

Lemma flat_map_yield_app a b :
  flat_map segmentYield (a ++ b) = flat_map segmentYield a ++ flat_map segmentYield b.
Proof. apply flat_map_app. Qed.

(** X10.  [convertNewToOld] never throws on a list of segments, given as the
    top-level array or under [semanticSegments]: a segment whose conversion
    throws yields no record and one log line with its index, and does not
    touch the other segments.  The records are those of the segments in
    order, at most one per segment, and a segment yields a record or an
    error line or neither, never both. *)
Theorem convertNewToOld_skips_failing_segments te filename segments :
  let records := flat_map segmentYield segments in
  let logsAfter detected :=
    [detected;
     tagged filename ("Processing " ++ natToString (List.length segments) ++ " segments")]
    ++ segmentErrors te filename 0 segments
    ++ [tagged filename ("Successfully converted "
                         ++ natToString (List.length records) ++ " objects")] in
  convertNewToOld te (VArray segments) filename
  = Ok (records,
        logsAfter (tagged filename "Detected iOS/Apple format (array of segments)"))
  /\ (forall fields,
        lookup "semanticSegments" fields = VArray segments ->
        convertNewToOld te (VObject fields) filename
        = Ok (records,
              logsAfter (tagged filename "Detected Android format (semanticSegments)")))
  /\ List.length records + List.length (segmentErrors te filename 0 segments)
     <= List.length segments
  /\ (forall before after,
        segments = before ++ after ->
        records = flat_map segmentYield before ++ flat_map segmentYield after).
Proof.
  cbv zeta. split; [|split; [|split]].
  - unfold convertNewToOld. cbn [isArray bind]. rewrite convertSegments_closed.
    cbn [fst snd app]. reflexivity.
  - intros fields L. unfold convertNewToOld. cbn [isArray get bind]. rewrite L.
    cbn [truthy bind]. rewrite convertSegments_closed. cbn [fst snd app]. reflexivity.
  - apply yield_and_errors.
  - intros before after ->. apply flat_map_app.
Qed.

(** X10 at the document of the first scenario, with a segment before its
    own whose coordinates are a number. *)
Lemma convertNewToOld_skips_failing_segments_witness :
  convertNewToOld sampleTypeErrorText
    (VObject [("semanticSegments", VArray [brokenSegment; cafeSegment])]) "timeline.json"
  = Ok (flat_map segmentYield [brokenSegment; cafeSegment],
        [ "[timeline.json] Detected Android format (semanticSegments)";
          "[timeline.json] Processing 2 segments";
          "[timeline.json] ERROR processing segment 0: latLngStr.startsWith is not a function";
          "[timeline.json] Successfully converted 1 objects" ]).
Proof.
  apply (proj1 (proj2 (convertNewToOld_skips_failing_segments sampleTypeErrorText
                         "timeline.json" [brokenSegment; cafeSegment]))
           [("semanticSegments", VArray [brokenSegment; cafeSegment])]).
  reflexivity.
Defined.

(** ** Visits without coordinates *)

Lemma scaleE7_zero : scaleE7 0%float = Int 0.
Proof. vm_compute. reflexivity. Qed.

Lemma scaleE7_nan : scaleE7 nan = NaN.
Proof. vm_compute. reflexivity. Qed.

Lemma locationCoords_none pl :
  truthy pl = false
  \/ (exists plFields, pl = VObject plFields /\ truthy (lookup "latLng" plFields) = false) ->
  locationCoords pl = Ok (0%float, 0%float).
Proof.
  intros [F | [plFields [-> F]]].
  - destruct pl; try discriminate; try reflexivity;
      unfold locationCoords, parseLatLng; now rewrite F.
  - unfold locationCoords. cbn [getOpt get bind]. now rewrite F.
Qed.

Lemma getOpt_total pl k : exists v, getOpt pl k = Ok v.
Proof. destruct pl; cbn; eauto. Qed.

(** X11.  A visit whose top candidate has no place location, or one without
    coordinates, is not dropped: it becomes a PlaceVisit at the scaled
    coordinates [0, 0]. *)
Theorem visit_without_coordinates_is_at_origin fields visit tc pl :
  get visit "topCandidate" = Ok tc ->
  get (orValue tc (VObject [])) "placeLocation" = Ok pl ->
  truthy pl = false
  \/ (exists plFields, pl = VObject plFields /\ truthy (lookup "latLng" plFields) = false) ->
  exists pv,
    convertVisit (VObject fields) visit
    = Ok {| placeVisit := Some pv; activitySegment := None |}
    /\ latitudeE7 (location pv) = Int 0 /\ longitudeE7 (location pv) = Int 0
    /\ centerLatE7 pv = Int 0 /\ centerLngE7 pv = Int 0.
Proof.
  intros Htc Hpl Hno. unfold convertVisit. rewrite Htc. cbn [bind].
  rewrite Hpl. cbn [bind]. rewrite (locationCoords_none pl Hno). cbn [bind fst snd].
  assert (G : forall k, exists v, get (orValue tc (VObject [])) k = Ok v).
  { intros k. unfold orValue. destruct (truthy tc) eqn:T;
      [destruct tc; try discriminate; cbn; eauto|cbn; eauto]. }
  destruct (G "placeId") as [pid ->]. cbn [bind].
  destruct (getOpt_total pl "name") as [nm ->]. cbn [bind].
  destruct (getOpt_total pl "address") as [addr ->]. cbn [bind].
  destruct (G "semanticType") as [sem ->]. cbn [bind].
  destruct (segmentDuration_object fields) as [d ->]. cbn [bind].
  assert (P : exists prob, get visit "probability" = Ok prob).
  { destruct visit; cbn in Htc |- *; eauto; discriminate. }
  destruct P as [prob ->]. cbn [bind]. rewrite scaleE7_zero.
  eexists. split; [reflexivity|]. cbn. repeat split; reflexivity.
Qed.

(** X11 at a visit of which only the time and the probability are known. *)
Lemma visit_without_coordinates_is_at_origin_witness :
  exists pv,
    convertVisit bareSegment (VObject [ ("probability", VNumber 0.5%float) ])
    = Ok {| placeVisit := Some pv; activitySegment := None |}
    /\ latitudeE7 (location pv) = Int 0 /\ longitudeE7 (location pv) = Int 0
    /\ centerLatE7 pv = Int 0 /\ centerLngE7 pv = Int 0.
Proof.
  apply (visit_without_coordinates_is_at_origin _
           (VObject [ ("probability", VNumber 0.5%float) ]) VUndefined VUndefined).
  - reflexivity.
  - reflexivity.
  - left. reflexivity.
Defined.

(** ** Coordinates without a separator *)

Lemma split_no_comma sepRest t : forall cur,
  noComma t = true ->
  Str.split_go (String "," sepRest) cur 0 t = [Str.rev (Str.rev_onto t cur)].
Proof.
  induction t as [|c t IH]; intros cur H; [reflexivity|].
  unfold noComma in H. cbn [allChars] in H. apply andb_prop in H. destruct H as [Hc Ht].
  cbn [Str.split_go Str.stripPrefix]. rewrite Ascii.eqb_sym.
  apply negb_true_iff in Hc. rewrite Hc. cbn [Str.rev_onto]. now apply IH.
Qed.

Lemma stripPrefix_allChars p q : forall s r,
  Str.stripPrefix q s = Some r -> allChars p s = true -> allChars p r = true.
Proof.
  induction q as [|a q IH]; intros s r H A; cbn [Str.stripPrefix] in H.
  - now injection H as <-.
  - destruct s as [|b s]; [discriminate|]. destruct (Ascii.eqb a b); [|discriminate].
    cbn [allChars] in A. apply andb_prop in A. destruct A as [_ A]. eapply IH; eauto.
Qed.

Lemma removeFirst_allChars p q s :
  allChars p s = true -> allChars p (Str.removeFirst q s) = true.
Proof.
  induction s as [|c s IH]; intros A.
  - cbn [Str.removeFirst]. destruct (Str.stripPrefix q EmptyString) eqn:E; [|reflexivity].
    eapply stripPrefix_allChars; eauto.
  - cbn [Str.removeFirst]. destruct (Str.stripPrefix q (String c s)) eqn:E.
    + eapply stripPrefix_allChars; eauto.
    + cbn [allChars] in A |- *. apply andb_prop in A. destruct A as [Hc A].
      rewrite Hc. now apply IH.
Qed.

Lemma parseLatLng_no_comma s :
  s <> EmptyString -> noComma s = true ->
  exists lat, parseLatLng (VString s) = Ok (lat, nan).
Proof.
  intros N C. unfold parseLatLng. cbn [truthy].
  destruct s as [|c s]; [congruence|]. cbn [Str.isEmpty negb].
  destruct (Str.startsWith (String c s) "geo:");
    unfold Str.split; rewrite split_no_comma by (now apply removeFirst_allChars);
    eexists; reflexivity.
Qed.

(** X12.  A coordinate text without a comma raises no error: [parseLatLng]
    returns NaN for the longitude, and a visit located by such a text gets
    the scaled longitude NaN. *)
Theorem coordinates_without_comma_give_NaN fields visit tc s :
  get visit "topCandidate" = Ok tc -> truthy tc = true ->
  get tc "placeLocation" = Ok (VString s) ->
  s <> EmptyString -> noComma s = true ->
  (exists lat, parseLatLng (VString s) = Ok (lat, nan))
  /\ exists pv,
       convertVisit (VObject fields) visit
       = Ok {| placeVisit := Some pv; activitySegment := None |}
       /\ longitudeE7 (location pv) = NaN
       /\ centerLngE7 pv = NaN.
Proof.
  intros Htc T Hpl N C. destruct (parseLatLng_no_comma s N C) as [lat P].
  split; [now exists lat|].
  destruct (convertVisit_record fields visit tc (VString s) s (lat, nan) Htc T Hpl
              (or_introl eq_refl) P)
    as [pv [prob [E [_ [_ [Hlng [_ [Hc _]]]]]]]].
  exists pv. split; [exact E|]. cbn [snd] in Hlng.
  assert (R : Math_round (PrimFloat.mul nan 1e7) = NaN) by (vm_compute; reflexivity).
  rewrite R in Hlng. split; [exact Hlng|]. now rewrite Hc.
Qed.

(** X12 at a [geo:] text with one number. *)
Lemma coordinates_without_comma_give_NaN_witness :
  (exists lat, parseLatLng (VString "geo:40.0") = Ok (lat, nan))
  /\ exists pv,
       convertVisit (VObject [])
         (VObject [ ("topCandidate", VObject [ ("placeLocation", VString "geo:40.0") ]) ])
       = Ok {| placeVisit := Some pv; activitySegment := None |}
       /\ longitudeE7 (location pv) = NaN
       /\ centerLngE7 pv = NaN.
Proof.
  apply (coordinates_without_comma_give_NaN []
           (VObject [ ("topCandidate", VObject [ ("placeLocation", VString "geo:40.0") ]) ])
           (VObject [ ("placeLocation", VString "geo:40.0") ]) "geo:40.0").
  - reflexivity.
  - reflexivity.
  - reflexivity.
  - discriminate.
  - reflexivity.
Defined.

(* ================================================================= *)
(** ** The serialisers *)

Lemma recordRows_length obj :
  List.length (recordRows obj) = if hasBranch obj then 1 else 0.
Proof.
  unfold recordRows, hasBranch.
  destruct (placeVisit obj); [reflexivity|]. now destruct (activitySegment obj).
Qed.

Lemma rows_of_records data :
  List.length (flat_map recordRows data) = List.length (filter hasBranch data).
Proof.
  induction data as [|obj data IH]; cbn [flat_map filter]; [reflexivity|].
  rewrite length_app, recordRows_length. destruct (hasBranch obj); cbn; lia.
Qed.

Lemma readCSV_convertToCSV q data :
  readCSV (convertToCSV q data) = Some (map (map (cellText q)) (csvRows data)).
Proof.
  rewrite convertToCSV_tableText. unfold readCSV. rewrite read_table; [reflexivity| |].
  - unfold csvRows. discriminate.
  - apply Forall_map. eapply Forall_impl; [|apply csvRows_cells].
    cbv beta. intros row H E. apply (f_equal (@List.length _)) in E.
    rewrite length_map in E. rewrite H in E. discriminate.
Qed.

(** X13.  For records of any shape, the CSV text reads back as the header
    and one row for every record that has a placeVisit or an
    activitySegment: a record with neither gets no row, and a record with
    both gets the one row of its visit. *)
Theorem csv_has_a_row_per_record_with_a_branch q data :
  exists table,
    readCSV (convertToCSV q data) = Some table
    /\ List.length table = 1 + List.length (filter hasBranch data)
    /\ table
       = map (cellText q) headerRow
         :: flat_map (fun obj => map (map (cellText q)) (recordRows obj)) data
    /\ (forall obj pv,
          placeVisit obj = Some pv ->
          exists rest, map (map (cellText q)) (recordRows obj) = [ "Visit" :: rest ]).
Proof.
  eexists. split; [apply readCSV_convertToCSV|]. split; [|split].
  - rewrite length_map. unfold csvRows. cbn [List.length]. now rewrite rows_of_records.
  - unfold csvRows. cbn [map]. f_equal. clear.
    induction data as [|obj data IH]; cbn [flat_map map]; [reflexivity|].
    now rewrite map_app, IH.
  - intros obj pv H. unfold recordRows. rewrite H. cbn. eexists. reflexivity.
Qed.

(** X13 at a record with neither branch and a record with both. *)
Lemma csv_has_a_row_per_record_with_a_branch_witness :
  exists table,
    readCSV (convertToCSV sampleDegrees [walk; neitherBranch; visitAndActivity]) = Some table
    /\ List.length table = 3
    /\ exists rest,
         map (map (cellText sampleDegrees)) (recordRows visitAndActivity)
         = [ "Visit" :: rest ].
Proof.
  destruct (csv_has_a_row_per_record_with_a_branch sampleDegrees
              [walk; neitherBranch; visitAndActivity])
    as [table [R [L [_ V]]]].
  exists table. split; [exact R|]. split; [exact L|].
  destruct (placeVisit visitAndActivity) as [pv|] eqn:E; [|discriminate E].
  exact (V visitAndActivity pv E).
Defined.

Lemma flat_map_concat {A B} (F : A -> list B) (ls : list (list A)) :
  flat_map (flat_map F) ls = flat_map F (List.concat ls).
Proof.
  induction ls as [|l ls IH]; cbn [flat_map List.concat]; [reflexivity|].
  now rewrite flat_map_app, IH.
Qed.

(** X14.  Splitting loses and repeats nothing in the exports: for a positive
    chunk size, the data rows of the CSV tables of the chunks, one after the
    other, are the data rows of the table of the whole, and the same holds
    for the visits that become the placemarks of the KML texts; every chunk
    has the header row and the KML frame of its own. *)
Theorem split_exports_cover_the_whole q (data : list TimelineObject) chunkSize :
  0 < chunkSize ->
  flat_map (fun chunk => tl (csvRows chunk)) (splitIntoChunks data chunkSize)
  = tl (csvRows data)
  /\ flat_map visitsOf (splitIntoChunks data chunkSize) = visitsOf data
  /\ Forall (fun chunk =>
               hd_error (csvRows chunk) = Some headerRow
               /\ convertToKML q chunk
                  = (kmlHeader
                     ++ String.concat EmptyString (map (placemark q) (visitsOf chunk))
                     ++ kmlFooter)%string)
            (splitIntoChunks data chunkSize).
Proof.
  intros Hk. destruct (splitIntoChunks_spec data chunkSize Hk) as [C _].
  split; [|split].
  - unfold csvRows. cbn [tl]. rewrite <- C at 2. apply flat_map_concat.
  - unfold visitsOf. rewrite <- C at 2. apply flat_map_concat.
  - apply Forall_forall. intros chunk _. split; [reflexivity|].
    apply convertToKML_placemarks.
Qed.

(** X14 at five records in chunks of two. *)
Lemma split_exports_cover_the_whole_witness :
  flat_map (fun chunk => tl (csvRows chunk))
    (splitIntoChunks [walk; cafeById; drive; cornerShop; cafeByAddress] 2)
  = tl (csvRows [walk; cafeById; drive; cornerShop; cafeByAddress])
  /\ flat_map visitsOf (splitIntoChunks [walk; cafeById; drive; cornerShop; cafeByAddress] 2)
     = visitsOf [walk; cafeById; drive; cornerShop; cafeByAddress].
Proof.
  destruct (split_exports_cover_the_whole sampleDegrees
              [walk; cafeById; drive; cornerShop; cafeByAddress] 2 ltac:(lia))
    as [R [V _]].
  split; [exact R|exact V].
Defined.

Lemma visitsOf_filter data : visitsOf (filter isPlaceVisit data) = visitsOf data.
Proof.
  unfold visitsOf, isPlaceVisit. induction data as [|obj data IH]; [reflexivity|].
  cbn [filter flat_map]. destruct (placeVisit obj) eqn:E; cbn [flat_map].
  - now rewrite E, IH.
  - exact IH.
Qed.

(** X15.  The KML text shows visits only: it is the text of the visits among
    the records, and for records without a visit it is the bare frame, with
    no placemark. *)
Theorem kml_shows_visits_only q data :
  convertToKML q data = convertToKML q (filter isPlaceVisit data)
  /\ (filter isPlaceVisit data = [] ->
      convertToKML q data = (kmlHeader ++ kmlFooter)%string).
Proof.
  split.
  - now rewrite !convertToKML_placemarks, visitsOf_filter.
  - intros H. rewrite convertToKML_placemarks, <- visitsOf_filter, H. reflexivity.
Qed.

(** X15 at two activity segments. *)
Lemma kml_shows_visits_only_witness :
  convertToKML sampleDegrees [walk; drive] = (kmlHeader ++ kmlFooter)%string.
Proof.
  apply (proj2 (kml_shows_visits_only sampleDegrees [walk; drive])). reflexivity.
Defined.

Lemma escapeChar_plain c : isPlain c = true -> escapeChar c = String c EmptyString.
Proof.
  unfold isPlain, escapeChar. intros H. apply negb_true_iff in H.
  repeat (apply orb_false_elim in H; destruct H as [H ?]).
  repeat match goal with E : Ascii.eqb _ _ = false |- _ => rewrite E; clear E end.
  reflexivity.
Qed.

(** X16.  [escapeXml] changes nothing in a text without the five characters
    of its class, and never shortens a text. *)
Theorem escapeXml_keeps_plain_text :
  (forall s, allChars isPlain s = true -> escapeXml s = s)
  /\ (forall s, String.length s <= String.length (escapeXml s)).
Proof.
  split.
  - induction s as [|c s IH]; intros H; [reflexivity|].
    cbn [allChars] in H. apply andb_prop in H. destruct H as [Hc Hs].
    cbn [escapeXml]. rewrite (escapeChar_plain c Hc), (IH Hs). reflexivity.
  - induction s as [|c s IH]; [reflexivity|]. cbn [escapeXml String.length].
    assert (L : 1 <= String.length (escapeChar c)).
    { unfold escapeChar.
      repeat match goal with |- context [if ?b then _ else _] => destruct b end;
        cbn; lia. }
    revert L. generalize (escapeChar c). intros e L.
    assert (A : forall a b, String.length (a ++ b) = String.length a + String.length b).
    { induction a as [|x a IHa]; intros b; cbn; [reflexivity|]. now rewrite IHa. }
    rewrite A. lia.
Qed.

(** X16 at a name of letters and a blank. *)
Lemma escapeXml_keeps_plain_text_witness : escapeXml "Corner shop" = "Corner shop".
Proof.
  apply (proj1 escapeXml_keeps_plain_text "Corner shop"). reflexivity.
Defined.

(* ================================================================= *)
(** ** The chunker at any size *)

Section ChunkCount.

Context {A : Type}.
Variable data : list A.
Variable chunkSize : nat.
Hypothesis chunkSize_pos : 0 < chunkSize.

Lemma ceil_step d :
  0 < d -> (d + chunkSize - 1) / chunkSize = S ((d - chunkSize + chunkSize - 1) / chunkSize).
Proof.
  intros Hd. destruct (Nat.le_gt_cases chunkSize d) as [L|L].
  - replace (d + chunkSize - 1) with ((d - 1) + 1 * chunkSize) by lia.
    rewrite Nat.div_add by lia. replace (d - chunkSize + chunkSize - 1) with (d - 1) by lia.
    lia.
  - replace (d - chunkSize + chunkSize - 1) with (chunkSize - 1) by lia.
    rewrite (Nat.div_small (chunkSize - 1)) by lia.
    symmetry. apply (Nat.div_unique _ _ 1 (d - 1)); lia.
Qed.

Lemma chunkLoop_count fuel : forall i,
  List.length data - i <= fuel ->
  List.length (chunkLoop fuel data chunkSize i)
  = (List.length data - i + chunkSize - 1) / chunkSize.
Proof.
  induction fuel as [|fuel IH]; intros i Hf; cbn [chunkLoop].
  - replace (List.length data - i) with 0 by lia. cbn [List.length].
    symmetry. apply Nat.div_small. lia.
  - destruct (Nat.ltb_spec i (List.length data)) as [L|L].
    + cbn [List.length]. rewrite IH by lia. rewrite (ceil_step (List.length data - i)) by lia.
      do 2 f_equal. lia.
    + replace (List.length data - i) with 0 by lia. cbn [List.length].
      symmetry. apply Nat.div_small. lia.
Qed.

Lemma chunkLoop_nth j : forall fuel i,
  List.length data - i <= fuel ->
  i + j * chunkSize < List.length data ->
  nth_error (chunkLoop fuel data chunkSize i) j
  = Some (firstn chunkSize (skipn (i + j * chunkSize) data)).
Proof.
  induction j as [|j IH]; intros fuel i Hf L.
  - destruct fuel as [|fuel]; [lia|]. cbn [chunkLoop].
    destruct (Nat.ltb_spec i (List.length data)) as [_|]; [|lia].
    cbn [nth_error]. unfold slice. do 3 f_equal; lia.
  - destruct fuel as [|fuel]; [lia|]. cbn [chunkLoop].
    destruct (Nat.ltb_spec i (List.length data)) as [_|]; [|lia].
    cbn [nth_error]. rewrite IH by lia. do 3 f_equal. lia.
Qed.

End ChunkCount.

(** X17.  For any positive chunk size, [splitIntoChunks] makes as many
    chunks as the length divided by the size, rounded up; the chunk of
    index [j] holds the records from position [j * chunkSize] on, up to
    [chunkSize] of them; no chunk is empty, and no records give no chunk. *)
Theorem chunks_by_position {A} (data : list A) chunkSize :
  0 < chunkSize ->
  List.length (splitIntoChunks data chunkSize)
  = (List.length data + chunkSize - 1) / chunkSize
  /\ (forall j, j * chunkSize < List.length data ->
        nth_error (splitIntoChunks data chunkSize) j
        = Some (firstn chunkSize (skipn (j * chunkSize) data)))
  /\ Forall (fun chunk => chunk <> []) (splitIntoChunks data chunkSize)
  /\ (data = [] -> splitIntoChunks data chunkSize = []).
Proof.
  intros Hk. unfold splitIntoChunks. split; [|split; [|split]].
  - rewrite chunkLoop_count by lia. now rewrite Nat.sub_0_r.
  - intros j L. now rewrite chunkLoop_nth by lia.
  - eapply Forall_impl; [|apply (chunkLoop_bounded data chunkSize Hk)].
    cbv beta. intros chunk [H _] ->. cbn in H. lia.
  - intros ->. reflexivity.
Qed.

(** X17 at seven records in chunks of three. *)
Lemma chunks_by_position_witness :
  List.length (splitIntoChunks [1; 2; 3; 4; 5; 6; 7] 3) = (7 + 3 - 1) / 3
  /\ nth_error (splitIntoChunks [1; 2; 3; 4; 5; 6; 7] 3) 2
     = Some (firstn 3 (skipn (2 * 3) [1; 2; 3; 4; 5; 6; 7])).
Proof.
  destruct (chunks_by_position [1; 2; 3; 4; 5; 6; 7] 3 ltac:(lia)) as [C [N _]].
  split; [exact C|]. apply N. cbn. lia.
Defined.

(** ** The number of files of a run *)

Lemma renderFiles_lengths host splitFilesOpt cleaned :
  List.length (fst (renderFiles host splitFilesOpt cleaned))
  = (if splitFilesOpt && (2000 <? List.length cleaned)%nat
     then (List.length cleaned + 1999) / 2000 else 1)
  /\ List.length (snd (renderFiles host splitFilesOpt cleaned))
     = List.length (fst (renderFiles host splitFilesOpt cleaned)).
Proof.
  unfold renderFiles.
  destruct (splitFilesOpt && (2000 <? List.length cleaned)%nat); cbn [fst snd].
  - rewrite !length_map. unfold splitIntoChunks.
    rewrite (chunkLoop_count cleaned 2000) by lia.
    split; [|reflexivity]. f_equal. lia.
  - split; reflexivity.
Qed.

(** X18.  A run makes as many KML texts as CSV texts, and at least one of
    each; it makes exactly one of each unless [splitFiles] is set and there
    are more than 2000 records, and then it makes at least two: the number
    of records divided by 2000, rounded up. *)
Theorem files_of_a_run host splitFilesOpt cleaned :
  let csvFiles := fst (renderFiles host splitFilesOpt cleaned) in
  let kmlFiles := snd (renderFiles host splitFilesOpt cleaned) in
  List.length kmlFiles = List.length csvFiles
  /\ 1 <= List.length csvFiles
  /\ (splitFilesOpt = false \/ List.length cleaned <= 2000 -> List.length csvFiles = 1)
  /\ (splitFilesOpt = true -> 2000 < List.length cleaned ->
      2 <= List.length csvFiles
      /\ List.length csvFiles = (List.length cleaned + 1999) / 2000).
Proof.
  cbv zeta. destruct (renderFiles_lengths host splitFilesOpt cleaned) as [C K].
  split; [exact K|]. rewrite C.
  assert (G : 2000 < List.length cleaned -> 2 <= (List.length cleaned + 1999) / 2000).
  { intros L. apply (Nat.div_le_lower_bound _ 2000 2); lia. }
  split; [|split].
  - destruct splitFilesOpt; cbn [andb]; [|lia].
    destruct (Nat.ltb_spec 2000 (List.length cleaned)); [|lia]. specialize (G ltac:(lia)). lia.
  - intros [-> | L]; [reflexivity|].
    apply Nat.ltb_ge in L. rewrite L. now rewrite andb_false_r.
  - intros -> L. cbn [andb]. apply Nat.ltb_lt in L as L'. rewrite L'. split; [now apply G|reflexivity].
Qed.

(** X18 at 4001 records. *)
Lemma files_of_a_run_witness :
  2 <= List.length (fst (renderFiles sampleHost true (repeat walk 4001)))
  /\ List.length (fst (renderFiles sampleHost true (repeat walk 4001)))
     = (List.length (repeat walk 4001) + 1999) / 2000.
Proof.
  apply (proj2 (proj2 (proj2 (files_of_a_run sampleHost true (repeat walk 4001))))).
  - reflexivity.
  - rewrite repeat_length. lia.
Defined.

(* ================================================================= *)
(** ** The archive of a download *)

Lemma string_length_app (a b : string) :
  String.length (a ++ b) = String.length a + String.length b.
Proof. induction a as [|x a IH]; cbn; [reflexivity|]. now rewrite IH. Qed.

Lemma append_inv_tail (s : string) : forall a b : string,
  (a ++ s)%string = (b ++ s)%string -> a = b.
Proof.
  induction a as [|x a IH]; intros [|y b] H; cbn in H.
  - reflexivity.
  - apply (f_equal String.length) in H. cbn in H. rewrite string_length_app in H. lia.
  - apply (f_equal String.length) in H. cbn in H. rewrite string_length_app in H. lia.
  - injection H as -> H. f_equal. now apply IH.
Qed.

Lemma natToString_inj a b : natToString a = natToString b -> a = b.
Proof.
  unfold natToString. intros H.
  assert (R : forall n, NilZero.uint_of_string (NilZero.string_of_uint (Nat.to_uint n))
                        = Some (Nat.to_uint n)).
  { intros n. apply NilZero.usu. intros E.
    pose proof (DecimalNat.Unsigned.of_to n) as T. rewrite E in T. cbn in T. subst n.
    discriminate E. }
  pose proof (R a) as Ra. rewrite H, R in Ra. injection Ra as E.
  symmetry. now apply DecimalNat.Unsigned.to_uint_inj.
Qed.

Lemma zipFileName_inj count baseName extension i j :
  count <> 1 ->
  zipFileName count baseName extension i = zipFileName count baseName extension j ->
  i = j.
Proof.
  intros N. unfold zipFileName. apply Nat.eqb_neq in N. rewrite N. intros H.
  apply append_inv_head in H. apply (append_inv_head "_part") in H.
  apply append_inv_tail in H. apply natToString_inj in H. lia.
Qed.

Lemma zipFileNames_NoDup count baseName extension :
  NoDup (map (zipFileName count baseName extension) (seq 0 count)).
Proof.
  destruct (Nat.eq_dec count 1) as [->|N].
  - cbn. repeat constructor. intros [].
  - generalize (seq_NoDup count 0). generalize (seq 0 count). intros l.
    induction 1 as [|i l Hi _ IH]; cbn [map]; constructor; [|exact IH].
    intros H. apply in_map_iff in H. destruct H as [j [E Hj]].
    apply zipFileName_inj in E; [|exact N]. now subst.
Qed.

Lemma set_absent {V} k (v : V) m :
  ~ In k (JsMap.keys m) -> JsMap.set k v m = m ++ [(k, v)].
Proof.
  unfold JsMap.keys. induction m as [|[k' v'] m IH]; intros H; cbn [JsMap.set app].
  - reflexivity.
  - cbn [map fst In] in H. destruct (String.eqb_spec k' k) as [->|_]; [tauto|].
    rewrite IH by tauto. reflexivity.
Qed.

Lemma fold_set_distinct {E V} (name : E -> string) (content : E -> V) entries : forall zip,
  NoDup (JsMap.keys zip ++ map name entries) ->
  fold_left (fun z e => JsMap.set (name e) (content e) z) entries zip
  = zip ++ map (fun e => (name e, content e)) entries.
Proof.
  induction entries as [|e entries IH]; intros zip N; cbn [fold_left map].
  - now rewrite app_nil_r.
  - rewrite set_absent.
    + rewrite IH; [now rewrite <- app_assoc|].
      unfold JsMap.keys in *. rewrite map_app. cbn [map fst]. now rewrite <- app_assoc.
    + cbn [map] in N. apply NoDup_remove_2 in N. intros H. apply N.
      apply in_app_iff. now left.
Qed.

Lemma map_combine_seq {B C} (f : nat -> C) (l : list B) : forall start,
  map (fun e : nat * B => f (fst e)) (combine (seq start (List.length l)) l)
  = map f (seq start (List.length l)).
Proof.
  induction l as [|x l IH]; intros start; cbn; [reflexivity|]. now rewrite IH.
Qed.

Lemma map_snd_combine_seq {B} (l : list B) : forall start,
  map (fun e : nat * B => snd e) (combine (seq start (List.length l)) l) = l.
Proof.
  induction l as [|x l IH]; intros start; cbn; [reflexivity|]. now rewrite IH.
Qed.

Lemma zipFiles_entries files baseName extension :
  zipFiles files baseName extension
  = map (fun e => (zipFileName (List.length files) baseName extension (fst e), snd e))
        (combine (seq 0 (List.length files)) files).
Proof.
  unfold zipFiles.
  rewrite (fold_set_distinct
             (fun e : nat * string =>
                zipFileName (List.length files) baseName extension (fst e)) snd).
  - reflexivity.
  - cbn [JsMap.keys JsMap.empty map app]. rewrite map_combine_seq.
    apply zipFileNames_NoDup.
Qed.

Lemma archive_entries_in_order files baseName extension :
  JsMap.values (zipFiles files baseName extension) = files.
Proof.
  rewrite zipFiles_entries. unfold JsMap.values. rewrite map_map. cbn [snd].
  apply map_snd_combine_seq.
Qed.

(** X19.  In the archive [downloadZip] builds, every file has an entry of
    its own, in order and with its content: no [zip.file] replaces an earlier
    entry, since the names are pairwise distinct; a single file is named
    without a part number, the others by their position counted from 1. *)
Theorem archive_holds_every_file files baseName extension :
  JsMap.values (zipFiles files baseName extension) = files
  /\ NoDup (JsMap.keys (zipFiles files baseName extension))
  /\ JsMap.keys (zipFiles files baseName extension)
     = map (zipFileName (List.length files) baseName extension)
           (seq 0 (List.length files))
  /\ (forall only, files = [only] ->
        zipFiles files baseName extension = [((baseName ++ "." ++ extension)%string, only)])
  /\ (forall i content,
        List.length files <> 1 -> nth_error files i = Some content ->
        JsMap.get (baseName ++ "_part" ++ natToString (i + 1) ++ "." ++ extension)
                  (zipFiles files baseName extension)
        = Some content).
Proof.
  assert (K : JsMap.keys (zipFiles files baseName extension)
              = map (zipFileName (List.length files) baseName extension)
                    (seq 0 (List.length files))).
  { rewrite zipFiles_entries. unfold JsMap.keys. rewrite map_map. cbn [fst].
    apply map_combine_seq. }
  split; [|split; [|split; [|split]]].
  - apply archive_entries_in_order.
  - rewrite K. apply zipFileNames_NoDup.
  - exact K.
  - intros only ->. reflexivity.
  - intros i content N H. rewrite zipFiles_entries.
    assert (G : forall (l : list string) start j c,
               nth_error l j = Some c ->
               (forall a b, In a (seq start (List.length l)) ->
                            zipFileName (List.length files) baseName extension a
                            = zipFileName (List.length files) baseName extension b ->
                            a = b) ->
               JsMap.get (zipFileName (List.length files) baseName extension (start + j))
                 (map (fun e : nat * string =>
                         (zipFileName (List.length files) baseName extension (fst e), snd e))
                      (combine (seq start (List.length l)) l))
               = Some c).
    { induction l as [|x l IH]; intros start j c Hj Inj; [destruct j; discriminate|].
      cbn [List.length seq combine map JsMap.get fst snd].
      destruct j as [|j]; cbn [nth_error] in Hj.
      - injection Hj as ->. rewrite Nat.add_0_r. now rewrite String.eqb_refl.
      - destruct (String.eqb_spec
                    (zipFileName (List.length files) baseName extension start)
                    (zipFileName (List.length files) baseName extension (start + S j)))
          as [E|_].
        + apply Inj in E; [lia|]. cbn [List.length seq]. now left.
        + replace (start + S j) with (S start + j) by lia. apply IH; [exact Hj|].
          intros a b Ha. apply Inj. cbn [List.length seq]. now right. }
    specialize (G files 0 i content H).
    cbn [Nat.add] in G.
    assert (Z : zipFileName (List.length files) baseName extension i
                = (baseName ++ "_part" ++ natToString (i + 1) ++ "." ++ extension)%string).
    { unfold zipFileName. apply Nat.eqb_neq in N. now rewrite N. }
    rewrite <- Z. apply G.
    intros a b _. apply zipFileName_inj. exact N.
Qed.

(** X19 at the three CSV texts of a split run. *)
Lemma archive_holds_every_file_witness :
  JsMap.get "timeline_converted_part2.csv"
    (zipFiles ["first"; "second"; "third"] "timeline_converted" "csv")
  = Some "second".
Proof.
  apply (proj2 (proj2 (proj2 (proj2
           (archive_holds_every_file ["first"; "second"; "third"]
              "timeline_converted" "csv")))) 1 "second").
  - cbn. lia.
  - reflexivity.
Defined.

Lemma buildResults_files host opts combined allLogs :
  let cleaned := fst (cleanData (removeActivities opts) (removeDuplicates opts)
                        (random host) combined) in
  csv (buildResults host opts combined allLogs)
  = fst (renderFiles host (splitFiles opts) cleaned)
  /\ kml (buildResults host opts combined allLogs)
     = snd (renderFiles host (splitFiles opts) cleaned).
Proof.
  cbv zeta. unfold buildResults.
  destruct (cleanData (removeActivities opts) (removeDuplicates opts)
              (random host) combined) as [cleaned stats].
  cbn [fst]. destruct (renderFiles host (splitFiles opts) cleaned) as [csvFiles kmlFiles].
  split; reflexivity.
Qed.

Lemma downloadCsv_zip zipWorks r :
  2 <= List.length (csv r) ->
  downloadCsv zipWorks r = downloadZip zipWorks (csv r) "timeline_converted" "csv".
Proof.
  unfold downloadCsv. destruct (csv r) as [|a [|b l]]; cbn [List.length]; intros H;
    [lia|lia|reflexivity].
Qed.

Lemma downloadKml_zip zipWorks r :
  2 <= List.length (kml r) ->
  downloadKml zipWorks r = downloadZip zipWorks (kml r) "timeline_converted" "kml".
Proof.
  unfold downloadKml. destruct (kml r) as [|a [|b l]]; cbn [List.length]; intros H;
    [lia|lia|reflexivity].
Qed.

(** X20.  What a click on the CSV or KML button comes to after a run.  When
    the run was not split, the one text is handed over under the name
    [timeline_converted.csv] or [timeline_converted.kml].  When it was split
    and every step of [downloadZip] succeeds, an archive
    [timeline_converted.zip] is handed over whose entries are the texts of
    the chunks, in order, none missing; when a step fails, nothing is handed
    over and the error is the one of its [catch]. *)
Theorem downloads_of_a_run host opts combined allLogs :
  let cleaned := fst (cleanData (removeActivities opts) (removeDuplicates opts)
                        (random host) combined) in
  let r := buildResults host opts combined allLogs in
  (splitFiles opts = false \/ List.length cleaned <= 2000 ->
   forall zipWorks,
     downloadCsv zipWorks r
     = OneFile (convertToCSV (divE7 host) cleaned) "timeline_converted.csv" "text/csv"
     /\ downloadKml zipWorks r
        = OneFile (convertToKML (divE7 host) cleaned) "timeline_converted.kml"
            "application/vnd.google-earth.kml+xml")
  /\ (splitFiles opts = true -> 2000 < List.length cleaned ->
      (exists csvArchive kmlArchive,
         downloadCsv true r = Archive csvArchive "timeline_converted.zip"
         /\ downloadKml true r = Archive kmlArchive "timeline_converted.zip"
         /\ JsMap.values csvArchive
            = map (convertToCSV (divE7 host)) (splitIntoChunks cleaned 2000)
         /\ JsMap.values kmlArchive
            = map (convertToKML (divE7 host)) (splitIntoChunks cleaned 2000))
      /\ downloadCsv false r
         = NoDownload "Failed to create zip file. Please try downloading files individually."
      /\ downloadKml false r
         = NoDownload "Failed to create zip file. Please try downloading files individually.").
Proof.
  cbv zeta. destruct (buildResults_files host opts combined allLogs) as [C K].
  cbv zeta in C, K.
  set (cleaned := fst (cleanData (removeActivities opts) (removeDuplicates opts)
                         (random host) combined)) in *.
  split.
  - intros H zipWorks. unfold downloadCsv, downloadKml. rewrite C, K. unfold renderFiles.
    assert (E : splitFiles opts && (2000 <? List.length cleaned)%nat = false).
    { destruct H as [-> | L]; [reflexivity|].
      apply Nat.ltb_ge in L. rewrite L. apply andb_false_r. }
    rewrite E. cbn [fst snd]. split; reflexivity.
  - intros S L.
    destruct (renderFiles_lengths host (splitFiles opts) cleaned) as [Lc Lk].
    assert (G : 2 <= (List.length cleaned + 1999) / 2000)
      by (apply (Nat.div_le_lower_bound _ 2000 2); lia).
    rewrite S in *. apply Nat.ltb_lt in L as L'. rewrite L' in Lc. cbn [andb] in Lc.
    assert (Gc : 2 <= List.length (csv (buildResults host opts combined allLogs)))
      by (rewrite C; lia).
    assert (Gk : 2 <= List.length (kml (buildResults host opts combined allLogs)))
      by (rewrite K; lia).
    split; [|split].
    + exists (zipFiles (csv (buildResults host opts combined allLogs))
                "timeline_converted" "csv"),
             (zipFiles (kml (buildResults host opts combined allLogs))
                "timeline_converted" "kml").
      split; [now rewrite downloadCsv_zip|]. split; [now rewrite downloadKml_zip|].
      rewrite !archive_entries_in_order, C, K. unfold renderFiles.
      rewrite L'. cbn [andb fst snd]. split; reflexivity.
    + now rewrite downloadCsv_zip.
    + now rewrite downloadKml_zip.
Qed.

(** X20 at four records, which make one file of each kind. *)
Lemma downloads_of_a_run_witness :
  downloadCsv false
    (buildResults sampleHost sampleOptions [walk; cafeById; cafeById; drive] [])
  = OneFile (convertToCSV sampleDegrees [cafeById]) "timeline_converted.csv" "text/csv"
  /\ downloadKml false
       (buildResults sampleHost sampleOptions [walk; cafeById; cafeById; drive] [])
     = OneFile (convertToKML sampleDegrees [cafeById]) "timeline_converted.kml"
         "application/vnd.google-earth.kml+xml".
Proof.
  apply (proj1 (downloads_of_a_run sampleHost sampleOptions
                  [walk; cafeById; cafeById; drive] [])).
  right. cbn. lia.
Defined.

(* ================================================================= *)
(** ** The batch, file by file *)

Lemma bind_frame {A B} (r : result A) (k k' : A -> result B) (F : B -> B) :
  (forall a, k a = match k' a with Ok b => Ok (F b) | Throw e => Throw e end) ->
  bind r k = match bind r k' with Ok b => Ok (F b) | Throw e => Throw e end.
Proof. intros H. destruct r; cbn; [apply H|reflexivity]. Qed.

(** What a file adds to the records and to the logs does not depend on what
    the files before it left there. *)
Lemma processFile_frame host f st :
  processFile host f st
  = match processFile host f ([], []) with
    | Ok new => Ok (fst st ++ fst new, snd st ++ snd new)
    | Throw e => Throw e
    end.
Proof.
  unfold processFile. cbn [fst snd app].
  destruct (JSON_parse host (fileText f)) as [data|parseMessage]; [|reflexivity].
  set (intro := (nl ++ "--- Processing file: " ++ fileName f ++ " ---")%string).
  set (parsed := tagged (fileName f) "Successfully parsed JSON").
  assert (L : forall (extra : list string),
            (snd st ++ [intro]) ++ [parsed] ++ extra = snd st ++ [intro; parsed] ++ extra).
  { intros extra. now rewrite <- !app_assoc. }
  destruct data as [| |b|x|s|items|fields]; cbn [isArray typeofObject get objectKeys bind orb truthy].
  - reflexivity.
  - reflexivity.
  - destruct (truthy VUndefined); reflexivity.
  - reflexivity.
  - change (String.eqb "semanticSegments" "length") with false.
    change (String.eqb "timelineObjects" "length") with false. reflexivity.
  - destruct (convertNewToOld (typeErrorText host) (VArray items) (fileName f))
      as [[records logs]|e]; cbn [bind fst snd]; [|reflexivity].
    now rewrite <- !app_assoc.
  - destruct (truthy (lookup "semanticSegments" fields)).
    + destruct (convertNewToOld (typeErrorText host) (VObject fields) (fileName f))
        as [[records logs]|e]; cbn [bind fst snd]; [|reflexivity].
      now rewrite <- !app_assoc.
    + destruct (truthy (lookup "timelineObjects" fields)); [|reflexivity].
      destruct (spreadLegacy host (lookup "timelineObjects" fields)); cbn [bind fst snd];
        [|reflexivity].
      now rewrite <- !app_assoc.
Qed.

Lemma processAll_accepted host files : forall reads st,
  Forall (accepted host) files ->
  processAll host files reads st
  = (reads ++ map fileName files,
     Ok (fst st ++ flat_map (recordsOf host) files,
         snd st ++ flat_map (logsOf host) files)).
Proof.
  induction files as [|f files IH]; intros reads [records logs] A;
    cbn [processAll map flat_map fst snd].
  - now rewrite !app_nil_r.
  - inversion A as [|? ? Hf A']; subst. rewrite processFile_frame.
    unfold recordsOf, logsOf. destruct (Hf ([], [])) as [new ->].
    rewrite (IH _ _ A'). cbn [fst snd]. now rewrite <- !app_assoc.
Qed.

(** X21.  Within the loop, files are processed independently and in order:
    what a file adds to the records and to the log lines does not depend on
    the files before it, and when the loop has taken every file of a batch,
    the records are those of the files, one file after the other, and so are
    the log lines. *)
Theorem batch_is_its_files_in_order host :
  (forall f st,
     processFile host f st
     = match processFile host f ([], []) with
       | Ok new => Ok (fst st ++ fst new, snd st ++ snd new)
       | Throw e => Throw e
       end)
  /\ (forall files reads st,
        Forall (accepted host) files ->
        processAll host files reads st
        = (reads ++ map fileName files,
           Ok (fst st ++ flat_map (recordsOf host) files,
               snd st ++ flat_map (logsOf host) files))).
Proof.
  split; [apply processFile_frame|]. intros files reads st A.
  now apply processAll_accepted.
Qed.

(** X21 at a legacy file followed by the file of the first scenario. *)
Lemma batch_is_its_files_in_order_witness :
  processAll sampleHost [file "a.json" legacyText; file "c.json" cafeText] [] ([], [])
  = ([] ++ map fileName [file "a.json" legacyText; file "c.json" cafeText],
     Ok ([] ++ flat_map (recordsOf sampleHost)
                 [file "a.json" legacyText; file "c.json" cafeText],
         [] ++ flat_map (logsOf sampleHost)
                 [file "a.json" legacyText; file "c.json" cafeText])).
Proof.
  apply (proj2 (batch_is_its_files_in_order sampleHost)
           [file "a.json" legacyText; file "c.json" cafeText] [] ([], [])).
  constructor; [|constructor; [|constructor]];
    intros st; rewrite processFile_frame; eexists; vm_compute; reflexivity.
Defined.

(** ** Documents that end a file with a [TypeError] *)

Lemma malformed_throws host f te :
  malformed host f te -> forall st, processFile host f st = Throw (TypeError te).
Proof.
  intros [P | data ss P A Hss T NA | data ss tl P A Hss Tss Htl Ttl S] st;
    unfold processFile; rewrite P.
  - reflexivity.
  - assert (K : exists keys, objectKeys data = Ok keys)
      by (destruct data; cbn in Hss |- *; eauto; discriminate).
    destruct K as [keys K]. rewrite K, A, Hss. cbn [orb].
    assert (C : convertNewToOld (typeErrorText host) data (fileName f)
                = Throw (TypeError (NotAFunction "segments.forEach"))).
    { unfold convertNewToOld. rewrite A, Hss. cbn [bind]. rewrite T. cbn [bind].
      destruct ss; try reflexivity; discriminate. }
    destruct data; try discriminate; cbn [typeofObject bind]; rewrite T, C; reflexivity.
  - assert (K : exists keys, objectKeys data = Ok keys)
      by (destruct data; cbn in Hss |- *; eauto; discriminate).
    destruct K as [keys K]. rewrite K, A, Hss. cbn [orb].
    destruct data; try discriminate; cbn [typeofObject bind];
      rewrite Tss, Htl; cbn [bind]; rewrite Ttl, S; reflexivity.
Qed.

(** X3.  Three shapes of document end the whole batch with a [TypeError] of
    the engine, whose message names no file: the document [null], a truthy
    [semanticSegments] that is no array, and a truthy [timelineObjects] that
    cannot be spread.  The files up to that one are read, the results are
    left as they were, and the error is the text of the [TypeError] after
    [Error processing files: ]. *)
Theorem type_errors_end_the_batch host opts state before f after te :
  Forall (accepted host) before ->
  malformed host f te ->
  processFiles host opts (before ++ f :: after) state
  = (map fileName before ++ [fileName f],
     {| error := Some ("Error processing files: " ++ typeErrorText host te)%string;
        results := results state;
        processing := false |}).
Proof.
  intros A M.
  rewrite processFiles_nonempty by (destruct before; discriminate).
  rewrite (processAll_stops host before f after [] _ _ A (malformed_throws host f te M)).
  reflexivity.
Qed.

(** X3 at a file whose [semanticSegments] is a text, after a valid file. *)
Lemma type_errors_end_the_batch_witness :
  processFiles moreHost sampleOptions
    [file "a.json" legacyText; file "s.json" textSegmentsText; file "c.json" cafeText] idle
  = (["a.json"; "s.json"],
     {| error := Some "Error processing files: segments.forEach is not a function";
        results := None;
        processing := false |}).
Proof.
  apply (type_errors_end_the_batch moreHost sampleOptions idle
           [file "a.json" legacyText] (file "s.json" textSegmentsText)
           [file "c.json" cafeText] (NotAFunction "segments.forEach")).
  - constructor; [|constructor]. intros st. rewrite processFile_frame.
    eexists. vm_compute. reflexivity.
  - apply (SegmentsNoArray moreHost (file "s.json" textSegmentsText)
             textSegmentsDocument (VString "none")); reflexivity.
Defined.

(* ================================================================= *)
(** ** The shape of normalised records *)

Ltac binds H :=
  repeat match type of H with
         | bind _ _ = Ok _ => bind_inv H
         end.

Lemma convertVisit_canonical segment visit r :
  convertVisit segment visit = Ok r -> canonical r /\ isPlaceVisit r = true.
Proof.
  unfold convertVisit. intros H. binds H. cbv zeta in H. binds H.
  injection H as <-. split; [exact I|reflexivity].
Qed.

Lemma convertActivity_canonical segment activity r :
  convertActivity segment activity = Ok r -> canonical r /\ isPlaceVisit r = false.
Proof.
  unfold convertActivity. intros H. binds H. cbv zeta in H. binds H.
  injection H as <-. split; [exact I|reflexivity].
Qed.

Lemma convertPath_canonical segment path l :
  convertPath segment path = Ok l ->
  Forall (fun r => canonical r /\ isPlaceVisit r = false) l.
Proof.
  unfold convertPath. intros H.
  repeat match type of H with
         | Ok _ = Ok _ => injection H as <-; repeat constructor
         | bind _ _ = Ok _ => bind_inv H
         | (match ?x with _ => _ end) = Ok _ => destruct x
         | (if ?x then _ else _) = Ok _ => destruct x
         end.
Qed.

Lemma convertSegment_canonical segment l :
  convertSegment segment = Ok l -> Forall canonical l.
Proof.
  unfold convertSegment. intros H. bind_inv H.
  destruct (truthy a).
  - bind_inv H. injection H as <-. constructor; [|constructor].
    eapply convertVisit_canonical; eauto.
  - bind_inv H. destruct (truthy a0).
    + bind_inv H. injection H as <-. constructor; [|constructor].
      eapply convertActivity_canonical; eauto.
    + bind_inv H. destruct (truthy a1).
      * eapply Forall_impl; [|eapply convertPath_canonical; exact H]. cbv beta. tauto.
      * injection H as <-. constructor.
Qed.

Lemma segmentYield_canonical segments : Forall canonical (flat_map segmentYield segments).
Proof.
  apply Forall_flat_map. apply Forall_forall. intros segment _. unfold segmentYield.
  destruct (convertSegment segment) eqn:E; [|constructor].
  eapply convertSegment_canonical; eauto.
Qed.

(** X23.  Every record the normaliser makes has exactly one branch, a
    placeVisit for a visit and an activitySegment for an activity or a
    path; so the CSV table of the records of a list of segments has the
    header and exactly one row per record. *)
Theorem normalised_records_have_one_branch te filename segments q :
  Forall canonical (segmentRecords te filename segments)
  /\ (forall segment visit r,
        get segment "visit" = Ok visit -> truthy visit = true ->
        convertSegment segment = Ok [r] -> isPlaceVisit r = true)
  /\ exists table,
       readCSV (convertToCSV q (segmentRecords te filename segments)) = Some table
       /\ List.length table = List.length (segmentRecords te filename segments) + 1.
Proof.
  assert (R : segmentRecords te filename segments = flat_map segmentYield segments).
  { unfold segmentRecords. rewrite convertSegments_closed. reflexivity. }
  split; [|split].
  - rewrite R. apply segmentYield_canonical.
  - intros segment visit r G T. unfold convertSegment. rewrite G. cbn [bind]. rewrite T.
    intros H. bind_inv H. injection H as <-. eapply convertVisit_canonical; eauto.
  - eexists. split; [apply readCSV_convertToCSV|].
    rewrite length_map. apply csvRows_length. rewrite R. apply segmentYield_canonical.
Qed.

(** X23 at the segment of the first scenario. *)
Lemma normalised_records_have_one_branch_witness : isPlaceVisit cafeRecord = true.
Proof.
  apply (proj1 (proj2 (normalised_records_have_one_branch sampleTypeErrorText
                         "timeline.json" [cafeSegment] sampleDegrees))
           cafeSegment cafeVisit cafeRecord).
  - reflexivity.
  - reflexivity.
  - vm_compute. reflexivity.
Defined.

(** ** Paths *)

Lemma itemAt_last first middle last :
  itemAt (first :: middle ++ [last]) (List.length (first :: middle ++ [last]) - 1) = last.
Proof.
  unfold itemAt. rewrite app_comm_cons, length_app. cbn [List.length].
  replace (S (List.length middle) + 1 - 1) with (List.length (first :: middle))
    by (cbn [List.length]; lia).
  apply nth_middle.
Qed.

(** X24.  A timeline path is reduced to its end points: the record of a path
    is the record of its first and last point alone, whatever lies between
    them; a path of one point starts and ends there; an empty path gives no
    record. *)
Theorem path_keeps_its_end_points segment :
  (forall first middle last,
     convertPath segment (VArray (first :: middle ++ [last]))
     = convertPath segment (VArray [first; last]))
  /\ (forall only,
        convertPath segment (VArray [only]) = convertPath segment (VArray [only; only]))
  /\ convertPath segment (VArray []) = Ok [].
Proof.
  split; [|split; [reflexivity|reflexivity]].
  intros first middle last. unfold convertPath.
  rewrite itemAt_last. cbn [List.length]. reflexivity.
Qed.

(* ================================================================= *)
(** ** Visits at one place *)

Lemma allRecords_nonempty l : l <> [] -> allRecordsAfterPlaceIdDedup l <> [].
Proof.
  destruct l as [|x l]; [congruence|]. intros _ E.
  rewrite allRecords_closed in E. apply app_eq_nil in E. destruct E as [E1 E2].
  destruct (placeIdKey x) as [k|] eqn:K.
  - assert (Hk : In k (firstKeys (placeIdKeys (x :: l)))).
    { apply firstKeys_In. unfold placeIdKeys. cbn [flat_map]. rewrite K. now left. }
    assert (Hx : In x (filter (hasPlaceIdKey k) (x :: l))).
    { apply filter_In. split; [now left|]. now apply hasPlaceIdKey_spec. }
    destruct (preferred_nonempty (filter (hasPlaceIdKey k) (x :: l))) as [s Hs].
    { intros F. now rewrite F in Hx. }
    assert (In s []) as []. rewrite <- E1. apply in_flat_map. exists k.
    split; [exact Hk|]. rewrite Hs. now left.
  - assert (In x []) as []. rewrite <- E2. apply filter_In. split; [now left|].
    unfold noPlaceIdKey. now rewrite K.
Qed.

(** X25.  Visits at the same scaled coordinates collapse into one record,
    whatever their placeIds: of a non-empty list of visits at one coordinate
    pair, deduplication returns a single record of the list. *)
Theorem visits_at_one_place_collapse random cleaned lat lng :
  cleaned <> [] ->
  Forall (fun obj => atCoords lat lng obj = true) cleaned ->
  exists s, dedup random cleaned = [s] /\ In s cleaned.
Proof.
  intros N A.
  assert (F : forall l, (forall x, In x l -> In x cleaned) -> filter (atCoords lat lng) l = l).
  { intros l H. apply filter_all_true. apply Forall_forall. intros x Hx.
    apply H in Hx. revert x Hx. now apply Forall_forall. }
  destruct (pass2_one_survivor random cleaned lat lng) as [s [Hs E]].
  - rewrite (F _ (allRecords_incl cleaned)). now apply allRecords_nonempty.
  - rewrite (F _ (dedup_incl random cleaned)) in E. exists s. split; [exact E|].
    apply (dedup_incl random). rewrite E. now left.
Qed.

(** X25 at two visits of different placeIds at one place. *)
Lemma visits_at_one_place_collapse_witness :
  exists s,
    dedup sameKey [sampleVisit 1 1 (Some "P7") None None; cafeById] = [s]
    /\ In s [sampleVisit 1 1 (Some "P7") None None; cafeById].
Proof.
  apply (visits_at_one_place_collapse sameKey
           [sampleVisit 1 1 (Some "P7") None None; cafeById] (Int 1) (Int 1)).
  - discriminate.
  - repeat constructor.
Defined.
